(** * lisp.py: a shallow embedding of the reader, expander and evaluator

    The development follows [code.py] (Norvig's lispy 2, ported to
    CircuitPython): the tokenizer and reader ([InPort.next_token], [read],
    [atom]), the printer ([to_string]), environments ([Env]), the
    trampolined evaluator ([eval]), the expander ([expand],
    [expand_quasiquote], [let]), escape continuations ([callcc]) and the
    loading of files ([load], [repl]).

    Python objects that the program mutates and shares (environments, the
    macro table) live in an explicit store, with the files of the host; Python exceptions are an error
    result; Python's call stack and the evaluator's [while True] loop are
    two separate budgets, so that the difference between a recursive call
    of [eval] and another turn of its loop stays visible. *)

From Stdlib Require Import ZArith Ascii String List Bool Lia.
From Stdlib Require Import DecimalString DecimalZ.
From stdpp Require Import base option gmap strings list fin_maps.

Set Warnings "-register-all".
Local Open Scope string_scope.
Local Open Scope Z_scope.

(** ** Characters and strings of the host language *)

Module PyStr.

Definition tab : ascii := "009"%char.
Definition newline : ascii := "010"%char.
Definition dquote : ascii := "034"%char.
Definition backslash : ascii := "092"%char.

(** The characters [str.strip()] removes. *)
Definition is_space (c : ascii) : bool :=
  let n := nat_of_ascii c in
  (Nat.eqb n 32 || (Nat.leb 9 n && Nat.leb n 13))%bool.

Fixpoint lstrip (s : string) : string :=
  match s with
  | EmptyString => EmptyString
  | String c r => if is_space c then lstrip r else s
  end.

Fixpoint rstrip (s : string) : string :=
  match s with
  | EmptyString => EmptyString
  | String c r =>
      match rstrip r with
      | EmptyString => if is_space c then EmptyString else String c EmptyString
      | r' => String c r'
      end
  end.

Definition strip (s : string) : string := rstrip (lstrip s).

(** [s.startswith(c)] for a one-character prefix. *)
Definition starts_with (c : ascii) (s : string) : bool :=
  match s with
  | String d _ => Ascii.eqb c d
  | EmptyString => false
  end.

(** [s.endswith(suffix)]. *)
Fixpoint ends_with (suffix s : string) : bool :=
  (String.eqb suffix s
   || match s with
      | String _ r => ends_with suffix r
      | EmptyString => false
      end)%bool.

(** [s[:-1]]: all but the last character. *)
Fixpoint drop_last (s : string) : string :=
  match s with
  | EmptyString => EmptyString
  | String c EmptyString => EmptyString
  | String c r => String c (drop_last r)
  end.

(** [s[1:-1]]. *)
Definition slice_1_m1 (s : string) : string :=
  match s with
  | EmptyString => EmptyString
  | String _ r => drop_last r
  end.

(** [s.replace(q, backslash + q)] for the double quote [q]. *)
Fixpoint escape_quotes (s : string) : string :=
  match s with
  | EmptyString => EmptyString
  | String c r =>
      if Ascii.eqb c dquote
      then String backslash (String dquote (escape_quotes r))
      else String c (escape_quotes r)
  end.

(** [sep.join(l)]. *)
Fixpoint join (sep : string) (l : list string) : string :=
  match l with
  | [] => EmptyString
  | [s] => s
  | s :: r => s ++ sep ++ join sep r
  end.

(** [file.readline()]: the text up to and including the first newline,
    and what is left of the file. *)
Fixpoint readline (file : string) : string * string :=
  match file with
  | EmptyString => (EmptyString, EmptyString)
  | String c r =>
      if Ascii.eqb c newline then (String c EmptyString, r)
      else let '(l, rest) := readline r in (String c l, rest)
  end.

(** What the regular expression [.*] consumes: [.] matches every
    character but a newline. *)
Fixpoint dot_star (s : string) : string :=
  match s with
  | EmptyString => EmptyString
  | String c r => if Ascii.eqb c newline then EmptyString else String c (dot_star r)
  end.

(** [str(n)] for an integer. *)
Definition str_of_Z (z : Z) : string := NilZero.string_of_int (Z.to_int z).

Definition is_digit (c : ascii) : bool :=
  let n := nat_of_ascii c in (Nat.leb 48 n && Nat.leb n 57)%bool.

Definition digit_val (c : ascii) : Z := Z.of_nat (nat_of_ascii c) - 48.

(** The digits of a decimal literal, most significant first; a single
    underscore may separate two digits. [after_digit] tells whether the
    previous character was a digit. *)
Fixpoint parse_digits (after_digit : bool) (acc : Z) (s : string) : option Z :=
  match s with
  | EmptyString => if after_digit then Some acc else None
  | String c r =>
      if is_digit c then parse_digits true (10 * acc + digit_val c) r
      else if (Ascii.eqb c "_" && after_digit)%bool then
        match r with
        | String d _ => if is_digit d then parse_digits false acc r else None
        | EmptyString => None
        end
      else None
  end.

(** [int(token)]: [None] stands for [ValueError]. Surrounding white
    space is ignored and one sign is accepted. *)
Definition parse_int (token : string) : option Z :=
  match strip token with
  | String c r =>
      if Ascii.eqb c "-" then Z.opp <$> parse_digits false 0 r
      else if Ascii.eqb c "+" then parse_digits false 0 r
      else parse_digits false 0 (String c r)
  | EmptyString => None
  end.

End PyStr.

(** ** Values

    Python values the interpreter handles. A [Symbol] is interned, so two
    symbols are the same object exactly when they have the same name;
    [eof_object] is the one symbol that is not interned. Environments are
    objects of the store: a [Procedure] refers to its environment by
    address. Floating point numbers are outside the model. [VHost] is an
    object of the host that is bound in the global environment and is not
    a procedure (a constant of the [math] module or of the hardware
    modules); the model knows its name only. *)

(** Native procedures installed by [add_globals], plus [let] of the macro
    table and the function [throw] that [callcc] makes. [PLoad] is
    [load], which runs [repl] on a file. [PHost] stands for
    a host binding whose behaviour is not modelled (input and output, the
    [math] module, the hardware bindings). *)
Inductive prim : Type :=
| PAdd | PSub | PMul | PNot
| PGt | PLt | PGe | PLe | PEq
| PLen | PCons | PCar | PCdr | PList
| PIsList | PIsNull | PIsSymbol | PIsBoolean | PIsPair
| PApply | PEval | PCallcc | PIsEof
| PLoad
| PLet
| PThrow (ball : nat)
| PHost (name : string).

Inductive value : Type :=
| VNone
| VBool (b : bool)
| VInt (z : Z)
| VStr (s : string)
| VSym (s : string)
| VEof
| VList (l : list value)
| VProcedure (parms exp : value) (env : nat)
| VPrim (p : prim)
| VHost (name : string).

Definition Sym (s : string) : value := VSym s.

Definition _quote := Sym "quote".
Definition _if := Sym "if".
Definition _cond := Sym "cond".
Definition _set := Sym "set!".
Definition _define := Sym "define".
Definition _lambda := Sym "lambda".
Definition _begin := Sym "begin".
Definition _definemacro := Sym "define-macro".
Definition _quasiquote := Sym "quasiquote".
Definition _unquote := Sym "unquote".
Definition _unquotesplicing := Sym "unquote-splicing".
Definition _append := Sym "append".
Definition _cons := Sym "cons".
Definition _let := Sym "let".

(** [x is s] for an interned symbol [s]. *)
Definition is_sym (name : string) (x : value) : bool :=
  match x with
  | VSym s => String.eqb s name
  | _ => false
  end.

(** Why a run of the model stops without a Python result. *)
Inductive abort : Type :=
| OutOfSteps            (* the loop budget of the model ran out *)
| StackOverflow         (* the call-depth budget of the model ran out *)
| Unmodelled (what : string).

(** Python exceptions. [SyntaxError x msg] is
    [SyntaxError(to_string(x)+': '+msg)] when [x] is given and
    [SyntaxError(msg)] otherwise; [ArityError parms args] is the
    [TypeError('expected %s, given %s, ' ...)] of [Env.__init__];
    [RuntimeWarning ball retval] is the object [ball] of one [callcc]
    call, with its attribute [retval]; [OSError name] is what [open]
    raises for a file that does not exist. *)
Inductive exn : Type :=
| SyntaxError (x : option value) (msg : string)
| LookupError (name : string)
| ArityError (parms : value) (args : list value)
| TypeError (what : string)
| ValueError (what : string)
| IndexError
| AttributeError (what : string)
| OSError (name : string)
| RuntimeWarning (ball : nat) (retval : value).

Inductive outcome (S A : Type) : Type :=
| Ret (a : A) (s : S)
| Raise (e : exn) (s : S)
| Stop (r : abort).
Arguments Ret {S A} a s.
Arguments Raise {S A} e s.
Arguments Stop {S A} r.

Definition bind {S A B} (m : outcome S A) (k : A -> S -> outcome S B) : outcome S B :=
  match m with
  | Ret a s => k a s
  | Raise e s => Raise e s
  | Stop r => Stop r
  end.

Notation "'do' x , s <- m ; k" := (bind m (fun x s => k))
  (at level 10, x name, s name, m at level 100, k at level 200).

(** ** Tokenizer and reader *)

Module Reader.
Import PyStr.

(** An input port: the unread rest of the file and the retained line. *)
Record InPort : Type := { file : string; line : string }.

(** A token is text, or the object [eof_object]. *)
Inductive token : Type :=
| Tok (s : string)
| EofTok.

(** [[ ]*]: only the space character is skipped by the expression. *)
Fixpoint skip_blanks (s : string) : string :=
  match s with
  | String c r => if Ascii.eqb c " " then skip_blanks r else s
  | EmptyString => s
  end.

(** The class [[('`,)]]. *)
Definition is_punct (c : ascii) : bool :=
  (Ascii.eqb c "(" || Ascii.eqb c "'" || Ascii.eqb c "`"
   || Ascii.eqb c "," || Ascii.eqb c ")")%bool.

(** The characters the last alternative of the expression excludes:
    space, parentheses, the quote markers, the double quote and the
    semicolon. *)
Definition is_delim (c : ascii) : bool :=
  (Ascii.eqb c " " || Ascii.eqb c "(" || Ascii.eqb c "'" || Ascii.eqb c dquote
   || Ascii.eqb c "`" || Ascii.eqb c "," || Ascii.eqb c ";" || Ascii.eqb c ")")%bool.

(** The string alternative after its opening double quote: a run of
    escaped characters (a backslash and any character but a newline) and
    of characters that are neither a backslash nor a double quote, then
    the closing double quote. The result is the matched text up to and
    including the closing quote, and the rest; [None] when the
    alternative does not match. *)
Fixpoint scan_string (s : string) : option (string * string) :=
  match s with
  | EmptyString => None
  | String c r =>
      if Ascii.eqb c dquote then Some (String c EmptyString, r)
      else if Ascii.eqb c backslash then
        match r with
        | String d r' =>
            if Ascii.eqb d newline then None
            else '(m, rest) ← scan_string r'; Some (String c (String d m), rest)
        | EmptyString => None
        end
      else '(m, rest) ← scan_string r; Some (String c m, rest)
  end.

(** The last alternative: the longest run of characters that are not
    delimiters, and the rest. *)
Fixpoint scan_raw (s : string) : string * string :=
  match s with
  | String c r =>
      if is_delim c then (EmptyString, s)
      else let '(m, rest) := scan_raw r in (String c m, rest)
  | EmptyString => (EmptyString, EmptyString)
  end.

(** [ure.match(InPort.tokenizer, line)]: groups 1 and 2. The
    alternatives are tried in the order of the expression; the last one
    matches the empty text, so the match never fails. *)
Definition tokenizer (l : string) : string * string :=
  match skip_blanks l with
  | EmptyString => (EmptyString, EmptyString)
  | String c r =>
      if (Ascii.eqb c "," && starts_with "@" r)%bool then
        (",@", dot_star (match r with String _ r' => r' | _ => r end))
      else if is_punct c then (String c EmptyString, dot_star r)
      else
        match (if Ascii.eqb c dquote then scan_string r else None) with
        | Some (m, rest) => (String c m, dot_star rest)
        | None =>
            if Ascii.eqb c ";" then (String c (dot_star r), EmptyString)
            else let '(m, rest) := scan_raw (String c r) in (m, dot_star rest)
        end
  end.

(** [InPort.next_token]: [loops] bounds the turns of its [while True];
    [None] means the loop did not return within the bound. *)
Fixpoint next_token_loop (loops : nat) (p : InPort) : option (token * InPort) :=
  match loops with
  | O => None
  | S n =>
      let p1 :=
        if String.eqb (line p) "" then
          let '(l, rest) := readline (file p) in {| file := rest; line := l |}
        else p in
      if String.eqb (line p1) "" then Some (EofTok, p1)
      else
        let '(tok, rest) := tokenizer (strip (line p1)) in
        let p2 := {| file := file p1; line := rest |} in
        if (negb (String.eqb tok "") && negb (starts_with ";" tok))%bool
        then Some (Tok tok, p2)
        else next_token_loop n p2
  end.

(** Every turn that does not return shortens the port, unless the line
    starts with a string that is not closed: then the line is kept as it
    is, and the loop of the program turns for ever. *)
Definition next_token (p : InPort) : option (token * InPort) :=
  next_token_loop (S (String.length (file p) + String.length (line p))) p.

(** All the tokens of a text, for stating properties of the tokenizer. *)
Fixpoint tokens_loop (n : nat) (p : InPort) : option (list string) :=
  match n with
  | O => None
  | S n' =>
      match next_token p with
      | None => None
      | Some (EofTok, _) => Some []
      | Some (Tok t, p') => cons t <$> tokens_loop n' p'
      end
  end.

Definition open_text (text : string) : InPort := {| file := text; line := "" |}.

Definition tokens (text : string) : option (list string) :=
  tokens_loop (S (String.length text)) (open_text text).

End Reader.

(** ** Atoms and the printer *)

Module Atom.
Import PyStr.

Definition lower (c : ascii) : ascii :=
  let n := nat_of_ascii c in
  if (Nat.leb 65 n && Nat.leb n 90)%bool then ascii_of_nat (n + 32) else c.

Fixpoint lower_str (s : string) : string :=
  match s with
  | EmptyString => EmptyString
  | String c r => String (lower c) (lower_str r)
  end.

(** A run of digits in which single underscores separate digits:
    whether it has a digit, and the rest. *)
Fixpoint eat_digits (after_digit : bool) (s : string) : bool * string :=
  match s with
  | EmptyString => (after_digit, s)
  | String c r =>
      if is_digit c then let '(_, rest) := eat_digits true r in (true, rest)
      else if (Ascii.eqb c "_" && after_digit)%bool then
        match r with
        | String d _ => if is_digit d then eat_digits false r else (true, s)
        | EmptyString => (true, s)
        end
      else (after_digit, s)
  end.

Definition drop_sign (s : string) : string :=
  match s with
  | String c r => if (Ascii.eqb c "-" || Ascii.eqb c "+")%bool then r else s
  | EmptyString => s
  end.

(** Whether [float(token)] returns: the syntax of a floating point
    literal. The number itself is not modelled. *)
Definition is_float (token : string) : bool :=
  let body := drop_sign (strip token) in
  let name := lower_str body in
  if (String.eqb name "inf" || String.eqb name "infinity" || String.eqb name "nan")%bool
  then true
  else
    let '(d1, r1) := eat_digits false body in
    let '(d2, r2) :=
      match r1 with
      | String c r => if Ascii.eqb c "." then eat_digits false r else (false, r1)
      | EmptyString => (false, r1)
      end in
    if negb (d1 || d2) then false
    else
      match r2 with
      | EmptyString => true
      | String c r =>
          if Ascii.eqb (lower c) "e" then
            let '(d3, r3) := eat_digits false (drop_sign r) in
            (d3 && String.eqb r3 "")%bool
          else false
      end.

(** [atom(token)]. *)
Definition atom (token : string) : outcome unit value :=
  if String.eqb token "#t" then Ret (VBool true) ()
  else if String.eqb token "#f" then Ret (VBool false) ()
  else
    match token with
    | EmptyString => Raise IndexError ()
    | String c _ =>
        if Ascii.eqb c dquote then Ret (VStr (slice_1_m1 token)) ()
        else
          match parse_int token with
          | Some z => Ret (VInt z) ()
          | None =>
              if is_float token then Stop (Unmodelled "float")
              else Ret (Sym token) ()
          end
    end.

(** [to_string(x)]; [None] where the text is the host's rendering of an
    object (a procedure), which the model does not have. *)
Fixpoint to_string (x : value) : option string :=
  match x with
  | VBool true => Some "#t"
  | VBool false => Some "#f"
  | VSym s => Some s
  | VEof => Some "#<eof-object>"
  | VStr s => Some (String dquote (escape_quotes s ++ String dquote EmptyString))
  | VList l =>
      strs ← (fix each (l : list value) : option (list string) :=
                match l with
                | [] => Some []
                | v :: r => s ← to_string v; ss ← each r; Some (s :: ss)
                end) l;
      Some ("(" ++ join " " strs ++ ")")
  | VInt z => Some (str_of_Z z)
  | VNone => Some "None"
  | VProcedure _ _ _ | VPrim _ | VHost _ => None
  end.

End Atom.

Module Parser.
Import PyStr Reader Atom.

(** The dictionary [quotes]. *)
Definition quotes (t : string) : option value :=
  if String.eqb t "'" then Some _quote
  else if String.eqb t "`" then Some _quasiquote
  else if String.eqb t "," then Some _unquote
  else if String.eqb t ",@" then Some _unquotesplicing
  else None.

Definition lift_atom (token : string) (p : InPort) : outcome InPort value :=
  match atom token with
  | Ret v _ => Ret v p
  | Raise e _ => Raise e p
  | Stop r => Stop r
  end.

(** [read] with its local function [read_ahead]; [read_list] is the
    [while True] loop of the list case, with the list built so far.
    Every call and every turn of the loop takes one unit of [fuel]. *)
Fixpoint read_ahead (fuel : nat) (tok : token) (p : InPort) : outcome InPort value :=
  match fuel with
  | O => Stop OutOfSteps
  | S n =>
      match tok with
      | EofTok => Raise (SyntaxError None "unexpected EOF in list") p
      | Tok t =>
          if String.eqb t "(" then read_list n [] p
          else if String.eqb t ")" then Raise (SyntaxError None "unexpected )") p
          else
            match quotes t with
            | Some q => do v, p' <- read n p; Ret (VList [q; v]) p'
            | None => lift_atom t p
            end
      end
  end
with read_list (fuel : nat) (L : list value) (p : InPort) : outcome InPort value :=
  match fuel with
  | O => Stop OutOfSteps
  | S n =>
      match next_token p with
      | None => Stop OutOfSteps
      | Some (tok, p') =>
          if (match tok with Tok t => String.eqb t ")" | EofTok => false end)
          then Ret (VList L) p'
          else do v, p'' <- read_ahead n tok p'; read_list n (L ++ [v]) p''
      end
  end
with read (fuel : nat) (p : InPort) : outcome InPort value :=
  match fuel with
  | O => Stop OutOfSteps
  | S n =>
      match next_token p with
      | None => Stop OutOfSteps
      | Some (EofTok, p') => Ret VEof p'
      | Some (tok, p') => read_ahead n tok p'
      end
  end.

(** Enough fuel to read one expression from a port: a token costs at
    most two units. *)
Definition read_fuel (p : InPort) : nat :=
  (2 * (String.length (file p) + String.length (line p)) + 4)%nat.

(** [read(InPort(StringIO(text)))]. *)
Definition read_text (text : string) : outcome InPort value :=
  read (read_fuel (open_text text)) (open_text text).

End Parser.

(** ** The store: environments, the macro table, escape objects *)

(** An [Env] object: its dictionary [storage] and the address of its
    [outer] environment. *)
Record Env : Type := mkEnv { storage : gmap string value; outer : option nat }.

(** The objects the program shares and mutates: every [Env] made so far
    (an address is a position in [envs]; [global_env] is at address 0),
    the dictionary [macro_table], and the number of [ball] objects made by
    [callcc] so far. [files] is the file system of the host, which [load]
    reads: the text of every file, by name. *)
Record state : Type :=
  mkState { envs : list Env; macro_table : gmap string value; balls : nat;
            files : gmap string string }.

Definition global_env : nat := 0%nat.

Module Py.
Import PyStr.

(** [isa(x, Symbol)]: [eof_object] is a symbol too. *)
Definition is_Symbol (x : value) : bool :=
  match x with
  | VSym _ | VEof => true
  | _ => false
  end.

(** The text of a [str] object (a string or a symbol). *)
Definition text_of (x : value) : option string :=
  match x with
  | VStr s | VSym s => Some s
  | VEof => Some "#<eof-object>"
  | _ => None
  end.

(** [str(x)], where the model has it. *)
Definition py_str (x : value) : option string :=
  match x with
  | VStr s | VSym s => Some s
  | VEof => Some "#<eof-object>"
  | VInt z => Some (str_of_Z z)
  | VBool true => Some "True"
  | VBool false => Some "False"
  | VNone => Some "None"
  | _ => None
  end.

(** The truth value of an object in a condition. The host objects of
    the global environment (module constants) are true. *)
Definition truthy (x : value) : bool :=
  match x with
  | VNone => false
  | VBool b => b
  | VInt z => negb (Z.eqb z 0)
  | VStr s | VSym s => negb (String.eqb s "")
  | VList l => match l with [] => false | _ => true end
  | VEof | VProcedure _ _ _ | VPrim _ | VHost _ => true
  end.

(** An [int] or a [bool], as a number. *)
Definition as_int (x : value) : option Z :=
  match x with
  | VInt z => Some z
  | VBool b => Some (if b then 1 else 0)
  | _ => None
  end.

Definition is_callable (x : value) : bool :=
  match x with
  | VProcedure _ _ _ | VPrim _ => true
  | _ => false
  end.

Definition is_host (x : value) : bool :=
  match x with
  | VHost _ => true
  | _ => false
  end.

(** [x == y]; [None] where the answer depends on the identity of two
    procedure objects or on a host object. *)
Fixpoint py_eq (x y : value) : option bool :=
  match as_int x, as_int y with
  | Some a, Some b => Some (Z.eqb a b)
  | _, _ =>
      match text_of x, text_of y with
      | Some s, Some t => Some (String.eqb s t)
      | _, _ =>
          match x, y with
          | VNone, VNone => Some true
          | VList l1, VList l2 =>
              if negb (Nat.eqb (length l1) (length l2)) then Some false
              else
                (fix each (l1 l2 : list value) : option bool :=
                   match l1, l2 with
                   | a :: r1, b :: r2 =>
                       match py_eq a b with
                       | Some true => each r1 r2
                       | other => other
                       end
                   | _, _ => Some true
                   end) l1 l2
          | (VProcedure _ _ _ | VPrim _), (VProcedure _ _ _ | VPrim _) => None
          | VHost _, _ | _, VHost _ => None
          | _, _ => Some false
          end
      end
  end.

(** [x[1:-1]] and [x[-1]] of a non-empty list [x = hd :: tl]. *)
Definition middle (tl : list value) : list value := removelast tl.
Definition last_of (hd : value) (tl : list value) : value := List.last tl hd.

Definition arith (op : Z -> Z -> Z) (args : list value) (st : unit)
  : outcome unit value :=
  match args with
  | [x; y] =>
      match as_int x, as_int y with
      | Some a, Some b => Ret (VInt (op a b)) st
      | _, _ => Raise (TypeError "unsupported operand") st
      end
  | _ => Raise (TypeError "arguments") st
  end.

Definition compare (op : Z -> Z -> bool) (args : list value) (st : unit)
  : outcome unit value :=
  match args with
  | [x; y] =>
      match as_int x, as_int y with
      | Some a, Some b => Ret (VBool (op a b)) st
      | _, _ =>
          match x, y with
          | VList _, VList _ => Stop (Unmodelled "ordering of sequences")
          | _, _ =>
              match text_of x, text_of y with
              | Some _, Some _ => Stop (Unmodelled "ordering of sequences")
              | _, _ => Raise (TypeError "unsupported operand") st
              end
          end
      end
  | _ => Raise (TypeError "arguments") st
  end.

Definition one (f : value -> unit -> outcome unit value)
    (args : list value) (st : unit) : outcome unit value :=
  match args with
  | [x] => f x st
  | _ => Raise (TypeError "arguments") st
  end.

(** What a procedure does with a host object as an operand is not
    modelled. *)
Definition no_host (args : list value) (r : outcome unit value) : outcome unit value :=
  if existsb is_host args then Stop (Unmodelled "host object") else r.

(** The native procedures of [add_globals] that do not call back into
    the interpreter: none of them reads or writes the store, so they are
    given without it. *)
Definition native_result (p : prim) (args : list value) (st : unit) : outcome unit value :=
  match p with
  | PAdd =>                                  (* op.add *)
      no_host args
      match args with
      | [x; y] =>
          match as_int x, as_int y with
          | Some a, Some b => Ret (VInt (a + b)) st
          | _, _ =>
              match x, y with
              | VList l1, VList l2 => Ret (VList (l1 ++ l2)) st
              | _, _ =>
                  match text_of x, text_of y with
                  | Some s, Some t => Ret (VStr (s ++ t)) st
                  | _, _ => Raise (TypeError "unsupported operand") st
                  end
              end
          end
      | _ => Raise (TypeError "arguments") st
      end
  | PSub => no_host args (arith Z.sub args st)
  | PMul =>
      no_host args
      match args with
      | [x; y] =>
          match as_int x, as_int y with
          | Some a, Some b => Ret (VInt (a * b)) st
          | Some _, None =>
              match y with
              | VList _ | VStr _ | VSym _ | VEof => Stop (Unmodelled "repetition")
              | _ => Raise (TypeError "unsupported operand") st
              end
          | None, Some _ =>
              match x with
              | VList _ | VStr _ | VSym _ | VEof => Stop (Unmodelled "repetition")
              | _ => Raise (TypeError "unsupported operand") st
              end
          | None, None => Raise (TypeError "unsupported operand") st
          end
      | _ => Raise (TypeError "arguments") st
      end
  | PNot => one (fun x st => Ret (VBool (negb (truthy x))) st) args st
  | PGt => no_host args (compare Z.gtb args st)
  | PLt => no_host args (compare Z.ltb args st)
  | PGe => no_host args (compare Z.geb args st)
  | PLe => no_host args (compare Z.leb args st)
  | PEq =>
      match args with
      | [x; y] =>
          match py_eq x y with
          | Some b => Ret (VBool b) st
          | None => Stop (Unmodelled "identity of procedures")
          end
      | _ => Raise (TypeError "arguments") st
      end
  | PLen =>
      no_host args
      (one (fun x st =>
             match x with
             | VList l => Ret (VInt (Z.of_nat (length l))) st
             | _ =>
                 match text_of x with
                 | Some s => Ret (VInt (Z.of_nat (String.length s))) st
                 | None => Raise (TypeError "no len") st
                 end
             end) args st)
  | PCons =>                                 (* [x]+y *)
      match args with
      | [x; VList l] => Ret (VList (x :: l)) st
      | [_; VHost _] => Stop (Unmodelled "host object")
      | [_; _] => Raise (TypeError "unsupported operand") st
      | _ => Raise (TypeError "arguments") st
      end
  | PCar =>                                  (* x[0] *)
      no_host args
      (one (fun x st =>
             match x with
             | VList (h :: _) => Ret h st
             | VList [] => Raise IndexError st
             | VStr _ | VSym _ | VEof => Stop (Unmodelled "indexing of text")
             | _ => Raise (TypeError "not subscriptable") st
             end) args st)
  | PCdr =>                                  (* x[1:] *)
      no_host args
      (one (fun x st =>
             match x with
             | VList l => Ret (VList (tl l)) st
             | VStr _ | VSym _ | VEof => Stop (Unmodelled "indexing of text")
             | _ => Raise (TypeError "not subscriptable") st
             end) args st)
  | PList => Ret (VList args) st
  | PIsList => one (fun x st => Ret (VBool (match x with VList _ => true | _ => false end)) st) args st
  | PIsNull =>
      no_host args
      (one (fun x st => Ret (VBool (match x with VList [] => true | _ => false end)) st) args st)
  | PIsSymbol => one (fun x st => Ret (VBool (is_Symbol x)) st) args st
  | PIsBoolean => one (fun x st => Ret (VBool (match x with VBool _ => true | _ => false end)) st) args st
  | PIsPair => one (fun x st => Ret (VBool (match x with VList (_ :: _) => true | _ => false end)) st) args st
  | PIsEof => one (fun x st => Ret (VBool (match x with VEof => true | _ => false end)) st) args st
  | PThrow ball =>                           (* ball.retval = retval; raise ball *)
      one (fun retval st => Raise (RuntimeWarning ball retval) st) args st
  | PHost name => Stop (Unmodelled name)
  | PApply | PEval | PCallcc | PLet | PLoad => Stop (Unmodelled "needs the interpreter")
  end.

(** A native procedure called in a store. *)
Definition native (p : prim) (args : list value) (st : state) : outcome state value :=
  match native_result p args () with
  | Ret v _ => Ret v st
  | Raise e _ => Raise e st
  | Stop r => Stop r
  end.

End Py.

(** ** Environments *)

Module Environment.
Import Py.

(** A new object in the store; its address is returned. *)
Definition alloc (e : Env) (st : state) : outcome state nat :=
  Ret (length (envs st))
      {| envs := envs st ++ [e]; macro_table := macro_table st; balls := balls st; files := files st |}.

(** [dict.update(pairs)]: a later pair overrides an earlier one. *)
Definition update (m : gmap string value) (pairs : list (string * value))
  : gmap string value :=
  fold_left (fun m kv => <[kv.1 := kv.2]> m) pairs m.

(** [[str(p) for p in parms]]. *)
Fixpoint names_of (parms : list value) : option (list string) :=
  match parms with
  | [] => Some []
  | p :: r => s ← py_str p; ss ← names_of r; Some (s :: ss)
  end.

(** [Env(parms, args, outer)]: the address of the new environment. *)
Definition Env_init (parms : value) (args : list value) (outer : option nat)
    (st : state) : outcome state nat :=
  if is_Symbol parms then
    match py_str parms with
    | Some name => alloc (mkEnv {[ name := VList args ]} outer) st
    | None => Stop (Unmodelled "str")
    end
  else
    match parms with
    | VList ps =>
        if negb (Nat.eqb (length args) (length ps))
        then Raise (ArityError parms args) st
        else
          match names_of ps with
          | Some names => alloc (mkEnv (update ∅ (zip names args)) outer) st
          | None => Stop (Unmodelled "str")
          end
    | VStr _ => Stop (Unmodelled "text as a parameter list")
    | _ => Raise (TypeError "no len") st
    end.

(** [Env.find(var)], a recursive method: [d] bounds the depth of its
    calls. The result is the address of the environment found. *)
Fixpoint find (d : nat) (self : nat) (var : string) (st : state) : outcome state nat :=
  match d with
  | O => Stop StackOverflow
  | S d' =>
      match envs st !! self with
      | None => Stop (Unmodelled "no such environment")
      | Some e =>
          match storage e !! var with
          | Some _ => Ret self st
          | None =>
              match outer e with
              | None => Raise (LookupError var) st
              | Some o => find d' o var st
              end
          end
      end
  end.

(** [env.storage[name]]. *)
Definition get (env : nat) (name : string) (st : state) : outcome state value :=
  match envs st !! env with
  | None => Stop (Unmodelled "no such environment")
  | Some e =>
      match storage e !! name with
      | Some v => Ret v st
      | None => Raise (LookupError name) st      (* KeyError *)
      end
  end.

(** [env.storage[name] = v]. *)
Definition set (env : nat) (name : string) (v : value) (st : state)
  : outcome state value :=
  match envs st !! env with
  | None => Stop (Unmodelled "no such environment")
  | Some e =>
      Ret VNone
          {| envs := <[env := mkEnv (<[name := v]> (storage e)) (outer e)]> (envs st);
             macro_table := macro_table st; balls := balls st; files := files st |}
  end.

End Environment.

(** ** The expander and the evaluator *)

Module Interp.
Import Py Environment.

(** [require(x, predicate, msg)]. *)
Definition require (x : value) (predicate : bool) (msg : string) (st : state)
  : outcome state unit :=
  if predicate then Ret () st else Raise (SyntaxError (Some x) msg) st.

Definition wrong_length : string := "wrong length".

(** [[f(x) for x in l]], left to right, threading the store. *)
Fixpoint mapM {A B : Type} (f : A -> state -> outcome state B) (l : list A)
    (st : state) : outcome state (list B) :=
  match l with
  | [] => Ret [] st
  | a :: r =>
      do b, st1 <- f a st;
      do bs, st2 <- mapM f r st1;
      Ret (b :: bs) st2
  end.

(** [for x in l: f(x)]. *)
Fixpoint forM {A B : Type} (f : A -> state -> outcome state B) (l : list A)
    (st : state) : outcome state unit :=
  match l with
  | [] => Ret () st
  | a :: r => do _, st1 <- f a st; forM f r st1
  end.

(** [is_pair(x)]. *)
Definition is_pair (x : value) : bool :=
  match x with
  | VList (_ :: _) => true
  | _ => false
  end.

(** [expand_quasiquote(x)]. The inner function treats the list [x]
    element by element, as the calls on [x[1:]] do. *)
Fixpoint expand_quasiquote (x : value) (st : state) : outcome state value :=
  match x with
  | VList l =>
      (fix on_list (l : list value) : outcome state value :=
         match l with
         | [] => Ret (VList [_quote; VList []]) st
         | hd :: tl =>
             do _, _ <- require (VList l) (negb (is_sym "unquote-splicing" hd))
                                "can't splice here" st;
             if is_sym "unquote" hd then
               do _, _ <- require (VList l) (Nat.eqb (length l) 2) wrong_length st;
               Ret (nth 1 l VNone) st
             else
               match hd with
               | VList (hh :: ht) =>
                   if is_sym "unquote-splicing" hh then
                     do _, _ <- require hd (Nat.eqb (length (hh :: ht)) 2) wrong_length st;
                     do rest, _ <- on_list tl;
                     Ret (VList [_append; nth 1 (hh :: ht) VNone; rest]) st
                   else
                     do h, _ <- expand_quasiquote hd st;
                     do rest, _ <- on_list tl;
                     Ret (VList [_cons; h; rest]) st
               | _ =>
                   do h, _ <- expand_quasiquote hd st;
                   do rest, _ <- on_list tl;
                   Ret (VList [_cons; h; rest]) st
               end
         end) l
  | _ => Ret (VList [_quote; x]) st
  end.

(** [len(clause)] in the check of a [cond] clause. *)
Definition py_len (x : value) : option nat :=
  match x with
  | VList l => Some (length l)
  | _ => String.length <$> text_of x
  end.

(** The checks of [let] on its binding list: every binding is a list of
    two elements whose first is a symbol. *)
Definition is_binding (b : value) : bool :=
  match b with
  | VList [v; _] => is_Symbol v
  | _ => false
  end.

Definition unpack_error : exn := ValueError "unpack".

(** The types of the three functions of the interpreter once their
    budgets are fixed. *)
Definition evaluator : Type := value -> nat -> state -> outcome state value.
Definition expander : Type := value -> bool -> state -> outcome state value.
Definition caller : Type := value -> list value -> state -> outcome state value.
Definition finder : Type := nat -> string -> state -> outcome state nat.

(** The [for clause in ...] loop of the [cond] case of [eval]: the form
    to go on with when the test of a clause is true, after the
    expressions before the last one of the clause are evaluated. *)
Fixpoint cond_clauses (ev : evaluator) (env : nat) (cs : list value) (st : state)
  : outcome state (option value) :=
  match cs with
  | [] => Ret None st
  | VList [] :: _ => Raise IndexError st
  | VList (test :: body) :: rest =>
      do v, st1 <- ev test env st;
      if truthy v then
        do _, st2 <- forM (fun e => ev e env) (middle body) st1;
        Ret (Some (last_of test body)) st2
      else cond_clauses ev env rest st1
  | (VStr _ | VSym _ | VEof) :: _ => Stop (Unmodelled "indexing of text")
  | _ :: _ => Raise (TypeError "not subscriptable") st
  end.

(** One turn of the [while True] loop of [eval] on the form [x] in the
    environment [env]. The functions the turn calls are parameters:
    [fnd] is [Env.find], [ev] a recursive call of [eval], [cl] the call
    of a native procedure, and [again] the next turn of the loop, with
    the new [x] and [env]. *)
Definition eval_turn (fnd : finder) (ev : evaluator) (cl : caller) (again : evaluator)
    (x : value) (env : nat) (st : state) : outcome state value :=
  if is_Symbol x then                       (* variable reference *)
    match py_str x with
    | Some name => do e, st1 <- fnd env name st; get e name st1
    | None => Stop (Unmodelled "str")
    end
  else
    match x with
    | VList [] => Raise IndexError st       (* x[0] *)
    | VList (hd :: tl) =>
        if is_sym "quote" hd then           (* (quote exp) *)
          match tl with
          | [exp] => Ret exp st
          | _ => Raise unpack_error st
          end
        else if is_sym "if" hd then         (* (if test conseq alt) *)
          match tl with
          | [test; conseq; alt] =>
              do v, st1 <- ev test env st;
              again (if truthy v then conseq else alt) env st1
          | _ => Raise unpack_error st
          end
        else if is_sym "cond" hd then       (* (cond (test code)...) *)
          do r, st1 <- cond_clauses ev env tl st;
          again (match r with Some x' => x' | None => x end) env st1
        else if is_sym "set!" hd then       (* (set! var exp) *)
          match tl with
          | [var; exp] =>
              do v, st1 <- ev exp env st;
              match py_str var with
              | Some name => do e, st2 <- fnd env name st1; set e name v st2
              | None => Stop (Unmodelled "str")
              end
          | _ => Raise unpack_error st
          end
        else if is_sym "define" hd then     (* (define var exp) *)
          match tl with
          | [var; exp] =>
              do v, st1 <- ev exp env st;
              match py_str var with
              | Some name => set env name v st1
              | None => Stop (Unmodelled "str")
              end
          | _ => Raise unpack_error st
          end
        else if is_sym "lambda" hd then     (* (lambda vars exp) *)
          match tl with
          | [vars; exp] => Ret (VProcedure vars exp env) st
          | _ => Raise unpack_error st
          end
        else if is_sym "begin" hd then      (* (begin exp+) *)
          do _, st1 <- forM (fun e => ev e env) (middle tl) st;
          again (last_of hd tl) env st1
        else                                (* (proc exp ...) *)
          do exps, st1 <- mapM (fun e => ev e env) (hd :: tl) st;
          match exps with
          | VProcedure parms exp penv :: args =>
              do e, st2 <- Env_init parms args (Some penv) st1;
              again exp e st2
          | proc :: args => cl proc args st1
          | [] => Stop (Unmodelled "empty application")
          end
    | _ => Ret x st                         (* constant literal *)
    end.

(** The body of [expand]; [ex], [ev] and [cl] are the calls of
    [expand], of [eval] and of a macro procedure. *)
Definition expand_form (ex : expander) (ev : evaluator) (cl : caller)
    (x : value) (toplevel : bool) (st : state) : outcome state value :=
  match x with
  | VList [] => Raise (SyntaxError (Some x) "Empty list can't be expanded") st
  | VList (hd :: tl) =>
      let n := length (hd :: tl) in
      if is_sym "quote" hd then
        do _, st <- require x (Nat.eqb n 2) wrong_length st; Ret x st
      else if is_sym "if" hd then
        let x' := if Nat.eqb n 3 then hd :: tl ++ [VNone] else hd :: tl in
        do _, st <- require (VList x') (Nat.eqb (length x') 4) wrong_length st;
        do l, st <- mapM (fun xi => ex xi false) x' st; Ret (VList l) st
      else if is_sym "cond" hd then
        do _, st <- require x (Nat.ltb 1 n) wrong_length st;
        do _, st <-
          forM (fun clause st =>
                  match py_len clause with
                  | Some k => require clause (Nat.leb 2 k) wrong_length st
                  | None => Raise (TypeError "no len") st
                  end) tl st;
        do l, st <- mapM (fun xi => ex xi false) (hd :: tl) st; Ret (VList l) st
      else if is_sym "set!" hd then
        do _, st <- require x (Nat.eqb n 3) wrong_length st;
        let var := nth 1 (hd :: tl) VNone in
        do _, st <- require x (is_Symbol var) "can set! only a symbol" st;
        do e, st <- ex (nth 2 (hd :: tl) VNone) false st;
        Ret (VList [_set; var; e]) st
      else if (is_sym "define" hd || is_sym "define-macro" hd)%bool then
        do _, st <- require x (Nat.leb 3 n) wrong_length st;
        let v := nth 1 (hd :: tl) VNone in
        let body := skipn 2 (hd :: tl) in
        match v with
        | VList (f :: args) =>            (* (define (f args) body) *)
            ex (VList [hd; f; VList (_lambda :: VList args :: body)]) false st
        | _ =>
            do _, st <- require x (Nat.eqb n 3) wrong_length st;
            do _, st <- require x (is_Symbol v) "can define only a symbol" st;
            do exp, st <- ex (nth 2 (hd :: tl) VNone) false st;
            if is_sym "define-macro" hd then
              do _, st <- require x toplevel "define-macro only allowed at top level" st;
              do proc, st <- ev exp global_env st;
              do _, st <- require x (is_callable proc) "macro must be a procedure" st;
              match py_str v with
              | Some name =>
                  Ret VNone {| envs := envs st;
                               macro_table := <[name := proc]> (macro_table st);
                               balls := balls st; files := files st |}
              | None => Stop (Unmodelled "str")
              end
            else Ret (VList [_define; v; exp]) st
        end
      else if is_sym "begin" hd then
        if Nat.eqb n 1 then Ret VNone st
        else do l, st <- mapM (fun xi => ex xi toplevel) (hd :: tl) st;
             Ret (VList l) st
      else if is_sym "lambda" hd then
        do _, st <- require x (Nat.leb 3 n) wrong_length st;
        let vars := nth 1 (hd :: tl) VNone in
        let body := skipn 2 (hd :: tl) in
        do _, st <- require x
                      (match vars with
                       | VList vs => forallb is_Symbol vs
                       | _ => is_Symbol vars
                       end) "illegal lambda argument list" st;
        let exp := match body with [e] => e | _ => VList (_begin :: body) end in
        do e, st <- ex exp false st;
        Ret (VList [_lambda; vars; e]) st
      else if is_sym "quasiquote" hd then
        do _, st <- require x (Nat.eqb n 2) wrong_length st;
        expand_quasiquote (nth 1 (hd :: tl) VNone) st
      else
        match (if is_Symbol hd then name ← py_str hd; macro_table st !! name else None) with
        | Some m =>                       (* (m arg...) *)
            do r, st <- cl m tl st; ex r toplevel st
        | None =>                         (* (f arg...) *)
            do l, st <- mapM (fun xi => ex xi false) (hd :: tl) st;
            Ret (VList l) st
        end
  | _ => Ret x st                         (* constant *)
  end.

(** [let], the one entry of the macro table made in Python. *)
Definition let_macro (ex : expander) (args : list value) (st : state)
  : outcome state value :=
  let x := VList (_let :: args) in
  do _, st <- require x (Nat.ltb 1 (length args)) wrong_length st;
  let bindings := nth 0 args VNone in
  let body := skipn 1 args in
  match bindings with
  | VList bs =>
      do _, st <- require x (forallb is_binding bs) "illegal binding list" st;
      match bs with
      | [] => Raise unpack_error st
      | _ =>
          let vars := map (fun b => match b with VList (v :: _) => v | _ => VNone end) bs in
          let vals := map (fun b => match b with VList [_; e] => e | _ => VNone end) bs in
          do body', st <- mapM (fun xi => ex xi false) body st;
          do vals', st <- mapM (fun xi => ex xi false) vals st;
          Ret (VList (VList (_lambda :: VList vars :: body') :: vals')) st
      end
  | VStr t | VSym t =>
      do _, st <- require x (String.eqb t "") "illegal binding list" st;
      Raise unpack_error st
  | VEof => Raise (SyntaxError (Some x) "illegal binding list") st
  | _ => Raise (TypeError "not iterable") st
  end.

(** [callcc(proc)]: [cl] is the call [proc(throw)]. *)
Definition callcc (cl : caller) (proc : value) (st : state) : outcome state value :=
  let ball := balls st in
  let st0 := {| envs := envs st; macro_table := macro_table st; balls := S ball; files := files st |} in
  match cl proc [VPrim (PThrow ball)] st0 with
  | Raise (RuntimeWarning w retval) st1 =>
      if Nat.eqb w ball then Ret retval st1
      else Raise (RuntimeWarning w retval) st1
  | r => r
  end.

(** [repl(None, inport, None)], as [load] calls it: no prompt and no
    output. Every expression of the port is read, expanded at top level
    and evaluated in the global environment; an exception of any of the
    three steps is caught by [except Exception] (it is printed, which the
    model leaves out) and the loop goes on with what the port and the
    store have become. The loop ends at the end of the file. Every turn
    that does not end the loop takes at least one token from the port:
    [turns] is one more than the number of characters of the port. *)
Fixpoint repl (ex : expander) (ev : evaluator) (turns : nat) (p : Reader.InPort)
    (st : state) : outcome state unit :=
  match turns with
  | O => Stop OutOfSteps
  | S n =>
      match Parser.read (Parser.read_fuel p) p with
      | Stop r => Stop r
      | Raise _ p' => repl ex ev n p' st
      | Ret x p' =>
          match ex x true st with
          | Stop r => Stop r
          | Raise _ st1 => repl ex ev n p' st1
          | Ret x' st1 =>
              match x' with
              | VEof => Ret () st1            (* if x is eof_object: return *)
              | _ =>
                  match ev x' global_env st1 with
                  | Stop r => Stop r
                  | Raise _ st2 => repl ex ev n p' st2
                  | Ret _ st2 => repl ex ev n p' st2
                  end
              end
          end
      end
  end.

(** [load(filename)]. *)
Definition load (ex : expander) (ev : evaluator) (args : list value) (st : state)
  : outcome state value :=
  match args with
  | [fn] =>
      match fn with
      | VHost _ => Stop (Unmodelled "host object")
      | _ =>
          match text_of fn with
          | None => Raise (AttributeError "endswith") st
          | Some name =>
              let filename :=
                if PyStr.ends_with ".scm" name then name else (name ++ ".scm")%string in
              match files st !! filename with
              | None => Raise (OSError filename) st
              | Some text =>
                  do _, st1 <- repl ex ev (S (String.length text)) (Reader.open_text text) st;
                  Ret VNone st1
              end
          end
      end
  | _ => Raise (TypeError "arguments") st
  end.

(** The call of a Python callable on a list of arguments. *)
Definition call_proc (ex : expander) (ev : evaluator) (cl : caller)
    (proc : value) (args : list value) (st : state) : outcome state value :=
  match proc with
  | VProcedure parms exp penv =>          (* Procedure.__call__ *)
      do e, st1 <- Env_init parms args (Some penv) st;
      ev exp e st1
  | VPrim PApply =>                       (* apply: proc called on the elements of l *)
      match args with
      | [p; VList l] => cl p l st
      | [_; (VStr _ | VSym _ | VEof)] => Stop (Unmodelled "text as an argument list")
      | [_; _] => Raise (TypeError "not iterable") st
      | _ => Raise (TypeError "arguments") st
      end
  | VPrim PEval =>                        (* lambda x: eval(expand(x)) *)
      match args with
      | [x] => do v, st1 <- ex x false st; ev v global_env st1
      | _ => Raise (TypeError "arguments") st
      end
  | VPrim PCallcc =>
      match args with
      | [p] => callcc cl p st
      | _ => Raise (TypeError "arguments") st
      end
  | VPrim PLet => let_macro ex args st
  | VPrim PLoad => load ex ev args st
  | VPrim p => native p args st
  | _ => Raise (TypeError "not callable") st
  end.

(** [eval], [expand] and the call of a callable.

    [d] bounds the depth of the Python call stack: every call of one of
    the three functions (and of [Env.find]) is made with a smaller [d],
    and [Stop StackOverflow] is the result when it is used up. [s]
    bounds the turns of the [while True] loop of [eval]: a turn passes
    from [S s'] to [s'] and stays at the same [d]. *)
Fixpoint eval (d : nat) {struct d} : nat -> evaluator :=
  match d with
  | O => fun _ _ _ _ => Stop StackOverflow
  | S d' =>
      fix loop (s : nat) {struct s} : evaluator :=
        match s with
        | O => fun _ _ _ => Stop OutOfSteps
        | S s' =>
            fun x env st =>
              eval_turn (find d') (eval d' s') (call d' s') (loop s') x env st
        end
  end
with expand (d : nat) (s : nat) {struct d} : expander :=
  match d with
  | O => fun _ _ _ => Stop StackOverflow
  | S d' =>
      fun x toplevel st =>
        expand_form (expand d' s) (eval d' s) (call d' s) x toplevel st
  end
with call (d : nat) (s : nat) {struct d} : caller :=
  match d with
  | O => fun _ _ _ => Stop StackOverflow
  | S d' =>
      fun proc args st =>
        call_proc (expand d' s) (eval d' s) (call d' s) proc args st
  end.

End Interp.

(** ** The global environment and the start of the program *)

Module Boot.
Import PyStr Reader Parser Py Environment Interp.

(** The public names of the host's [math] module, which
    [mod_vars(math)] binds first. The module belongs to the host, not to
    the program: its functions are [PHost] procedures and its two
    constants are host objects. *)
Definition math_vars : list (string * value) :=
  [("e", VHost "math.e"); ("pi", VHost "math.pi")]
  ++ map (fun n => (n, VPrim (PHost ("math." ++ n))))
       ["acos"; "asin"; "atan"; "atan2"; "ceil"; "copysign"; "cos"; "degrees";
        "exp"; "fabs"; "floor"; "fmod"; "frexp"; "isfinite"; "isinf"; "isnan";
        "ldexp"; "log"; "modf"; "pow"; "radians"; "sin"; "sqrt"; "tan"; "trunc"].

(** The dictionary of [add_globals]. *)
Definition standard_procedures : list (string * value) :=
  [("+", VPrim PAdd); ("-", VPrim PSub); ("*", VPrim PMul);
   ("/", VPrim (PHost "op.truediv")); ("not", VPrim PNot);
   (">", VPrim PGt); ("<", VPrim PLt); (">=", VPrim PGe); ("<=", VPrim PLe);
   ("=", VPrim PEq);
   ("equal?", VPrim PEq); ("eq?", VPrim (PHost "op.is_")); ("length", VPrim PLen);
   ("cons", VPrim PCons);
   ("car", VPrim PCar); ("cdr", VPrim PCdr); ("append", VPrim PAdd);
   ("list", VPrim PList); ("list?", VPrim PIsList);
   ("null?", VPrim PIsNull); ("symbol?", VPrim PIsSymbol);
   ("boolean?", VPrim PIsBoolean); ("pair?", VPrim PIsPair);
   ("port?", VPrim (PHost "port?")); ("apply", VPrim PApply);
   ("eval", VPrim PEval); ("load", VPrim PLoad); ("call/cc", VPrim PCallcc);
   ("open-input-file", VPrim (PHost "open"));
   ("close-input-port", VPrim (PHost "close-input-port"));
   ("open-output-file", VPrim (PHost "open-output-file"));
   ("close-output-port", VPrim (PHost "close-output-port"));
   ("eof-object?", VPrim PIsEof); ("read-char", VPrim (PHost "readchar"));
   ("read", VPrim (PHost "read")); ("write", VPrim (PHost "write"));
   ("display", VPrim (PHost "display")); ("newline", VPrim (PHost "newline"))].

(** The dictionary [hardware_defs]. *)
Definition hardware_defs : list (string * value) :=
  [("board-pins", VPrim (PHost "get_board_pins"));
   ("board", VPrim (PHost "get_pin"));
   ("digital-pin", VPrim (PHost "make_digital_pin"));
   ("**INPUT**", VHost "digitalio.Direction.INPUT");
   ("**OUTPUT**", VHost "digitalio.Direction.OUTPUT");
   ("**PULLUP**", VHost "digitalio.Pull.UP");
   ("**PULLDOWN**", VHost "digitalio.Pull.DOWN");
   ("pin-value", VPrim (PHost "get_pin_value"));
   ("pin-value!", VPrim (PHost "set_pin_value"));
   ("analog-pin", VPrim (PHost "make_analog_pin"));
   ("i2c", VPrim (PHost "i2c_bus"));
   ("i2c-device", VPrim (PHost "i2c_device"));
   ("i2c-read", VPrim (PHost "i2c_read"));
   ("i2c-write", VPrim (PHost "i2c_write"));
   ("sleep", VPrim (PHost "time.sleep"))].

(** [env.storage.update(pairs)]. *)
Definition storage_update (env : nat) (pairs : list (string * value)) (st : state)
  : outcome state unit :=
  match envs st !! env with
  | None => Stop (Unmodelled "no such environment")
  | Some e =>
      Ret () {| envs := <[env := mkEnv (update (storage e) pairs) (outer e)]> (envs st);
                macro_table := macro_table st; balls := balls st; files := files st |}
  end.

(** [add_globals(self)]. *)
Definition add_globals (self : nat) (st : state) : outcome state nat :=
  do _, st <- storage_update self math_vars st;
  do _, st <- storage_update self standard_procedures st;
  Ret self st.

(** [parse(text)] for a text: read one expression and expand it at top
    level. *)
Definition parse (d s : nat) (text : string) (st : state) : outcome state value :=
  match read_text text with
  | Ret x _ => expand d s x true st
  | Raise e _ => Raise e st
  | Stop r => Stop r
  end.

(** The text of the core builtins. *)
Definition builtin_macros : string :=
"(begin

(define-macro and (lambda args
   (if (null? args) #t
       (if (= (length args) 1) (car args)
           `(if ,(car args) (and ,@(cdr args)) #f)))))

(define-macro or (lambda args
   (if (null? args) #f
       (if (= (length args) 1) (car args)
           `(if (not ,(car args)) (or ,@(cdr args)) #t)))))

(define-macro when (lambda args
  `(if ,(car args) (begin ,@(cdr args)))))

(define-macro unless (lambda args
  `(if (not ,(car args)) (begin ,@(cdr args)))))

;; More macros can also go here

)".

(** The statements of the module, in their order: the global
    environment, the macro table with [let], the core builtins, the
    hardware bindings. *)
Definition load_module (d s : nat) : outcome state value :=
  let st := {| envs := []; macro_table := ∅; balls := 0; files := ∅ |} in
  do g, st <- Env_init (VList []) [] None st;
  do _, st <- add_globals g st;
  let st := {| envs := envs st; macro_table := {[ "let" := VPrim PLet ]};
               balls := balls st; files := files st |} in
  do x, st <- parse d s builtin_macros st;
  do v, st <- eval d s x global_env st;
  do _, st <- storage_update global_env hardware_defs st;
  Ret v st.

End Boot.

(** ** Programs and their answers *)

Module Run.
Import Reader Parser Environment Interp Boot.

(** What a run gives back, without the store. *)
Inductive answer : Type :=
| Value (v : value)
| Error (e : exn)
| NoAnswer (r : abort).

Definition answer_of {S : Type} (r : outcome S value) : answer :=
  match r with
  | Ret v _ => Value v
  | Raise e _ => Error e
  | Stop r => NoAnswer r
  end.

Definition state_of (r : outcome state value) (default : state) : state :=
  match r with
  | Ret _ st | Raise _ st => st
  | Stop _ => default
  end.

(** [eval(parse(text))]: what the read-eval-print loop does with one
    expression. *)
Definition run (d s : nat) (text : string) (st : state) : outcome state value :=
  do x, st <- parse d s text st; eval d s x global_env st.

(** The store once the module is loaded. *)
Definition initial_state : state :=
  Eval vm_compute in
    state_of (load_module 12 12) {| envs := []; macro_table := ∅; balls := 0; files := ∅ |}.

End Run.

(** ** Notions used in the statements *)

Module Spec.
Import PyStr Reader Atom Parser Py Environment Interp Boot Run.

(** A run that the model cut short: one of its two budgets ran out. *)
Definition out_of_budget {S A} (r : outcome S A) : Prop :=
  r = Stop OutOfSteps \/ r = Stop StackOverflow.

(** [r'] is the result [r], or [r] was cut short. *)
Definition approx {S A} (r r' : outcome S A) : Prop := out_of_budget r \/ r = r'.

(** A text between double quotes. *)
Definition quoted (body : string) : string := String dquote (body ++ String dquote "").

(** The letters [a] and [b] with a tab between them. *)
Definition a_tab_b : string := String "a" (String tab "b").

(** The four characters [a], backslash, double quote, [b]: what the
    reader makes of the string literal that holds an escaped quote. *)
Definition a_escaped_quote_b : string := String "a" (String backslash (String dquote "b")).

(** The programs of the testable properties. *)
Definition quote_abc : string := "(quote (a b c))".
Definition quasiquote_1234 : string := "`(1 ,(+ 1 1) ,@(list 3 4))".
Definition callcc_42 : string := "(call/cc (lambda (k) (+ 1 (k 42))))".
Definition and_123 : string := "(and 1 2 3)".

(** The environments from [env] outwards, innermost first: [env], its
    outer environment, and so on up to the one that has no outer. *)
Inductive Scopes (st : state) : nat -> list nat -> Prop :=
| Scopes_last env e :
    envs st !! env = Some e -> outer e = None -> Scopes st env [env]
| Scopes_next env e o l :
    envs st !! env = Some e -> outer e = Some o -> Scopes st o l ->
    Scopes st env (env :: l).

(** Whether the dictionary of the environment at [env] has the key [name]. *)
Definition binds (st : state) (name : string) (env : nat) : bool :=
  match envs st !! env with
  | Some e => match storage e !! name with Some _ => true | None => false end
  | None => false
  end.

(** The store with one more entry in the macro table. *)
Definition with_macro (name : string) (proc : value) (st : state) : state :=
  {| envs := envs st; macro_table := <[name := proc]> (macro_table st); balls := balls st; files := files st |}.

(** The store with one more environment. *)
Definition with_env (e : Env) (st : state) : state :=
  {| envs := envs st ++ [e]; macro_table := macro_table st; balls := balls st; files := files st |}.

(** The store after [callcc] has made its [ball]. *)
Definition with_ball (st : state) : state :=
  {| envs := envs st; macro_table := macro_table st; balls := S (balls st); files := files st |}.

(** The form [(define-macro v e)]. *)
Definition define_macro_form (v : string) (e : value) : value :=
  VList [_definemacro; VSym v; e].

Definition not_top_level : string := "define-macro only allowed at top level".

(** The heads that [eval] treats as special forms. *)
Definition is_special (hd : value) : bool :=
  (is_sym "quote" hd || is_sym "if" hd || is_sym "cond" hd || is_sym "set!" hd
   || is_sym "define" hd || is_sym "lambda" hd || is_sym "begin" hd)%bool.

(** Programs with escapes. *)
Definition callcc_nested : string :=
  "(call/cc (lambda (k1) (+ 1 (call/cc (lambda (k2) (+ 10 (k1 42)))))))".
Definition callcc_inner : string :=
  "(+ 1 (call/cc (lambda (k) (+ 10 (k 5)))))".
Definition callcc_through_apply : string :=
  "(call/cc (lambda (k) (+ 1 (apply k (list 42)))))".

(** A macro definition, as a form and as a text. *)
Definition constant_macro : value := VList [_lambda; VSym "args"; VInt 1].

(** A counting loop: the call of [loop] is the last thing its body does. *)
Definition loop_definition : string :=
  "(define loop (lambda (n) (if (= n 0) 0 (loop (- n 1)))))".

Definition loop_body : value :=
  VList [_if; VList [VSym "="; VSym "n"; VInt 0]; VInt 0;
         VList [VSym "loop"; VList [VSym "-"; VSym "n"; VInt 1]]].

Definition loop_proc : value := VProcedure (VList [VSym "n"]) loop_body global_env.

(** The store after the definition of [loop] is evaluated. *)
Definition loop_state : state :=
  Eval vm_compute in state_of (run 8 8 loop_definition initial_state) initial_state.

(** A store in which the global environment binds [loop] to the counting
    loop and [=] and [-] to the procedures of [add_globals]. *)
Definition has_loop (st : state) : Prop :=
  exists G, envs st !! global_env = Some G
            /\ storage G !! "loop" = Some loop_proc
            /\ storage G !! "=" = Some (VPrim PEq)
            /\ storage G !! "-" = Some (VPrim PSub).

(** The same count with a call that is not the last thing the body does. *)
Definition count_definition : string :=
  "(define count (lambda (n) (if (= n 0) 0 (+ 1 (count (- n 1))))))".

Definition count_state : state :=
  Eval vm_compute in state_of (run 8 8 count_definition initial_state) initial_state.

(** *** Expressions without effects

    What an expression evaluates to when it is built from literals,
    variables, [quote], [if] and calls of native procedures: such an
    evaluation reads the environments and neither makes nor changes one.
    [L] is the dictionary of the current environment and [G] is a table of
    bindings of its outer, global environment. [None] when the expression
    is of another kind, or an evaluation raises, or [fuel] is too small. *)

(** The procedures [call] hands to [native]. *)
Definition is_native (p : prim) : bool :=
  match p with
  | PApply | PEval | PCallcc | PLet | PLoad => false
  | _ => true
  end.

Fixpoint assoc (name : string) (table : list (string * value)) : option value :=
  match table with
  | [] => None
  | (k, v) :: r => if String.eqb k name then Some v else assoc name r
  end.

Fixpoint pure_values (ev : value -> option value) (l : list value) : option (list value) :=
  match l with
  | [] => Some []
  | x :: r => v ← ev x; vs ← pure_values ev r; Some (v :: vs)
  end.

Fixpoint pure_eval (fuel : nat) (L : gmap string value) (G : list (string * value))
    (x : value) : option value :=
  match fuel with
  | O => None
  | S f =>
      match x with
      | VSym name =>
          match L !! name with
          | Some v => Some v
          | None => assoc name G
          end
      | VEof => None
      | VList [] => None
      | VList (hd :: tl) =>
          if is_sym "quote" hd then
            match tl with
            | [e] => Some e
            | _ => None
            end
          else if is_sym "if" hd then
            match tl with
            | [test; conseq; alt] =>
                v ← pure_eval f L G test;
                pure_eval f L G (if truthy v then conseq else alt)
            | _ => None
            end
          else if is_special hd then None
          else
            vs ← pure_values (pure_eval f L G) (hd :: tl);
            match vs with
            | VPrim p :: args =>
                if is_native p then
                  match native_result p args () with
                  | Ret v _ => Some v
                  | _ => None
                  end
                else None
            | _ => None
            end
      | _ => Some x
      end
  end.

(** The global environment of [st] has the bindings of the table [G]. *)
Definition global_has (G : list (string * value)) (st : state) : Prop :=
  exists Ge, envs st !! global_env = Some Ge
             /\ Forall (fun kv => storage Ge !! kv.1 = Some kv.2) G.

(** The procedures the builtin macros use. *)
Definition core_bindings : list (string * value) :=
  [("null?", VPrim PIsNull); ("=", VPrim PEq); ("length", VPrim PLen);
   ("car", VPrim PCar); ("cdr", VPrim PCdr); ("cons", VPrim PCons);
   ("append", VPrim PAdd); ("not", VPrim PNot)].

(** The macro procedures of [and] and [or], as the module leaves them in
    the macro table. *)
Definition and_macro : value :=
  Eval vm_compute in default VNone (macro_table initial_state !! "and").
Definition or_macro : value :=
  Eval vm_compute in default VNone (macro_table initial_state !! "or").

(** A store in which [and] and [or] are the builtin macros, [not] is no
    macro, and the global environment binds the procedures they use. *)
Definition macros_loaded (st : state) : Prop :=
  global_has core_bindings st
  /\ macro_table st !! "and" = Some and_macro
  /\ macro_table st !! "or" = Some or_macro
  /\ macro_table st !! "not" = None.

(** Literals: constants the reader makes, other than symbols. *)
Definition is_literal (c : value) : bool :=
  match c with
  | VNone | VBool _ | VInt _ | VStr _ => true
  | _ => false
  end.

(** The expansions of [(or c ...)] and [(and c ...)]. *)
Fixpoint or_form (cs : list value) : value :=
  match cs with
  | [] => VBool false
  | [c] => c
  | c :: r => VList [_if; VList [VSym "not"; c]; or_form r; VBool true]
  end.

Fixpoint and_form (cs : list value) : value :=
  match cs with
  | [] => VBool true
  | [c] => c
  | c :: r => VList [_if; c; and_form r; VBool false]
  end.

(** The values of the two forms on literals. *)
Fixpoint or_value (cs : list value) : value :=
  match cs with
  | [] => VBool false
  | [c] => c
  | c :: r => if truthy c then VBool true else or_value r
  end.

Fixpoint and_value (cs : list value) : value :=
  match cs with
  | [] => VBool true
  | [c] => c
  | c :: r => if truthy c then and_value r else VBool false
  end.

(** The environment at [a] has the dictionary [L], and it is the global
    environment or its outer environment is the global one. *)
Definition in_frame (L : gmap string value) (st : state) (a : nat) : Prop :=
  exists e, envs st !! a = Some e /\ storage e = L
            /\ (outer e = Some global_env \/ a = global_env).

(** The bodies of the two macro procedures. *)
Definition body_of (proc : value) : value :=
  match proc with
  | VProcedure _ b _ => b
  | _ => VNone
  end.

(** The last alternative of the body of a macro: its quasiquote form,
    expanded. *)
Definition template_of (proc : value) : value :=
  match body_of proc with
  | VList [_; _; _; VList [_; _; _; q]] => q
  | _ => VNone
  end.

(** [eval(expand(x, toplevel=True))]. *)
Definition expand_eval (d s : nat) (x : value) (st : state) : outcome state value :=
  do x', st' <- expand d s x true st; eval d s x' global_env st'.

(** The tests of the clauses [cs], evaluated in their order from the
    store [st], all give a value that counts as false, and leave the
    store [st']. *)
Fixpoint tests_false (ev : evaluator) (env : nat) (cs : list value) (st st' : state)
  : Prop :=
  match cs with
  | [] => st' = st
  | VList (test :: _) :: rest =>
      exists v st1, ev test env st = Ret v st1 /\ truthy v = false
                    /\ tests_false ev env rest st1 st'
  | _ => False
  end.

(** Whether a run ends with a value. *)
Definition returns {S A} (r : outcome S A) : bool :=
  match r with
  | Ret _ _ => true
  | _ => false
  end.

(** Every character of a text satisfies [p]. *)
Fixpoint all_chars (p : ascii -> bool) (s : string) : bool :=
  match s with
  | EmptyString => true
  | String c r => (p c && all_chars p r)%bool
  end.

Definition not_dquote (c : ascii) : bool := negb (Ascii.eqb c dquote).

Definition not_newline (c : ascii) : bool := negb (Ascii.eqb c newline).
Definition raw_char (c : ascii) : bool := (negb (is_delim c) && negb (is_space c))%bool.
Definition digit_or_minus (c : ascii) : bool := (is_digit c || Ascii.eqb c "-")%bool.

Definition not_delim (c : ascii) : bool := negb (is_delim c).

(** A text that is empty or starts with a delimiter. *)
Definition starts_delim (r : string) : bool :=
  match r with
  | EmptyString => true
  | String c _ => is_delim c
  end.

(** What may follow a token on a line: no newline, no white space at the
    end, and a delimiter first. *)
Definition tail_ok (r : string) : Prop :=
  all_chars not_newline r = true /\ rstrip r = r /\ starts_delim r = true.

(** The contents of a string literal that has no double quote: every
    backslash is followed by a character. *)
Fixpoint plain_string (s : string) : bool :=
  match s with
  | EmptyString => true
  | String c r =>
      if Ascii.eqb c dquote then false
      else if Ascii.eqb c backslash then
        match r with
        | String d r' =>
            (negb (Ascii.eqb d newline) && negb (Ascii.eqb d dquote) && plain_string r')%bool
        | EmptyString => false
        end
      else (negb (Ascii.eqb c newline) && plain_string r)%bool
  end.

(** The number of tokens of the text of a value. *)
Fixpoint size (v : value) : nat :=
  match v with
  | VList l =>
      S (S ((fix sum (l : list value) : nat :=
               match l with
               | [] => O
               | x :: r => (size x + sum r)%nat
               end) l))
  | _ => 1%nat
  end.

(** The names of the symbols that [atom] makes of a token and that are
    printed as one token: no delimiter and no white space, not one of the
    two booleans and not a number. *)
Definition is_name (s : string) : bool :=
  (negb (String.eqb s "") && all_chars raw_char s
   && negb (String.eqb s "#t") && negb (String.eqb s "#f")
   && match parse_int s with None => true | Some _ => false end
   && negb (is_float s))%bool.

(** The values the printer and the reader agree on: booleans, integers,
    such symbols, strings without a double quote, and lists of them. *)
Fixpoint readable (v : value) : bool :=
  match v with
  | VBool _ | VInt _ => true
  | VStr s => plain_string s
  | VSym s => is_name s
  | VList l =>
      (fix all (l : list value) : bool :=
         match l with
         | [] => true
         | x :: r => (readable x && all r)%bool
         end) l
  | _ => false
  end.

(** [map(to_string, l)]. *)
Fixpoint to_strings (l : list value) : option (list string) :=
  match l with
  | [] => Some []
  | v :: r => s ← to_string v; ss ← to_strings r; Some (s :: ss)
  end.

Fixpoint sizes (l : list value) : nat :=
  match l with
  | [] => O
  | x :: r => (size x + sizes r)%nat
  end.

(** A text that a token can start and end: no newline, no white space at
    its two ends, and not empty. *)
Definition text_ok (t : string) : Prop :=
  all_chars not_newline t = true /\ rstrip t = t
  /\ exists c t', t = String c t' /\ is_space c = false.

(** The text [text] of the value [v] is read back as [v]: wherever it
    stands on a line, after at most one space and before a tail, the next
    token is its first token, and [read_ahead] gives [v] and leaves the
    tail. *)
Definition reads_back (v : value) (text : string) : Prop :=
  forall r f lead fuel,
    tail_ok r -> lead = EmptyString \/ lead = " " -> (size v <= fuel)%nat ->
    exists tok p',
      next_token {| file := f; line := lead ++ text ++ r |} = Some (Tok tok, p')
      /\ String.eqb tok ")" = false
      /\ read_ahead fuel (Tok tok) p' = Ret v {| file := f; line := r |}.

(** The environment that the call of a macro procedure on the argument
    forms [es] makes. *)
Definition args_frame (es : list value) : Env :=
  mkEnv {[ "args" := VList es ]} (Some global_env).

(** How the argument forms [es] of a use of [or] or of [and] are
    expanded, in the order of the program: from the store [st], with the
    builtin macros loaded in every store where a use of the macro is
    expanded, the forms expand to [es'] and leave the store [st']. The
    call of the macro procedure makes an environment before the first
    form of each use is expanded; the only form of a use with one
    argument is expanded with the flag [toplevel] of the use, the others
    below top level. *)
Inductive args_expand (d s : nat) : bool -> list value -> state -> list value -> state -> Prop :=
| args_expand_none t st :
    macros_loaded st ->
    args_expand d s t [] st [] (with_env (args_frame []) st)
| args_expand_one t e st e' st' :
    macros_loaded st ->
    expand d s e t (with_env (args_frame [e]) st) = Ret e' st' ->
    args_expand d s t [e] st [e'] st'
| args_expand_more t e1 e2 r st e1' st1 es' st2 :
    macros_loaded st ->
    expand d s e1 false (with_env (args_frame (e1 :: e2 :: r)) st) = Ret e1' st1 ->
    args_expand d s false (e2 :: r) st1 es' st2 ->
    args_expand d s t (e1 :: e2 :: r) st (e1' :: es') st2.

(** An argument of [or] before the last one evaluates to a true value:
    from the store [st] the forms [es] are evaluated in their order in
    the environment [env], those before it give false values, and its
    evaluation leaves the store [st']. In every store where a form is
    evaluated, [not] is the procedure of [add_globals]. *)
Inductive or_decides (d s : nat) (env : nat) : list value -> state -> state -> Prop :=
| or_decides_here e rest st v st1 :
    rest <> [] ->
    eval d s (VSym "not") env st = Ret (VPrim PNot) st ->
    eval d s e env st = Ret v st1 -> truthy v = true ->
    or_decides d s env (e :: rest) st st1
| or_decides_later e rest st v st1 st2 :
    eval d s (VSym "not") env st = Ret (VPrim PNot) st ->
    eval d s e env st = Ret v st1 -> truthy v = false ->
    or_decides d s env rest st1 st2 ->
    or_decides d s env (e :: rest) st st2.

(** The same for [and]: an argument before the last one evaluates to a
    false value, those before it to true values. *)
Inductive and_decides (d s : nat) (env : nat) : list value -> state -> state -> Prop :=
| and_decides_here e rest st v st1 :
    rest <> [] ->
    eval d s e env st = Ret v st1 -> truthy v = false ->
    and_decides d s env (e :: rest) st st1
| and_decides_later e rest st v st1 st2 :
    eval d s e env st = Ret v st1 -> truthy v = true ->
    and_decides d s env rest st1 st2 ->
    and_decides d s env (e :: rest) st st2.

(** The stores after [not], and after [car], is defined anew. *)
Definition not_rebound : state :=
  Eval vm_compute in
    state_of (run 8 8 "(define not (lambda (x) #t))" initial_state) initial_state.

Definition car_rebound : state :=
  Eval vm_compute in
    state_of (run 8 8 "(define car cdr)" initial_state) initial_state.

(** An evaluation by turns of the loop of [eval], all at the call depth
    [S d]: [turns d s0 n x env st r st'] when the form [x], in the
    environment [env] and the store [st], gives the value [r] and the
    store [st'] after [n] turns. A turn replaces the form by one of its
    parts that stands in tail position (a branch of an [if], the last
    expression of a clause of [cond] or of a [begin], the body of the
    closure that is applied, with its new environment); what a turn
    evaluates before that (a test, the expressions before the last one,
    the operator and the operands) returns with the call depth [d] and
    [s0] turns. The last turn is any evaluation that returns with depth
    [S d] and [S s0] turns. *)
Inductive turns (d s0 : nat) : nat -> value -> nat -> state -> value -> state -> Prop :=
| turns_return x env st r st' :
    eval (S d) (S s0) x env st = Ret r st' ->
    turns d s0 1 x env st r st'
| turns_if n test conseq alt env st v st1 r st2 :
    eval d s0 test env st = Ret v st1 ->
    turns d s0 n (if truthy v then conseq else alt) env st1 r st2 ->
    turns d s0 (S n) (VList [_if; test; conseq; alt]) env st r st2
| turns_cond n cs env st x' st1 r st2 :
    cond_clauses (eval d s0) env cs st = Ret (Some x') st1 ->
    turns d s0 n x' env st1 r st2 ->
    turns d s0 (S n) (VList (_cond :: cs)) env st r st2
| turns_begin n tl env st st1 r st2 :
    forM (fun e => eval d s0 e env) (middle tl) st = Ret () st1 ->
    turns d s0 n (last_of _begin tl) env st1 r st2 ->
    turns d s0 (S n) (VList (_begin :: tl)) env st r st2
| turns_apply n hd tl env st parms body penv args st1 e st2 r st3 :
    is_special hd = false ->
    mapM (fun x => eval d s0 x env) (hd :: tl) st
    = Ret (VProcedure parms body penv :: args) st1 ->
    Env_init parms args (Some penv) st1 = Ret e st2 ->
    turns d s0 n body e st2 r st3 ->
    turns d s0 (S n) (VList (hd :: tl)) env st r st3.

(** Counting loops whose call of themselves stands under other forms:
    in a clause of a [cond], and under a [begin] and an [if]. *)
Definition loop_call : value := VList [VSym "loop"; VList [VSym "-"; VSym "n"; VInt 1]].

Definition loop_cond_body : value :=
  VList [_cond; VList [VList [VSym "="; VSym "n"; VInt 0]; VInt 0];
                VList [VBool true; loop_call]].

Definition loop_begin_body : value :=
  VList [_begin; VSym "n";
         VList [_if; VList [VSym "="; VSym "n"; VInt 0]; VInt 0; loop_call]].

(** A store in which the global environment binds [loop] to the closure
    of one parameter [n] with the body [body], and [=] and [-] to the
    procedures of [add_globals]. *)
Definition has_loop_body (body : value) (st : state) : Prop :=
  exists G, envs st !! global_env = Some G
            /\ storage G !! "loop" = Some (VProcedure (VList [VSym "n"]) body global_env)
            /\ storage G !! "=" = Some (VPrim PEq)
            /\ storage G !! "-" = Some (VPrim PSub).

(** The environment of one call of the loop. *)
Definition count_frame (m : Z) : Env := mkEnv {[ "n" := VInt m ]} (Some global_env).

(** The stores after the definitions of the two loops are evaluated. *)
Definition loop_cond_state : state :=
  Eval vm_compute in
    state_of (run 8 8 "(define loop (lambda (n) (cond ((= n 0) 0) (#t (loop (- n 1))))))"
                initial_state) initial_state.

Definition loop_begin_state : state :=
  Eval vm_compute in
    state_of (run 8 8 "(define loop (lambda (n) (begin n (if (= n 0) 0 (loop (- n 1))))))"
                initial_state) initial_state.

(** [isa(proc, Procedure)]. *)
Definition is_Procedure (x : value) : bool :=
  match x with
  | VProcedure _ _ _ => true
  | _ => false
  end.

(** The escape procedure of the [callcc] call that made the ball [b] is
    invoked with the value [v] while a form is evaluated, or while a
    procedure is called. [escapes d s b v h x env st st'] when the
    evaluation of the form [x] in the environment [env] and the store
    [st] comes to that invocation, in the store [st']; what is pending
    then is the rest of the evaluation of [x]. [call_escapes] is the same
    for the call of a procedure on its arguments. The rules follow the
    places where [eval] and the native procedures evaluate a part of a
    form or call a procedure: a test, a branch, an expression of a
    [begin] or of a clause, the value of an assignment or definition, an
    operand, the body of a closure, the procedure that [apply] calls, the
    form that the procedure [eval] evaluates, the procedure that an inner
    [call/cc] calls (whose ball is another one). What is evaluated before
    the part that escapes returns, with the call depth [d] and [s] turns;
    [h] counts the nesting of the pending evaluations. *)
Inductive escapes (d s : nat) (b : nat) (v : value)
  : nat -> value -> nat -> state -> state -> Prop :=
| esc_if_test h test conseq alt env st st' :
    escapes d s b v h test env st st' ->
    escapes d s b v (S h) (VList [_if; test; conseq; alt]) env st st'
| esc_if_branch h test conseq alt env st t st1 st' :
    eval d s test env st = Ret t st1 ->
    escapes d s b v h (if truthy t then conseq else alt) env st1 st' ->
    escapes d s b v (S h) (VList [_if; test; conseq; alt]) env st st'
| esc_cond_test h pre test body post env st st1 st' :
    tests_false (eval d s) env pre st st1 ->
    escapes d s b v h test env st1 st' ->
    escapes d s b v (S h) (VList (_cond :: (pre ++ VList (test :: body) :: post)%list)) env st st'
| esc_cond_body h pre test bpre e bpost post env st st1 t st2 st3 st' :
    tests_false (eval d s) env pre st st1 ->
    eval d s test env st1 = Ret t st2 -> truthy t = true ->
    bpost <> [] ->
    forM (fun x => eval d s x env) bpre st2 = Ret () st3 ->
    escapes d s b v h e env st3 st' ->
    escapes d s b v (S h)
      (VList (_cond :: (pre ++ VList (test :: (bpre ++ e :: bpost)%list) :: post)%list)) env st st'
| esc_cond_last h cs env st x' st1 st' :
    cond_clauses (eval d s) env cs st = Ret (Some x') st1 ->
    escapes d s b v h x' env st1 st' ->
    escapes d s b v (S h) (VList (_cond :: cs)) env st st'
| esc_set h var exp env st st' :
    escapes d s b v h exp env st st' ->
    escapes d s b v (S h) (VList [_set; var; exp]) env st st'
| esc_define h var exp env st st' :
    escapes d s b v h exp env st st' ->
    escapes d s b v (S h) (VList [_define; var; exp]) env st st'
| esc_begin_middle h pre e post env st st1 st' :
    post <> [] ->
    forM (fun x => eval d s x env) pre st = Ret () st1 ->
    escapes d s b v h e env st1 st' ->
    escapes d s b v (S h) (VList (_begin :: (pre ++ e :: post)%list)) env st st'
| esc_begin_last h tl env st st1 st' :
    forM (fun x => eval d s x env) (middle tl) st = Ret () st1 ->
    escapes d s b v h (last_of _begin tl) env st1 st' ->
    escapes d s b v (S h) (VList (_begin :: tl)) env st st'
| esc_operand h hd tl pre e post env st vs st1 st' :
    is_special hd = false -> hd :: tl = (pre ++ e :: post)%list ->
    mapM (fun x => eval d s x env) pre st = Ret vs st1 ->
    escapes d s b v h e env st1 st' ->
    escapes d s b v (S h) (VList (hd :: tl)) env st st'
| esc_body h hd tl env st parms body penv args st1 e st2 st' :
    is_special hd = false ->
    mapM (fun x => eval d s x env) (hd :: tl) st
    = Ret (VProcedure parms body penv :: args) st1 ->
    Env_init parms args (Some penv) st1 = Ret e st2 ->
    escapes d s b v h body e st2 st' ->
    escapes d s b v (S h) (VList (hd :: tl)) env st st'
| esc_native h hd tl env st proc args st1 st' :
    is_special hd = false ->
    mapM (fun x => eval d s x env) (hd :: tl) st = Ret (proc :: args) st1 ->
    is_Procedure proc = false ->
    call_escapes d s b v h proc args st1 st' ->
    escapes d s b v (S h) (VList (hd :: tl)) env st st'
with call_escapes (d s : nat) (b : nat) (v : value)
  : nat -> value -> list value -> state -> state -> Prop :=
| esc_throw h st :
    call_escapes d s b v (S h) (VPrim (PThrow b)) [v] st st
| esc_closure h parms body penv args st e st1 st' :
    Env_init parms args (Some penv) st = Ret e st1 ->
    escapes d s b v h body e st1 st' ->
    call_escapes d s b v (S h) (VProcedure parms body penv) args st st'
| esc_apply h p l st st' :
    call_escapes d s b v h p l st st' ->
    call_escapes d s b v (S h) (VPrim PApply) [p; VList l] st st'
| esc_eval h x st x' st1 st' :
    expand d s x false st = Ret x' st1 ->
    escapes d s b v h x' global_env st1 st' ->
    call_escapes d s b v (S h) (VPrim PEval) [x] st st'
| esc_callcc h p st st' :
    b <> balls st ->
    call_escapes d s b v h p [VPrim (PThrow (balls st))] (with_ball st) st' ->
    call_escapes d s b v (S h) (VPrim PCallcc) [p] st st'.

(** [n] additions that are pending while [x] is evaluated. *)
Fixpoint pending (n : nat) (x : value) : value :=
  match n with
  | O => x
  | S n' => VList [VSym "+"; VInt 1; pending n' x]
  end.

(** [(call/cc (lambda (k) (+ 1 (+ 1 ... (k 42)))))], with [n] additions. *)
Definition escape_from (n : nat) : value :=
  VList [VSym "call/cc";
         VList [_lambda; VList [VSym "k"]; pending n (VList [VSym "k"; VInt 42])]].

(** The environment of the call of that closure by [callcc]. *)
Definition escape_frame (ball : nat) : Env :=
  mkEnv {[ "k" := VPrim (PThrow ball) ]} (Some global_env).

(** The store with one more file. *)
Definition with_file (name text : string) (st : state) : state :=
  {| envs := envs st; macro_table := macro_table st; balls := balls st;
     files := <[name := text]> (files st) |}.

(** A file whose only expression calls the procedure bound to [esc]. *)
Definition escape_file : state := with_file "f.scm" "(esc 42)" initial_state.

(** The callee keeps its escape procedure in [esc] and then has the
    expression [(esc 42)] evaluated: by [load], from the file, and by the
    procedure [eval]. *)
Definition escape_in_load : string :=
  "(begin (define esc 0) (call/cc (lambda (k) (begin (set! esc k) (load (quote f)) 99))))".
Definition escape_in_eval : string :=
  "(begin (define esc 0) (call/cc (lambda (k) (begin (set! esc k) (eval (quote (esc 42))) 99))))".

Scheme escapes_mut := Minimality for escapes Sort Prop
  with call_escapes_mut := Minimality for call_escapes Sort Prop.

Combined Scheme escapes_call_ind from escapes_mut, call_escapes_mut.

End Spec.

(** ** The budgets only cut runs short

    A run that ends with a larger budget ends in the same way: the two
    budgets of the model never change a result, they only decide whether
    one is reached. *)

Module Budget.
Import Environment Interp Boot Run Spec.

Lemma approx_refl {S A} (r : outcome S A) : approx r r.
Proof. by right. Qed.

Lemma approx_stop_steps {S A} (r : outcome S A) : approx (Stop OutOfSteps) r.
Proof. left; by left. Qed.

Lemma approx_stop_stack {S A} (r : outcome S A) : approx (Stop StackOverflow) r.
Proof. left; by right. Qed.

Lemma approx_bind {S A B} (m m' : outcome S A) (k k' : A -> S -> outcome S B) :
  approx m m' -> (forall a s, approx (k a s) (k' a s)) -> approx (bind m k) (bind m' k').
Proof.
  intros [[-> | ->] | <-] Hk; [apply approx_stop_steps | apply approx_stop_stack |].
  destruct m; simpl; [apply Hk | apply approx_refl | apply approx_refl].
Qed.

Create HintDb approx.
#[global] Hint Resolve approx_refl approx_stop_steps approx_stop_stack : approx.

Lemma mapM_approx {A B} (f f' : A -> state -> outcome state B) l st :
  (forall a st, approx (f a st) (f' a st)) -> approx (mapM f l st) (mapM f' l st).
Proof.
  intros Hf. revert st. induction l as [| a l IH]; intros st; simpl; auto with approx.
  apply approx_bind; [apply Hf |]. intros b st1.
  apply approx_bind; [apply IH |]. auto with approx.
Qed.

Lemma forM_approx {A B} (f f' : A -> state -> outcome state B) l st :
  (forall a st, approx (f a st) (f' a st)) -> approx (forM f l st) (forM f' l st).
Proof.
  intros Hf. revert st. induction l as [| a l IH]; intros st; simpl; auto with approx.
  apply approx_bind; [apply Hf | auto].
Qed.

Ltac approx_step :=
  match goal with
  | |- approx (bind _ _) (bind _ _) => apply approx_bind; [| intros ? ?]
  | |- approx (mapM _ _ _) (mapM _ _ _) => apply mapM_approx; intros ? ?
  | |- approx (forM _ _ _) (forM _ _ _) => apply forM_approx; intros ? ?
  | |- approx ?r ?r => apply approx_refl
  | H : forall x, _ |- _ => solve [apply H]
  | |- approx (match ?x with _ => _ end) (match ?x with _ => _ end) => destruct x
  | |- approx (if ?x then _ else _) (if ?x then _ else _) => destruct x
  end.

Section Mono.
Context (fnd fnd' : finder) (ev ev' : evaluator) (cl cl' : caller) (again again' : evaluator)
        (ex ex' : expander).
Hypothesis Hfnd : forall e v st, approx (fnd e v st) (fnd' e v st).
Hypothesis Hev : forall x e st, approx (ev x e st) (ev' x e st).
Hypothesis Hcl : forall p a st, approx (cl p a st) (cl' p a st).
Hypothesis Hagain : forall x e st, approx (again x e st) (again' x e st).
Hypothesis Hex : forall x t st, approx (ex x t st) (ex' x t st).

Lemma cond_clauses_approx env cs st :
  approx (cond_clauses ev env cs st) (cond_clauses ev' env cs st).
Proof.
  revert st. induction cs as [| c cs IH]; intros st; simpl; [apply approx_refl |].
  repeat approx_step.
Qed.

Lemma eval_turn_approx x env st :
  approx (eval_turn fnd ev cl again x env st) (eval_turn fnd' ev' cl' again' x env st).
Proof.
  unfold eval_turn.
  repeat (approx_step || apply cond_clauses_approx).
Qed.

Lemma expand_form_approx x t st :
  approx (expand_form ex ev cl x t st) (expand_form ex' ev' cl' x t st).
Proof.
  unfold expand_form.
  repeat approx_step.
Qed.

Lemma let_macro_approx args st :
  approx (let_macro ex args st) (let_macro ex' args st).
Proof.
  unfold let_macro.
  repeat approx_step.
Qed.

Lemma callcc_approx p st :
  approx (callcc cl p st) (callcc cl' p st).
Proof.
  unfold callcc.
  destruct (Hcl p [VPrim (PThrow (balls st))]
              {| envs := envs st; macro_table := macro_table st; balls := S (balls st); files := files st |})
    as [[-> | ->] | <-]; auto with approx.
Qed.

Lemma repl_approx n : forall p st, approx (repl ex ev n p st) (repl ex' ev' n p st).
Proof.
  induction n as [| n IH]; intros p st; [apply approx_refl |]. cbn [repl].
  destruct (Parser.read (Parser.read_fuel p) p) as [x p' | e p' | r];
    [| apply IH | apply approx_refl].
  destruct (Hex x true st) as [[-> | ->] | <-]; auto with approx.
  destruct (ex x true st) as [x' st1 | e st1 | r]; [| apply IH | apply approx_refl].
  assert (H : approx
                match ev x' global_env st1 with
                | Stop r => Stop r
                | Raise _ st2 => repl ex ev n p' st2
                | Ret _ st2 => repl ex ev n p' st2
                end
                match ev' x' global_env st1 with
                | Stop r => Stop r
                | Raise _ st2 => repl ex' ev' n p' st2
                | Ret _ st2 => repl ex' ev' n p' st2
                end).
  { destruct (Hev x' global_env st1) as [[-> | ->] | <-]; auto with approx.
    destruct (ev x' global_env st1); auto with approx. }
  destruct x'; auto with approx.
Qed.

Lemma load_approx args st : approx (load ex ev args st) (load ex' ev' args st).
Proof.
  unfold load.
  repeat (approx_step || apply repl_approx).
Qed.

Lemma call_proc_approx p args st :
  approx (call_proc ex ev cl p args st) (call_proc ex' ev' cl' p args st).
Proof.
  unfold call_proc.
  repeat (approx_step || apply callcc_approx || apply let_macro_approx || apply load_approx).
Qed.
End Mono.

Lemma find_approx d d' e v st : (d <= d')%nat -> approx (find d e v st) (find d' e v st).
Proof.
  revert d' e. induction d as [| d IH]; intros d' e Hd; [apply approx_stop_stack |].
  destruct d' as [| d']; [lia |]. simpl.
  repeat approx_step. apply IH. lia.
Qed.

Theorem budget_mono d : forall d' s s', (d <= d')%nat -> (s <= s')%nat ->
  (forall x env st, approx (eval d s x env st) (eval d' s' x env st)) /\
  (forall x t st, approx (expand d s x t st) (expand d' s' x t st)) /\
  (forall p a st, approx (call d s p a st) (call d' s' p a st)).
Proof.
  induction d as [| d IH]; intros d' s s' Hd Hs.
  - repeat split; intros; apply approx_stop_stack.
  - destruct d' as [| d']; [lia |].
    assert (Hd' : (d <= d')%nat) by lia.
    destruct (IH d' s s' Hd' Hs) as (IHe & IHx & IHc).
    repeat split.
    + clear IHe IHx IHc. revert s' Hs.
      induction s as [| s IHs]; intros s' Hs x env st; [apply approx_stop_steps |].
      destruct s' as [| s']; [lia |].
      assert (Hs' : (s <= s')%nat) by lia.
      destruct (IH d' s s' Hd' Hs') as (IHe & IHx & IHc).
      change (approx (eval_turn (find d) (eval d s) (call d s) (eval (S d) s) x env st)
                     (eval_turn (find d') (eval d' s') (call d' s') (eval (S d') s') x env st)).
      apply eval_turn_approx; auto.
      intros; by apply find_approx.
    + intros x t st.
      change (approx (expand_form (expand d s) (eval d s) (call d s) x t st)
                     (expand_form (expand d' s') (eval d' s') (call d' s') x t st)).
      by apply expand_form_approx.
    + intros p a st.
      change (approx (call_proc (expand d s) (eval d s) (call d s) p a st)
                     (call_proc (expand d' s') (eval d' s') (call d' s') p a st)).
      by apply call_proc_approx.
Qed.

Lemma eval_approx d d' s s' x env st :
  (d <= d')%nat -> (s <= s')%nat -> approx (eval d s x env st) (eval d' s' x env st).
Proof. intros Hd Hs. by apply (budget_mono d d' s s'). Qed.

Lemma expand_approx d d' s s' x t st :
  (d <= d')%nat -> (s <= s')%nat -> approx (expand d s x t st) (expand d' s' x t st).
Proof. intros Hd Hs. by apply (budget_mono d d' s s'). Qed.

Lemma call_approx d d' s s' p a st :
  (d <= d')%nat -> (s <= s')%nat -> approx (call d s p a st) (call d' s' p a st).
Proof. intros Hd Hs. by apply (budget_mono d d' s s'). Qed.

Lemma parse_approx d d' s s' text st :
  (d <= d')%nat -> (s <= s')%nat -> approx (parse d s text st) (parse d' s' text st).
Proof.
  intros Hd Hs. unfold parse. destruct (Parser.read_text text); auto with approx.
  by apply expand_approx.
Qed.

Lemma run_approx d d' s s' text st :
  (d <= d')%nat -> (s <= s')%nat -> approx (run d s text st) (run d' s' text st).
Proof.
  intros Hd Hs. unfold run. apply approx_bind; [by apply parse_approx |].
  intros; by apply eval_approx.
Qed.

Lemma load_module_approx d d' s s' :
  (d <= d')%nat -> (s <= s')%nat -> approx (load_module d s) (load_module d' s').
Proof.
  intros Hd Hs. unfold load_module.
  repeat (apply approx_bind; [| intros ? ?]); auto with approx.
  - by apply parse_approx.
  - by apply eval_approx.
Qed.

(** A result reached with some budget is the result with any larger one. *)
Lemma approx_eq {S A} (r r' r0 : outcome S A) :
  approx r r' -> r = r0 -> ~ out_of_budget r0 -> r' = r0.
Proof. intros [H | <-] -> Hb; done. Qed.

Lemma approx_answer {S} (r r' : outcome S value) a :
  approx r r' -> answer_of r = a -> (forall b, a <> NoAnswer b) -> answer_of r' = a.
Proof.
  intros [[-> | ->] | <-] Ha Hb; try done; simpl in Ha; by destruct (Hb _ (eq_sym Ha)).
Qed.

Lemma not_out_of_budget_ret {S A} (a : A) (s : S) : ~ out_of_budget (Ret a s).
Proof. intros [? | ?]; discriminate. Qed.

Lemma not_out_of_budget_raise {S A} e (s : S) : ~ out_of_budget (@Raise S A e s).
Proof. intros [? | ?]; discriminate. Qed.

#[global] Hint Resolve not_out_of_budget_ret not_out_of_budget_raise : approx.

(** The answer of a program, computed with the budgets [D] and [S0], is
    its answer with all larger budgets. *)
Ltac by_running D S0 :=
  lazymatch goal with
  | |- answer_of (run _ _ ?text ?st) = _ =>
      apply (approx_answer (run D S0 text st));
      [apply run_approx; lia | vm_compute; reflexivity | intros ? ?; discriminate]
  | |- answer_of (parse _ _ ?text ?st) = _ =>
      apply (approx_answer (parse D S0 text st));
      [apply parse_approx; lia | vm_compute; reflexivity | intros ? ?; discriminate]
  end.

End Budget.

Import PyStr Reader Atom Parser Py Environment Interp Boot Run Spec Budget.

(** The module loads: with a call depth of 8 and two turns of the loop of
    [eval] (or more), its statements run to the end and leave
    [initial_state]. *)
Lemma load_module_ok d s : load_module (8 + d) (2 + s) = Ret VNone initial_state.
Proof.
  apply (approx_eq (load_module 8 2));
    [apply load_module_approx; lia | vm_compute; reflexivity | auto with approx].
Qed.

(** ** The reader and the printer *)

(** C7: the tokenizer does not treat every white space character as a
    separator. Two tokens with a space or a newline between them are read
    as two tokens, but with a tab between them they are read as ONE token
    that holds the tab: the expression of the tokenizer skips and excludes
    the space character only, and [strip] removes tabs at the two ends of a
    line only. *)
Theorem tab_between_tokens_gives_one_token :
  tokens a_tab_b = Some [a_tab_b]
  /\ tokens "a b" = Some ["a"; "b"]
  /\ tokens (String "a" (String newline "b")) = Some ["a"; "b"]
  /\ answer_of (read_text ("(" ++ a_tab_b ++ ")")) = Value (VList [VSym a_tab_b]).
Proof. repeat split; vm_compute; reflexivity. Qed.

(** C4: printing and reading again does not give the value back when a
    string holds an escaped double quote. The reader keeps the backslash
    of the literal (it strips the outer quotes only), the printer puts a
    second backslash before the quote, and the text printed is read as the
    string [a] followed by two backslashes, with [b] left over. *)
Theorem escaped_quote_does_not_round_trip :
  answer_of (read_text (quoted a_escaped_quote_b)) = Value (VStr a_escaped_quote_b)
  /\ to_string (VStr a_escaped_quote_b)
     = Some (quoted (String "a" (String backslash (String backslash (String dquote "b")))))
  /\ answer_of (read_text (quoted (String "a" (String backslash (String backslash (String dquote "b"))))))
     = Value (VStr (String "a" (String backslash (String backslash ""))))
  /\ VStr (String "a" (String backslash (String backslash ""))) <> VStr a_escaped_quote_b.
Proof. repeat split; try (vm_compute; reflexivity). discriminate. Qed.

(** ** Programs of the testable properties *)

(** C3: [(quote (a b c))] evaluates to the list of the three symbols, and
    the quasiquote form evaluates to the list [(1 2 3 4)]: the unquoted
    [(+ 1 1)] is replaced by its value and the elements of
    [(list 3 4)] are spliced in. In general [(quote e)] evaluates to [e]
    itself, whatever [e] is, and leaves the store as it is; the expander
    leaves it unchanged. *)
Theorem quote_and_quasiquote d s :
  answer_of (run (8 + d) (8 + s) quote_abc initial_state)
  = Value (VList [VSym "a"; VSym "b"; VSym "c"])
  /\ answer_of (run (8 + d) (8 + s) quasiquote_1234 initial_state)
     = Value (VList [VInt 1; VInt 2; VInt 3; VInt 4])
  /\ (forall e env st, eval (S d) (S s) (VList [_quote; e]) env st = Ret e st)
  /\ (forall e t st, expand (S d) s (VList [_quote; e]) t st = Ret (VList [_quote; e]) st).
Proof.
  split; [by_running 8%nat 8%nat |].
  split; [by_running 8%nat 8%nat |].
  split; reflexivity.
Qed.

(** C8: with the builtin macros loaded, [(and 1 2 3)] expands into nested
    [if] forms and evaluates to [3], [(and)] evaluates to [#t] and
    [(or #f #f)] evaluates to [#f]. *)
Theorem and_or_macros d s :
  answer_of (parse (16 + d) (16 + s) and_123 initial_state)
  = Value (VList [_if; VInt 1; VList [_if; VInt 2; VInt 3; VBool false]; VBool false])
  /\ answer_of (run (16 + d) (16 + s) and_123 initial_state) = Value (VInt 3)
  /\ answer_of (run (16 + d) (16 + s) "(and)" initial_state) = Value (VBool true)
  /\ answer_of (run (16 + d) (16 + s) "(or #f #f)" initial_state) = Value (VBool false).
Proof. repeat split; by_running 16%nat 16%nat. Qed.

(** ** Environments and procedures *)

Lemma eval_unfold d s x env st :
  eval (S d) (S s) x env st
  = eval_turn (find d) (eval d s) (call d s) (eval (S d) s) x env st.
Proof. reflexivity. Qed.

Lemma expand_unfold d s x t st :
  expand (S d) s x t st = expand_form (expand d s) (eval d s) (call d s) x t st.
Proof. reflexivity. Qed.

Lemma call_unfold d s p args st :
  call (S d) s p args st = call_proc (expand d s) (eval d s) (call d s) p args st.
Proof. reflexivity. Qed.

Lemma find_nearest st env l d name :
  Scopes st env l -> (length l <= d)%nat ->
  find d env name st
  = match List.find (binds st name) l with
    | Some e => Ret e st
    | None => Raise (LookupError name) st
    end.
Proof.
  intros H. revert d. induction H as [env e He Ho | env e o l He Ho Hl IH]; intros d Hd.
  - destruct d as [| d]; [simpl in Hd; lia |]. simpl. unfold binds. rewrite He.
    destruct (storage e !! name); [reflexivity |]. by rewrite Ho.
  - destruct d as [| d]; [simpl in Hd; lia |]. simpl. unfold binds at 1. rewrite He.
    destruct (storage e !! name); [reflexivity |]. rewrite Ho. apply IH. simpl in Hd. lia.
Qed.

(** C5: a closure whose parameters are a list of two symbols, applied to
    a list of arguments whose length is not two (one or three arguments,
    say), raises the arity error of [Env.__init__], and no environment is
    made; applied to two arguments it binds the first symbol to the first
    argument and the second to the second. A closure whose parameter
    specification is one symbol accepts EVERY list of arguments, of any
    length: the new environment binds the symbol to the whole list, and
    the body is evaluated in it. Both hold for a call through
    [Procedure.__call__] and for the application in the loop of [eval]. *)
Theorem arity_checking d s a b body penv st :
  (forall args, length args <> 2%nat ->
     Env_init (VList [VSym a; VSym b]) args (Some penv) st
     = Raise (ArityError (VList [VSym a; VSym b]) args) st
     /\ call (S d) s (VProcedure (VList [VSym a; VSym b]) body penv) args st
        = Raise (ArityError (VList [VSym a; VSym b]) args) st
     /\ (forall hd tl env st0,
           is_special hd = false ->
           mapM (fun e => eval d s e env) (hd :: tl) st0
           = Ret (VProcedure (VList [VSym a; VSym b]) body penv :: args) st ->
           eval (S d) (S s) (VList (hd :: tl)) env st0
           = Raise (ArityError (VList [VSym a; VSym b]) args) st))
  /\ (forall x y,
        Env_init (VList [VSym a; VSym b]) [x; y] (Some penv) st
        = Ret (length (envs st))
            (with_env (mkEnv (<[b := y]> (<[a := x]> ∅)) (Some penv)) st))
  /\ (forall name args,
        Env_init (VSym name) args (Some penv) st
        = Ret (length (envs st)) (with_env (mkEnv {[ name := VList args ]} (Some penv)) st)
        /\ call (S d) s (VProcedure (VSym name) body penv) args st
           = eval d s body (length (envs st))
               (with_env (mkEnv {[ name := VList args ]} (Some penv)) st)
        /\ (forall hd tl env st0,
              is_special hd = false ->
              mapM (fun e => eval d s e env) (hd :: tl) st0
              = Ret (VProcedure (VSym name) body penv :: args) st ->
              eval (S d) (S s) (VList (hd :: tl)) env st0
              = eval (S d) s body (length (envs st))
                  (with_env (mkEnv {[ name := VList args ]} (Some penv)) st)))
  /\ answer_of (run (8 + d) (8 + s) "((lambda (a b) a) 1)" initial_state)
     = Error (ArityError (VList [VSym "a"; VSym "b"]) [VInt 1])
  /\ answer_of (run (8 + d) (8 + s) "((lambda (a b) a) 1 2 3)" initial_state)
     = Error (ArityError (VList [VSym "a"; VSym "b"]) [VInt 1; VInt 2; VInt 3])
  /\ answer_of (run (8 + d) (8 + s) "((lambda (a b) a) 1 2)" initial_state) = Value (VInt 1)
  /\ answer_of (run (8 + d) (8 + s) "((lambda args args) 1 2 3)" initial_state)
     = Value (VList [VInt 1; VInt 2; VInt 3])
  /\ answer_of (run (8 + d) (8 + s) "((lambda args args) 1 2)" initial_state)
     = Value (VList [VInt 1; VInt 2])
  /\ answer_of (run (8 + d) (8 + s) "((lambda args args) 1)" initial_state)
     = Value (VList [VInt 1])
  /\ answer_of (run (8 + d) (8 + s) "((lambda args args))" initial_state)
     = Value (VList []).
Proof.
  split; [| split; [| split]].
  - intros args Hlen.
    assert (E : Env_init (VList [VSym a; VSym b]) args (Some penv) st
                = Raise (ArityError (VList [VSym a; VSym b]) args) st).
    { unfold Env_init. simpl. destruct (Nat.eqb_spec (length args) 2); [done | reflexivity]. }
    split; [exact E |]. split.
    + rewrite call_unfold. unfold call_proc. by rewrite E.
    + intros hd tl env st0 H Hm. unfold is_special in H.
      repeat (apply orb_false_elim in H; destruct H as [H ?]).
      rewrite eval_unfold. unfold eval_turn. simpl is_Symbol. cbv iota.
      rewrite H, H0, H1, H2, H3, H4, H5, Hm. cbn [bind]. by rewrite E.
  - intros x y. reflexivity.
  - intros name args. split; [reflexivity |]. split; [reflexivity |].
    intros hd tl env st0 H Hm. unfold is_special in H.
    repeat (apply orb_false_elim in H; destruct H as [H ?]).
    rewrite eval_unfold. unfold eval_turn. simpl is_Symbol. cbv iota.
    rewrite H, H0, H1, H2, H3, H4, H5, Hm. reflexivity.
  - repeat split; by_running 8%nat 8%nat.
Qed.

Lemma arity_checking_witness :
  Env_init (VList [VSym "a"; VSym "b"]) [VInt 1] (Some global_env) initial_state
  = Raise (ArityError (VList [VSym "a"; VSym "b"]) [VInt 1]) initial_state.
Proof.
  apply (proj1 (arity_checking 0 0 "a" "b" VNone global_env initial_state) [VInt 1]).
  simpl. lia.
Defined.

(** C9: [Env.find] walks outwards from the innermost scope and gives the
    first environment whose dictionary has the name; when no environment
    up to the global one has it, it raises the lookup error that carries
    the name, and so does the evaluation of the bare symbol. When an
    environment has it, the symbol evaluates to the value bound in the
    nearest such environment. *)
Theorem unbound_variable st env l d s name :
  Scopes st env l -> (length l <= d)%nat ->
  find d env name st
  = match List.find (binds st name) l with
    | Some e => Ret e st
    | None => Raise (LookupError name) st
    end
  /\ (List.find (binds st name) l = None ->
      eval (S d) (S s) (VSym name) env st = Raise (LookupError name) st)
  /\ (forall e, List.find (binds st name) l = Some e ->
      eval (S d) (S s) (VSym name) env st = get e name st).
Proof.
  intros Hl Hd. pose proof (find_nearest st env l d name Hl Hd) as Hf.
  split; [exact Hf |]. split.
  - intros Hn. rewrite eval_unfold. unfold eval_turn. simpl. rewrite Hf, Hn. reflexivity.
  - intros e He. rewrite eval_unfold. unfold eval_turn. simpl. rewrite Hf, He. reflexivity.
Qed.

Lemma unbound_variable_witness :
  eval 2 1 (VSym "nosuch") global_env initial_state
  = Raise (LookupError "nosuch") initial_state.
Proof.
  refine (proj1 (proj2 (unbound_variable initial_state global_env [global_env] 1 0
                          "nosuch" _ _)) _).
  - eapply Scopes_last; reflexivity.
  - simpl. lia.
  - reflexivity.
Defined.

(** ** Macro definitions *)

(** C6: [(define-macro v e)] is expanded with success at top level only.
    Below top level its expansion never returns, and it is the syntax
    error of the top-level check as soon as the expansion of [e] itself
    returns. At top level, once [e] is expanded and its value in the
    global environment is a procedure, the procedure is stored under [v]
    in the macro table and the form expands to [None], whose evaluation
    gives [None] and leaves the store as it is. *)
Theorem define_macro_top_level d s v e st :
  (forall r st', expand d s (define_macro_form v e) false st <> Ret r st')
  /\ (forall exp st1, expand d s e false st = Ret exp st1 ->
        expand (S d) s (define_macro_form v e) false st
        = Raise (SyntaxError (Some (define_macro_form v e)) not_top_level) st1
        /\ (forall proc st2, eval d s exp global_env st1 = Ret proc st2 ->
              is_callable proc = true ->
              expand (S d) s (define_macro_form v e) true st
              = Ret VNone (with_macro v proc st2)))
  /\ (forall env st0, eval (S d) (S s) VNone env st0 = Ret VNone st0).
Proof.
  split; [| split].
  - intros r st'. destruct d as [| d]; [discriminate |].
    rewrite expand_unfold. unfold expand_form, define_macro_form. simpl.
    destruct (expand d s e false st); simpl; discriminate.
  - intros exp st1 He. split.
    + rewrite expand_unfold. unfold expand_form, define_macro_form. simpl.
      rewrite He. reflexivity.
    + intros proc st2 Hp Hc.
      rewrite expand_unfold. unfold expand_form, define_macro_form. simpl.
      rewrite He. simpl. rewrite Hp. simpl. rewrite Hc. reflexivity.
  - reflexivity.
Qed.

Lemma define_macro_top_level_witness :
  expand 3 3 (define_macro_form "one" constant_macro) true initial_state
  = Ret VNone
      (with_macro "one" (VProcedure (VSym "args") (VInt 1) global_env) initial_state).
Proof.
  refine (proj2 (proj1 (proj2 (define_macro_top_level 2 3 "one" constant_macro
                                 initial_state))
                   (VList [_lambda; VSym "args"; VInt 1]) initial_state _)
            (VProcedure (VSym "args") (VInt 1) global_env) initial_state _ _);
    reflexivity.
Defined.

(** ** Tail calls *)

Arguments eval : simpl never.
Arguments expand : simpl never.
Arguments call : simpl never.
Arguments find : simpl never.

Lemma eval_apply d s hd tl env st parms exp penv args st1 :
  is_special hd = false ->
  mapM (fun e => eval d s e env) (hd :: tl) st = Ret (VProcedure parms exp penv :: args) st1 ->
  eval (S d) (S s) (VList (hd :: tl)) env st
  = bind (Env_init parms args (Some penv) st1) (fun e st2 => eval (S d) s exp e st2).
Proof.
  unfold is_special. intros H Hm.
  repeat (apply orb_false_elim in H; destruct H as [H ?]).
  rewrite eval_unfold. unfold eval_turn. simpl is_Symbol. cbv iota.
  rewrite H, H0, H1, H2, H3, H4, H5, Hm. reflexivity.
Qed.

Lemma eval_native d s hd tl env st p args st1 :
  is_special hd = false ->
  mapM (fun e => eval d s e env) (hd :: tl) st = Ret (VPrim p :: args) st1 ->
  eval (S d) (S s) (VList (hd :: tl)) env st = call d s (VPrim p) args st1.
Proof.
  unfold is_special. intros H Hm.
  repeat (apply orb_false_elim in H; destruct H as [H ?]).
  rewrite eval_unfold. unfold eval_turn. simpl is_Symbol. cbv iota.
  rewrite H, H0, H1, H2, H3, H4, H5, Hm. reflexivity.
Qed.

Lemma find_unfold d self var st :
  find (S d) self var st
  = match envs st !! self with
    | None => Stop (Unmodelled "no such environment")
    | Some e =>
        match storage e !! var with
        | Some _ => Ret self st
        | None =>
            match outer e with
            | None => Raise (LookupError var) st
            | Some o => find d o var st
            end
        end
    end.
Proof. reflexivity. Qed.

Lemma eval_sym_local d s name a st e v :
  envs st !! a = Some e -> storage e !! name = Some v ->
  eval (S (S d)) (S s) (VSym name) a st = Ret v st.
Proof.
  intros He Hv. rewrite eval_unfold. unfold eval_turn. simpl.
  rewrite find_unfold, He, Hv. simpl. unfold get. rewrite He, Hv. reflexivity.
Qed.

Lemma eval_sym_outer d s name a st e o eo v :
  envs st !! a = Some e -> storage e !! name = None -> outer e = Some o ->
  envs st !! o = Some eo -> storage eo !! name = Some v ->
  eval (S (S (S d))) (S s) (VSym name) a st = Ret v st.
Proof.
  intros He Hn Ho Heo Hv. rewrite eval_unfold. unfold eval_turn. simpl.
  rewrite find_unfold, He, Hn, Ho, find_unfold, Heo, Hv. simpl.
  unfold get. rewrite Heo, Hv. reflexivity.
Qed.

Lemma eval_literal d s z env st : eval (S d) (S s) (VInt z) env st = Ret (VInt z) st.
Proof. reflexivity. Qed.

Lemma has_loop_with_env e st : has_loop st -> has_loop (with_env e st).
Proof.
  intros (G & HG & H). exists G. split; [| exact H].
  unfold with_env; simpl. rewrite lookup_app_l; [exact HG |].
  apply lookup_lt_Some in HG. exact HG.
Qed.

Lemma lookup_with_env e st : envs (with_env e st) !! length (envs st) = Some e.
Proof. unfold with_env; simpl. by rewrite list_lookup_middle. Qed.

Lemma Env_init_one x v o st :
  Env_init (VList [VSym x]) [v] o st
  = Ret (length (envs st)) (with_env (mkEnv {[ x := v ]} o) st).
Proof. reflexivity. Qed.

Lemma loop_body_runs (n : nat) : forall st a d s,
  has_loop st ->
  envs st !! a = Some (mkEnv {[ "n" := VInt (Z.of_nat n) ]} (Some global_env)) ->
  exists st', eval (5 + d) (2 * n + 3 + s) loop_body a st = Ret (VInt 0) st' /\ has_loop st'.
Proof.
  induction n as [| n IH]; intros st a d s Hst Ha.
  - destruct Hst as (G & HG & Hloop & Heq & Hsub).
    exists st. split; [| by exists G].
    change (2 * 0 + 3 + s)%nat with (S (S (S s))).
    change (5 + d)%nat with (S (S (S (S (S d))))).
    unfold loop_body. rewrite eval_unfold. unfold eval_turn. simpl is_Symbol. cbv iota.
    simpl is_sym. cbv iota.
    rewrite (eval_native _ _ _ _ _ _ PEq [VInt 0; VInt 0] st); [| reflexivity |].
    + simpl. reflexivity.
    + cbn [mapM].
      rewrite (eval_sym_outer d s "=" a st _ _ G (VPrim PEq) Ha eq_refl eq_refl HG Heq).
      cbn [bind].
      rewrite (eval_sym_local (S d) s "n" a st _ (VInt 0) Ha eq_refl).
      reflexivity.
  - pose proof Hst as (G & HG & Hloop & Heq & Hsub).
    remember (2 * n + s)%nat as k eqn:Hk.
    replace (2 * S n + 3 + s)%nat with (S (S (S (S (S k))))) by lia.
    change (5 + d)%nat with (S (S (S (S (S d))))).
    unfold loop_body. rewrite eval_unfold. unfold eval_turn. simpl is_Symbol. cbv iota.
    simpl is_sym. cbv iota.
    rewrite (eval_native _ _ _ _ _ _ PEq [VInt (Z.of_nat (S n)); VInt 0] st); [| reflexivity |].
    2:{ cbn [mapM].
        rewrite (eval_sym_outer d _ "=" a st _ _ G (VPrim PEq) Ha eq_refl eq_refl HG Heq).
        cbn [bind].
        rewrite (eval_sym_local (S d) _ "n" a st _ _ Ha eq_refl).
        reflexivity. }
    rewrite call_unfold. unfold call_proc, native, native_result.
    simpl existsb. cbv iota. simpl andb. cbv iota.
    simpl py_eq. cbv iota. cbn [bind]. simpl truthy. cbv iota.
    assert (Hmap : mapM (fun e => eval (S (S (S (S d)))) (S (S (S k))) e a)
                     [VSym "loop"; VList [VSym "-"; VSym "n"; VInt 1]] st
                   = Ret [loop_proc; VInt (Z.of_nat n)] st).
    { cbn [mapM].
      rewrite (eval_sym_outer (S d) _ "loop" a st _ _ G loop_proc Ha eq_refl eq_refl HG Hloop).
      cbn [bind].
      rewrite (eval_native _ _ _ _ _ _ PSub [VInt (Z.of_nat (S n)); VInt 1] st); [| reflexivity |].
      2:{ cbn [mapM].
          rewrite (eval_sym_outer d _ "-" a st _ _ G (VPrim PSub) Ha eq_refl eq_refl HG Hsub).
          cbn [bind].
          rewrite (eval_sym_local (S d) _ "n" a st _ _ Ha eq_refl).
          reflexivity. }
      rewrite call_unfold. unfold call_proc, native, native_result.
      simpl existsb. cbv iota. simpl andb. cbv iota.
      unfold arith. simpl as_int. cbv iota.
      replace (Z.of_nat (S n) - 1)%Z with (Z.of_nat n) by lia. reflexivity. }
    rewrite (eval_apply _ _ (VSym "loop") _ _ _ _ _ _ _ _ eq_refl Hmap).
    unfold Env_init. simpl negb. cbv iota. simpl names_of. cbv iota. unfold alloc.
    cbn [bind].
    replace (S (S (S k))) with (2 * n + 3 + s)%nat by lia.
    apply (IH _ _ d s).
    + by apply (has_loop_with_env _ st).
    + apply (lookup_with_env _ st).
Qed.

(** The counting loop, whose body ends in a call of itself under an
    [if], returns for every count [n] with the call depth 5. *)
Lemma loop_under_if_runs (st : state) (n d s : nat) :
  has_loop st ->
  exists st',
    eval (5 + d) (2 * n + 4 + s) (VList [VSym "loop"; VInt (Z.of_nat n)]) global_env st
    = Ret (VInt 0) st'
    /\ has_loop st'.
Proof.
  intros Hst. pose proof Hst as (G & HG & Hloop & Heq & Hsub).
  remember (2 * n + 2 + s)%nat as k eqn:Hk.
  replace (2 * n + 4 + s)%nat with (S (S k)) by lia.
  change (5 + d)%nat with (S (S (S (S (S d))))).
  assert (Hmap : mapM (fun e => eval (S (S (S (S d)))) (S k) e global_env)
                   [VSym "loop"; VInt (Z.of_nat n)] st
                 = Ret [loop_proc; VInt (Z.of_nat n)] st).
  { cbn [mapM].
    rewrite (eval_sym_local _ _ "loop" global_env st G loop_proc HG Hloop).
    reflexivity. }
  rewrite (eval_apply _ _ (VSym "loop") _ _ _ _ _ _ _ _ eq_refl Hmap).
  rewrite Env_init_one. cbn [bind].
  replace (S k) with (2 * n + 3 + s)%nat by lia.
  apply (loop_body_runs n (with_env (mkEnv {[ "n" := VInt (Z.of_nat n) ]} (Some global_env)) st)
           (length (envs st)) d s).
  - by apply has_loop_with_env.
  - apply lookup_with_env.
Qed.

Lemma has_loop_loop_state : has_loop loop_state.
Proof. eexists. split; [reflexivity |]. repeat split; vm_compute; reflexivity. Defined.

(** ** Expressions without effects *)

Lemma assoc_In name G v : assoc name G = Some v -> In (name, v) G.
Proof.
  induction G as [| [k w] G IH]; simpl; [discriminate |].
  destruct (String.eqb_spec k name) as [-> | _].
  - intros [= ->]. by left.
  - intros H. right. by apply IH.
Qed.

Lemma global_has_lookup G st name v :
  global_has G st -> assoc name G = Some v ->
  exists Ge, envs st !! global_env = Some Ge /\ storage Ge !! name = Some v.
Proof.
  intros (Ge & HG & Hall) Ha. exists Ge. split; [exact HG |].
  apply assoc_In, list_elem_of_In in Ha. rewrite Forall_forall in Hall. exact (Hall _ Ha).
Qed.

Lemma call_native d s p args st v :
  is_native p = true -> native_result p args () = Ret v () ->
  call (S d) s (VPrim p) args st = Ret v st.
Proof.
  intros Hp Hn. rewrite call_unfold. unfold call_proc.
  destruct p; try discriminate Hp; unfold native; by rewrite Hn.
Qed.

Section PureEval.
Context (L : gmap string value) (G : list (string * value)).

Lemma pure_eval_sym st a name v d s :
  global_has G st -> in_frame L st a ->
  match L !! name with Some v => Some v | None => assoc name G end = Some v ->
  eval (S (S (S d))) (S s) (VSym name) a st = Ret v st.
Proof.
  intros HG (e & He & HL & Ho) Hv.
  destruct (L !! name) as [w |] eqn:Hw.
  - injection Hv as ->. apply (eval_sym_local _ _ _ _ _ e); [exact He | by rewrite HL].
  - destruct (global_has_lookup G st name v HG Hv) as (Ge & HGe & Hname).
    destruct Ho as [Ho | ->].
    + apply (eval_sym_outer _ _ _ _ _ e global_env Ge); try done. by rewrite HL.
    + rewrite He in HGe. injection HGe as <-. rewrite HL in Hname. congruence.
Qed.

Lemma pure_eval_sound f : forall x v st a d s,
  global_has G st -> in_frame L st a ->
  pure_eval f L G x = Some v ->
  eval (S (S (f + d))) (f + s) x a st = Ret v st.
Proof.
  induction f as [| f IH]; intros x v st a d s HG Ha Hx; [discriminate |].
  assert (Hmap : forall l vs, pure_values (pure_eval f L G) l = Some vs ->
             mapM (fun e => eval (S (S (f + d))) (f + s) e a) l st = Ret vs st).
  { induction l as [| y l IHl]; intros vs Hvs; simpl in Hvs.
    - by injection Hvs as <-.
    - destruct (pure_eval f L G y) as [w |] eqn:Hy; [| discriminate]. simpl in Hvs.
      destruct (pure_values (pure_eval f L G) l) as [ws |] eqn:Hl; [| discriminate].
      injection Hvs as <-. cbn [mapM]. rewrite (IH _ _ _ _ _ _ HG Ha Hy). cbn [bind].
      by rewrite (IHl _ eq_refl). }
  change (S f + d)%nat with (S (f + d)). change (S f + s)%nat with (S (f + s)).
  destruct x as [| b | z | t | name | | l | | |]; cbn [pure_eval] in Hx;
    try (injection Hx as <-; reflexivity); try discriminate.
  - by apply pure_eval_sym.
  - destruct l as [| hd tl]; [discriminate |].
    destruct (is_sym "quote" hd) eqn:Hq.
    { destruct tl as [| e [| ? ?]]; try discriminate. injection Hx as <-.
      rewrite eval_unfold. unfold eval_turn. cbn [is_Symbol]. cbv iota. by rewrite Hq. }
    destruct (is_sym "if" hd) eqn:Hi.
    { destruct tl as [| test [| conseq [| alt [| ? ?]]]]; try discriminate.
      destruct (pure_eval f L G test) as [w |] eqn:Ht; [| discriminate].
      cbn [mbind option_bind] in Hx.
      rewrite eval_unfold. unfold eval_turn. cbn [is_Symbol]. cbv iota. rewrite Hq, Hi.
      rewrite (IH _ _ _ _ _ _ HG Ha Ht). cbn [bind].
      replace (S (S (S (f + d)))) with (S (S (f + S d))) by lia.
      by apply IH. }
    destruct (is_special hd) eqn:Hs; [discriminate |].
    destruct (pure_values (pure_eval f L G) (hd :: tl)) as [vs |] eqn:Hvs;
      [| discriminate]. cbn [mbind option_bind] in Hx.
    destruct vs as [| [| | | | | | | | p |] args]; try discriminate.
    destruct (is_native p) eqn:Hp; [| discriminate].
    destruct (native_result p args ()) as [w [] | |] eqn:Hn; try discriminate.
    injection Hx as <-.
    rewrite (eval_native _ _ _ _ _ _ p args st Hs (Hmap _ _ Hvs)).
    by apply call_native.
Qed.
End PureEval.

(** ** The builtin macros [and] and [or] *)

Lemma pure_eval_if f L G t c a :
  pure_eval (S f) L G (VList [_if; t; c; a])
  = (v ← pure_eval f L G t; pure_eval f L G (if truthy v then c else a)).
Proof. reflexivity. Qed.

Lemma length_is_not_one (c1 c2 : value) rest :
  Z.eqb (Z.of_nat (length (c1 :: c2 :: rest))) 1 = false.
Proof. apply Z.eqb_neq. simpl length. lia. Qed.

Lemma args_tests f c1 c2 rest :
  let L : gmap string value := {[ "args" := VList (c1 :: c2 :: rest) ]} in
  pure_eval (3 + f) L core_bindings (VList [VSym "null?"; VSym "args"]) = Some (VBool false)
  /\ pure_eval (4 + f) L core_bindings
       (VList [VSym "="; VList [VSym "length"; VSym "args"]; VInt 1]) = Some (VBool false).
Proof.
  intros L. split; [reflexivity |].
  change (pure_eval (4 + f) L core_bindings
            (VList [VSym "="; VList [VSym "length"; VSym "args"]; VInt 1]))
    with (Some (VBool (Z.eqb (Z.of_nat (length (c1 :: c2 :: rest))) 1))).
  by rewrite length_is_not_one.
Qed.

Lemma or_qq f c1 c2 rest :
  pure_eval (7 + f) {[ "args" := VList (c1 :: c2 :: rest) ]} core_bindings (template_of or_macro)
  = Some (VList [_if; VList [VSym "not"; c1]; VList (VSym "or" :: c2 :: rest); VBool true]).
Proof.
  transitivity (Some (VList [_if; VList [VSym "not"; c1];
                             VList (VSym "or" :: c2 :: (rest ++ [])); VBool true]));
    [vm_compute; reflexivity | by rewrite app_nil_r].
Qed.

Lemma or_body_two f c1 c2 rest :
  pure_eval (9 + f) {[ "args" := VList (c1 :: c2 :: rest) ]} core_bindings (body_of or_macro)
  = Some (VList [_if; VList [VSym "not"; c1]; VList (VSym "or" :: c2 :: rest); VBool true]).
Proof.
  destruct (args_tests (5 + f) c1 c2 rest) as [H1 _].
  destruct (args_tests (3 + f) c1 c2 rest) as [_ H2].
  change (9 + f)%nat with (S (3 + (5 + f))).
  unfold body_of, or_macro.
  rewrite pure_eval_if, H1. cbn [mbind option_bind truthy].
  change (3 + (5 + f))%nat with (S (4 + (3 + f))).
  rewrite pure_eval_if, H2. cbn [mbind option_bind truthy].
  exact (or_qq f c1 c2 rest).
Qed.

Lemma or_body_one f c :
  pure_eval (9 + f) {[ "args" := VList [c] ]} core_bindings (body_of or_macro) = Some c.
Proof. vm_compute. reflexivity. Qed.

Lemma or_body_none f :
  pure_eval (9 + f) {[ "args" := VList [] ]} core_bindings (body_of or_macro) = Some (VBool false).
Proof. vm_compute. reflexivity. Qed.

(** ** The values of [or] and [and] *)

Lemma global_has_with_env G e st : global_has G st -> global_has G (with_env e st).
Proof.
  intros (Ge & HG & H). exists Ge. split; [| exact H].
  unfold with_env; simpl. rewrite lookup_app_l; [exact HG |].
  apply lookup_lt_Some in HG. exact HG.
Qed.

Lemma macros_loaded_with_env e st : macros_loaded st -> macros_loaded (with_env e st).
Proof. intros (HG & H). split; [by apply global_has_with_env | exact H]. Qed.

(** Results reached with one budget hold with every larger one. *)
Lemma eval_lift d s d' s' x env st r :
  eval d s x env st = r -> ~ out_of_budget r -> (d <= d')%nat -> (s <= s')%nat ->
  eval d' s' x env st = r.
Proof. intros H Hr Hd Hs. apply (approx_eq (eval d s x env st)); [by apply eval_approx | done | done]. Qed.

Lemma expand_lift d s d' s' x t st r :
  expand d s x t st = r -> ~ out_of_budget r -> (d <= d')%nat -> (s <= s')%nat ->
  expand d' s' x t st = r.
Proof. intros H Hr Hd Hs. apply (approx_eq (expand d s x t st)); [by apply expand_approx | done | done]. Qed.

Lemma call_lift d s d' s' p a st r :
  call d s p a st = r -> ~ out_of_budget r -> (d <= d')%nat -> (s <= s')%nat ->
  call d' s' p a st = r.
Proof. intros H Hr Hd Hs. apply (approx_eq (call d s p a st)); [by apply call_approx | done | done]. Qed.

(** The call of a procedure with one symbol as parameters and a body
    without effects. *)
Lemma call_pure_procedure G name body args st R f d s :
  global_has G st ->
  pure_eval f {[ name := VList args ]} G body = Some R ->
  call (S (S (S (f + d)))) (f + s) (VProcedure (VSym name) body global_env) args st
  = Ret R (with_env (mkEnv {[ name := VList args ]} (Some global_env)) st).
Proof.
  intros HG HR. rewrite call_unfold. unfold call_proc.
  change (Env_init (VSym name) args (Some global_env) st)
    with (Ret (A := nat) (length (envs st))
            (with_env (mkEnv {[ name := VList args ]} (Some global_env)) st)).
  cbn [bind].
  apply (pure_eval_sound {[ name := VList args ]} G); [by apply global_has_with_env | | exact HR].
  exists (mkEnv {[ name := VList args ]} (Some global_env)).
  split; [apply lookup_with_env |]. split; [reflexivity | by left].
Qed.

Lemma or_macro_call st args R :
  macros_loaded st ->
  pure_eval 9 {[ "args" := VList args ]} core_bindings (body_of or_macro) = Some R ->
  forall d s, (12 <= d)%nat -> (9 <= s)%nat ->
  call d s or_macro args st
  = Ret R (with_env (mkEnv {[ "args" := VList args ]} (Some global_env)) st).
Proof.
  intros [HG _] HR d s Hd Hs.
  apply (call_lift 12 9); [| auto with approx | done | done].
  exact (call_pure_procedure core_bindings "args" _ args st R 9 0 0 HG HR).
Qed.

Lemma expand_literal d s c t st : is_literal c = true -> expand (S d) s c t st = Ret c st.
Proof. destruct c; try discriminate; reflexivity. Qed.

Lemma eval_literal_value d s c env st :
  is_literal c = true -> eval (S d) (S s) c env st = Ret c st.
Proof. destruct c; try discriminate; reflexivity. Qed.

Lemma expand_macro_use d s name m args t st :
  is_special (VSym name) = false -> is_sym "define-macro" (VSym name) = false ->
  is_sym "quasiquote" (VSym name) = false ->
  macro_table st !! name = Some m ->
  expand (S d) s (VList (VSym name :: args)) t st
  = bind (call d s m args st) (fun r st' => expand d s r t st').
Proof.
  unfold is_special. intros H Hdm Hqq Hm.
  repeat (apply orb_false_elim in H; destruct H as [H ?]).
  rewrite expand_unfold. unfold expand_form.
  rewrite H, H0, H1, H2, H3, H4, H5, Hdm, Hqq. cbn [orb is_Symbol py_str mbind option_bind].
  rewrite Hm. reflexivity.
Qed.

Lemma expand_not d s c st :
  is_literal c = true -> macro_table st !! "not" = None ->
  expand (S (S d)) s (VList [VSym "not"; c]) false st = Ret (VList [VSym "not"; c]) st.
Proof.
  intros Hc Hn. rewrite expand_unfold. unfold expand_form.
  cbn [is_sym String.eqb Ascii.eqb Bool.eqb orb is_Symbol py_str mbind option_bind].
  rewrite Hn. cbn [mapM]. change (expand (S d) s (VSym "not") false st) with (Ret (S := state) (VSym "not") st).
  cbn [bind]. rewrite (expand_literal _ _ _ _ _ Hc). reflexivity.
Qed.

Lemma expand_if d s a b c t st :
  expand (S d) s (VList [_if; a; b; c]) t st
  = bind (mapM (fun xi => expand d s xi false) [_if; a; b; c] st)
         (fun l st' => Ret (VList l) st').
Proof. reflexivity. Qed.

Lemma expand_or cs :
  Forall (fun c => is_literal c = true) cs ->
  forall st t, macros_loaded st ->
  exists D S0 st',
    expand D S0 (VList (VSym "or" :: cs)) t st = Ret (or_form cs) st' /\ macros_loaded st'.
Proof.
  induction cs as [| c1 cs IH]; intros Hcs st t Hst.
  - exists 14%nat, 9%nat, (with_env (mkEnv {[ "args" := VList [] ]} (Some global_env)) st).
    split; [| by apply macros_loaded_with_env].
    rewrite (expand_macro_use _ _ "or" or_macro); [| done | done | done | apply Hst].
    rewrite (or_macro_call st [] (VBool false) Hst); [reflexivity | | lia | lia].
    apply (or_body_none 0).
  - inversion Hcs as [| ? ? Hc1 Hcs']; subst.
    destruct cs as [| c2 rest].
    + exists 14%nat, 9%nat, (with_env (mkEnv {[ "args" := VList [c1] ]} (Some global_env)) st).
      split; [| by apply macros_loaded_with_env].
      rewrite (expand_macro_use _ _ "or" or_macro); [| done | done | done | apply Hst].
      rewrite (or_macro_call st [c1] c1 Hst); [| apply (or_body_one 0) | lia | lia].
      cbn [bind]. by apply expand_literal.
    + set (st1 := with_env (mkEnv {[ "args" := VList (c1 :: c2 :: rest) ]} (Some global_env)) st).
      assert (Hst1 : macros_loaded st1) by by apply macros_loaded_with_env.
      destruct (IH Hcs' st1 false Hst1) as (D' & S' & st2 & Hex & Hst2).
      remember (Nat.max D' 12) as D2 eqn:HD2.
      destruct D2 as [| [| k]]; [lia | lia |].
      exists (S (S (S (S k)))), (Nat.max S' 9), st2. split; [| exact Hst2].
      rewrite (expand_macro_use _ _ "or" or_macro); [| done | done | done | apply Hst].
      rewrite (or_macro_call st (c1 :: c2 :: rest) _ Hst (or_body_two 0 c1 c2 rest)); [| lia | lia].
      cbn [bind]. fold st1. rewrite expand_if. cbn [mapM].
      change (expand (S (S k)) (Nat.max S' 9) _if false st1)
        with (Ret (S := state) _if st1).
      cbn [bind]. rewrite expand_not; [| exact Hc1 | apply Hst1].
      cbn [bind].
      rewrite (expand_lift D' S' _ _ _ _ _ _ Hex); [| auto with approx | lia | lia].
      cbn [bind]. reflexivity.
Qed.

Lemma and_template f c1 c2 rest :
  pure_eval (7 + f) {[ "args" := VList (c1 :: c2 :: rest) ]} core_bindings
    (template_of and_macro)
  = Some (VList [_if; c1; VList (VSym "and" :: c2 :: rest); VBool false]).
Proof.
  transitivity (Some (VList [_if; c1; VList (VSym "and" :: c2 :: (rest ++ [])); VBool false]));
    [vm_compute; reflexivity | by rewrite app_nil_r].
Qed.

Lemma and_body_two f c1 c2 rest :
  pure_eval (9 + f) {[ "args" := VList (c1 :: c2 :: rest) ]} core_bindings (body_of and_macro)
  = Some (VList [_if; c1; VList (VSym "and" :: c2 :: rest); VBool false]).
Proof.
  destruct (args_tests (5 + f) c1 c2 rest) as [H1 _].
  destruct (args_tests (3 + f) c1 c2 rest) as [_ H2].
  change (9 + f)%nat with (S (3 + (5 + f))).
  unfold body_of, and_macro.
  rewrite pure_eval_if, H1. cbn [mbind option_bind truthy].
  change (3 + (5 + f))%nat with (S (4 + (3 + f))).
  rewrite pure_eval_if, H2. cbn [mbind option_bind truthy].
  exact (and_template f c1 c2 rest).
Qed.

Lemma and_body_one f c :
  pure_eval (9 + f) {[ "args" := VList [c] ]} core_bindings (body_of and_macro) = Some c.
Proof. vm_compute. reflexivity. Qed.

Lemma and_body_none f :
  pure_eval (9 + f) {[ "args" := VList [] ]} core_bindings (body_of and_macro)
  = Some (VBool true).
Proof. vm_compute. reflexivity. Qed.

Lemma and_macro_call st args R :
  macros_loaded st ->
  pure_eval 9 {[ "args" := VList args ]} core_bindings (body_of and_macro) = Some R ->
  forall d s, (12 <= d)%nat -> (9 <= s)%nat ->
  call d s and_macro args st
  = Ret R (with_env (mkEnv {[ "args" := VList args ]} (Some global_env)) st).
Proof.
  intros [HG _] HR d s Hd Hs.
  apply (call_lift 12 9); [| auto with approx | done | done].
  exact (call_pure_procedure core_bindings "args" _ args st R 9 0 0 HG HR).
Qed.

Lemma expand_and cs :
  Forall (fun c => is_literal c = true) cs ->
  forall st t, macros_loaded st ->
  exists D S0 st',
    expand D S0 (VList (VSym "and" :: cs)) t st = Ret (and_form cs) st' /\ macros_loaded st'.
Proof.
  induction cs as [| c1 cs IH]; intros Hcs st t Hst.
  - exists 14%nat, 9%nat, (with_env (mkEnv {[ "args" := VList [] ]} (Some global_env)) st).
    split; [| by apply macros_loaded_with_env].
    rewrite (expand_macro_use _ _ "and" and_macro); [| done | done | done | apply Hst].
    rewrite (and_macro_call st [] (VBool true) Hst); [reflexivity | | lia | lia].
    apply (and_body_none 0).
  - inversion Hcs as [| ? ? Hc1 Hcs']; subst.
    destruct cs as [| c2 rest].
    + exists 14%nat, 9%nat, (with_env (mkEnv {[ "args" := VList [c1] ]} (Some global_env)) st).
      split; [| by apply macros_loaded_with_env].
      rewrite (expand_macro_use _ _ "and" and_macro); [| done | done | done | apply Hst].
      rewrite (and_macro_call st [c1] c1 Hst); [| apply (and_body_one 0) | lia | lia].
      cbn [bind]. by apply expand_literal.
    + set (st1 := with_env (mkEnv {[ "args" := VList (c1 :: c2 :: rest) ]} (Some global_env)) st).
      assert (Hst1 : macros_loaded st1) by by apply macros_loaded_with_env.
      destruct (IH Hcs' st1 false Hst1) as (D' & S' & st2 & Hex & Hst2).
      remember (Nat.max D' 12) as D2 eqn:HD2.
      destruct D2 as [| [| k]]; [lia | lia |].
      exists (S (S (S (S k)))), (Nat.max S' 9), st2. split; [| exact Hst2].
      rewrite (expand_macro_use _ _ "and" and_macro); [| done | done | done | apply Hst].
      rewrite (and_macro_call st (c1 :: c2 :: rest) _ Hst (and_body_two 0 c1 c2 rest)); [| lia | lia].
      cbn [bind]. fold st1. rewrite expand_if. cbn [mapM].
      change (expand (S (S k)) (Nat.max S' 9) _if false st1)
        with (Ret (S := state) _if st1).
      cbn [bind]. rewrite (expand_literal _ _ _ _ _ Hc1).
      cbn [bind].
      rewrite (expand_lift D' S' _ _ _ _ _ _ Hex); [| auto with approx | lia | lia].
      cbn [bind]. reflexivity.
Qed.

(** The evaluation of the expansions. *)
Lemma eval_not d s c st :
  global_has core_bindings st -> is_literal c = true ->
  eval (S (S (S d))) (S (S s)) (VList [VSym "not"; c]) global_env st
  = Ret (VBool (negb (truthy c))) st.
Proof.
  intros (Ge & HG & Hall) Hc.
  assert (Hnot : storage Ge !! "not" = Some (VPrim PNot)).
  { rewrite Forall_forall in Hall. apply (Hall ("not", VPrim PNot)).
    apply list_elem_of_In. unfold core_bindings. simpl. tauto. }
  rewrite (eval_native _ _ _ _ _ _ PNot [c] st); [| reflexivity |].
  - rewrite call_unfold. unfold call_proc, native, native_result. reflexivity.
  - cbn [mapM]. rewrite (eval_sym_local _ _ "not" global_env st Ge _ HG Hnot). cbn [bind].
    rewrite (eval_literal_value _ _ _ _ _ Hc). reflexivity.
Qed.

Lemma eval_not_at d s c st :
  global_has core_bindings st -> is_literal c = true ->
  (3 <= d)%nat -> (2 <= s)%nat ->
  eval d s (VList [VSym "not"; c]) global_env st = Ret (VBool (negb (truthy c))) st.
Proof.
  intros Hst Hc Hd Hs.
  apply (eval_lift 3 2); [by apply eval_not | auto with approx | done | done].
Qed.

Lemma eval_or_form cs :
  Forall (fun c => is_literal c = true) cs ->
  forall st d s, global_has core_bindings st ->
  eval (4 + d) (length cs + 2 + s) (or_form cs) global_env st = Ret (or_value cs) st.
Proof.
  induction cs as [| c1 cs IH]; intros Hcs st d s Hst; [reflexivity |].
  inversion Hcs as [| ? ? Hc1 Hcs']; subst.
  destruct cs as [| c2 rest]; [by apply eval_literal_value |].
  specialize (IH Hcs' st d s Hst).
  change (length (c1 :: c2 :: rest) + 2 + s)%nat with (S (length (c2 :: rest) + 2 + s)).
  remember (length (c2 :: rest) + 2 + s)%nat as k eqn:Hk.
  change (4 + d)%nat with (S (S (S (S d)))) in *.
  change (or_form (c1 :: c2 :: rest))
    with (VList [_if; VList [VSym "not"; c1]; or_form (c2 :: rest); VBool true]).
  rewrite eval_unfold. unfold eval_turn.
  cbn [is_Symbol is_sym String.eqb Ascii.eqb Bool.eqb].
  rewrite (eval_not_at _ _ _ _ Hst Hc1); [| lia | simpl in Hk; lia]. cbn [bind truthy].
  change (or_value (c1 :: c2 :: rest))
    with (if truthy c1 then VBool true else or_value (c2 :: rest)).
  destruct (truthy c1); cbn [negb].
  - destruct k; [simpl in Hk; lia | reflexivity].
  - exact IH.
Qed.

Lemma eval_and_form cs :
  Forall (fun c => is_literal c = true) cs ->
  forall st d s, global_has core_bindings st ->
  eval (4 + d) (length cs + 2 + s) (and_form cs) global_env st = Ret (and_value cs) st.
Proof.
  induction cs as [| c1 cs IH]; intros Hcs st d s Hst; [reflexivity |].
  inversion Hcs as [| ? ? Hc1 Hcs']; subst.
  destruct cs as [| c2 rest]; [by apply eval_literal_value |].
  specialize (IH Hcs' st d s Hst).
  change (length (c1 :: c2 :: rest) + 2 + s)%nat with (S (length (c2 :: rest) + 2 + s)).
  remember (length (c2 :: rest) + 2 + s)%nat as k eqn:Hk.
  change (4 + d)%nat with (S (S (S (S d)))) in *.
  change (and_form (c1 :: c2 :: rest))
    with (VList [_if; c1; and_form (c2 :: rest); VBool false]).
  rewrite eval_unfold. unfold eval_turn.
  cbn [is_Symbol is_sym String.eqb Ascii.eqb Bool.eqb].
  destruct k as [| k']; [simpl in Hk; lia |].
  rewrite (eval_literal_value _ _ _ _ _ Hc1). cbn [bind].
  change (and_value (c1 :: c2 :: rest))
    with (if truthy c1 then and_value (c2 :: rest) else VBool false).
  destruct (truthy c1); [exact IH | reflexivity].
Qed.

Lemma or_value_true cs : existsb truthy (removelast cs) = true -> or_value cs = VBool true.
Proof.
  induction cs as [| c1 cs IH]; [discriminate |].
  destruct cs as [| c2 rest]; [discriminate |].
  change (removelast (c1 :: c2 :: rest)) with (c1 :: removelast (c2 :: rest)).
  change (or_value (c1 :: c2 :: rest))
    with (if truthy c1 then VBool true else or_value (c2 :: rest)).
  cbn [existsb]. destruct (truthy c1); [reflexivity |]. exact IH.
Qed.

Lemma and_value_false cs :
  existsb (fun c => negb (truthy c)) (removelast cs) = true -> and_value cs = VBool false.
Proof.
  induction cs as [| c1 cs IH]; [discriminate |].
  destruct cs as [| c2 rest]; [discriminate |].
  change (removelast (c1 :: c2 :: rest)) with (c1 :: removelast (c2 :: rest)).
  change (and_value (c1 :: c2 :: rest))
    with (if truthy c1 then and_value (c2 :: rest) else VBool false).
  cbn [existsb]. destruct (truthy c1); [exact IH | reflexivity].
Qed.

(** One turn of the expansion of [or], for any test [e] and any rest [X]. *)
Lemma eval_or_step d s e X env st v st' :
  eval d s (VSym "not") env st = Ret (VPrim PNot) st ->
  eval d s e env st = Ret v st' ->
  eval (S (S d)) (S (S s)) (VList [_if; VList [VSym "not"; e]; X; VBool true]) env st
  = if truthy v then Ret (VBool true) st' else eval (S (S d)) (S s) X env st'.
Proof.
  intros Hnot He.
  destruct d as [| d']; [discriminate |].
  rewrite eval_unfold. unfold eval_turn.
  cbn [is_Symbol is_sym String.eqb Ascii.eqb Bool.eqb].
  rewrite (eval_native _ _ _ _ _ _ PNot [v] st'); [| reflexivity |].
  - rewrite call_unfold. unfold call_proc, native, native_result.
    cbn [is_native one bind]. destruct (truthy v); reflexivity.
  - cbn [mapM]. rewrite Hnot. cbn [bind]. rewrite He. reflexivity.
Qed.

(** One turn of the expansion of [and]. *)
Lemma eval_and_step d s e X env st v st' :
  eval d s e env st = Ret v st' ->
  eval (S d) (S s) (VList [_if; e; X; VBool false]) env st
  = if truthy v then eval (S d) s X env st' else Ret (VBool false) st'.
Proof.
  intros He.
  destruct s as [| s']; [by destruct d |].
  rewrite eval_unfold. unfold eval_turn.
  cbn [is_Symbol is_sym String.eqb Ascii.eqb Bool.eqb].
  rewrite He. cbn [bind]. destruct (truthy v); reflexivity.
Qed.

Lemma expand_eval_or cs st :
  macros_loaded st -> Forall (fun c => is_literal c = true) cs ->
  exists D S0 st', forall d s,
    expand_eval (D + d) (S0 + s) (VList (VSym "or" :: cs)) st = Ret (or_value cs) st'.
Proof.
  intros Hst Hcs.
  destruct (expand_or cs Hcs st true Hst) as (D & S0 & st' & Hex & Hst').
  exists (Nat.max D 4), (Nat.max S0 (length cs + 2)), st'. intros d s.
  unfold expand_eval.
  rewrite (expand_lift D S0 _ _ _ _ _ _ Hex); [| auto with approx | lia | lia].
  cbn [bind].
  apply (eval_lift (4 + 0) (length cs + 2 + 0)); [| auto with approx | lia | lia].
  apply (eval_or_form cs Hcs). apply Hst'.
Qed.

Lemma expand_eval_and cs st :
  macros_loaded st -> Forall (fun c => is_literal c = true) cs ->
  exists D S0 st', forall d s,
    expand_eval (D + d) (S0 + s) (VList (VSym "and" :: cs)) st = Ret (and_value cs) st'.
Proof.
  intros Hst Hcs.
  destruct (expand_and cs Hcs st true Hst) as (D & S0 & st' & Hex & Hst').
  exists (Nat.max D 4), (Nat.max S0 (length cs + 2)), st'. intros d s.
  unfold expand_eval.
  rewrite (expand_lift D S0 _ _ _ _ _ _ Hex); [| auto with approx | lia | lia].
  cbn [bind].
  apply (eval_lift (4 + 0) (length cs + 2 + 0)); [| auto with approx | lia | lia].
  apply (eval_and_form cs Hcs). apply Hst'.
Qed.

Lemma expand_or_step st e1 e2 rest t d s :
  macros_loaded st ->
  expand (13 + d) (9 + s) (VList (VSym "or" :: e1 :: e2 :: rest)) t st
  = expand (12 + d) (9 + s)
      (VList [_if; VList [VSym "not"; e1]; VList (VSym "or" :: e2 :: rest); VBool true]) t
      (with_env (mkEnv {[ "args" := VList (e1 :: e2 :: rest) ]} (Some global_env)) st).
Proof.
  intros Hst. change (13 + d)%nat with (S (12 + d)).
  rewrite (expand_macro_use _ _ "or" or_macro); [| done | done | done | apply Hst].
  by rewrite (or_macro_call st (e1 :: e2 :: rest) _ Hst (or_body_two 0 e1 e2 rest)); [| lia | lia].
Qed.

Lemma expand_and_step st e1 e2 rest t d s :
  macros_loaded st ->
  expand (13 + d) (9 + s) (VList (VSym "and" :: e1 :: e2 :: rest)) t st
  = expand (12 + d) (9 + s)
      (VList [_if; e1; VList (VSym "and" :: e2 :: rest); VBool false]) t
      (with_env (mkEnv {[ "args" := VList (e1 :: e2 :: rest) ]} (Some global_env)) st).
Proof.
  intros Hst. change (13 + d)%nat with (S (12 + d)).
  rewrite (expand_macro_use _ _ "and" and_macro); [| done | done | done | apply Hst].
  by rewrite (and_macro_call st (e1 :: e2 :: rest) _ Hst (and_body_two 0 e1 e2 rest)); [| lia | lia].
Qed.

Lemma expand_sym d s name t st : expand (S d) s (VSym name) t st = Ret (VSym name) st.
Proof. reflexivity. Qed.

Lemma expand_bool d s b t st : expand (S d) s (VBool b) t st = Ret (VBool b) st.
Proof. reflexivity. Qed.

Lemma expand_not_form d s e st :
  macro_table st !! "not" = None ->
  expand (S (S d)) s (VList [VSym "not"; e]) false st
  = bind (expand (S d) s e false st) (fun e' st' => Ret (VList [VSym "not"; e']) st').
Proof.
  intros Hn. rewrite expand_unfold. unfold expand_form.
  cbn [is_sym String.eqb Ascii.eqb Bool.eqb orb is_Symbol py_str mbind option_bind].
  rewrite Hn. cbn [mapM]. rewrite expand_sym. cbn [bind].
  by destruct (expand (S d) s e false st).
Qed.

Lemma args_expand_length d s t es st es' st' :
  args_expand d s t es st es' st' -> length es' = length es.
Proof. induction 1 as [| | ? ? ? ? ? ? ? ? ? ? ? ? IH]; cbn [length] in *; [done | done | by rewrite IH]. Qed.

Lemma expand_or_forms d s t es st es' st' :
  args_expand d s t es st es' st' ->
  exists D S0, forall d' s',
    expand (D + d') (S0 + s') (VList (VSym "or" :: es)) t st = Ret (or_form es') st'.
Proof.
  induction 1 as [t st Hst | t e st e' st' Hst He
                  | t e1 e2 r st e1' st1 es' st2 Hst He1 Hrest IH].
  - exists 14%nat, 9%nat. intros d' s'.
    change (14 + d')%nat with (S (13 + d')).
    rewrite (expand_macro_use _ _ "or" or_macro); [| done | done | done | apply Hst].
    rewrite (or_macro_call st [] (VBool false) Hst); [reflexivity | | lia | lia].
    apply (or_body_none 0).
  - exists (14 + d)%nat, (9 + s)%nat. intros d' s'.
    change (14 + d + d')%nat with (S (13 + d + d')).
    rewrite (expand_macro_use _ _ "or" or_macro); [| done | done | done | apply Hst].
    rewrite (or_macro_call st [e] e Hst); [| apply (or_body_one 0) | lia | lia].
    cbn [bind]. apply (expand_lift d s); [exact He | auto with approx | lia | lia].
  - destruct IH as (D & S0 & IH).
    exists (16 + d + D)%nat, (9 + s + S0)%nat. intros d' s'.
    remember (12 + d + D + d')%nat as k eqn:Hk.
    replace (16 + d + D + d')%nat with (S (S (S (S k)))) by lia.
    remember (9 + s + S0 + s')%nat as k2 eqn:Hk2.
    rewrite (expand_macro_use _ _ "or" or_macro); [| done | done | done | apply Hst].
    rewrite (or_macro_call st (e1 :: e2 :: r) _ Hst (or_body_two 0 e1 e2 r)); [| lia | lia].
    cbn [bind]. fold (args_frame (e1 :: e2 :: r)).
    rewrite expand_if. cbn [mapM]. unfold _if, Sym. rewrite expand_sym. cbn [bind].
    rewrite expand_not_form; [| apply Hst].
    rewrite (expand_lift d s _ _ _ _ _ _ He1); [| auto with approx | lia | lia].
    cbn [bind].
    assert (Hx : expand (S (S k)) k2 (VList (VSym "or" :: e2 :: r)) false st1
                 = Ret (or_form es') st2).
    { replace (S (S k)) with (D + (14 + d + d'))%nat by lia.
      replace k2 with (S0 + (9 + s + s'))%nat by lia. apply IH. }
    rewrite Hx. cbn [bind]. rewrite expand_bool. cbn [bind].
    pose proof (args_expand_length _ _ _ _ _ _ _ Hrest) as Hlen.
    destruct es' as [| e2' es'']; [discriminate Hlen |]. reflexivity.
Qed.

Lemma expand_and_forms d s t es st es' st' :
  args_expand d s t es st es' st' ->
  exists D S0, forall d' s',
    expand (D + d') (S0 + s') (VList (VSym "and" :: es)) t st = Ret (and_form es') st'.
Proof.
  induction 1 as [t st Hst | t e st e' st' Hst He
                  | t e1 e2 r st e1' st1 es' st2 Hst He1 Hrest IH].
  - exists 14%nat, 9%nat. intros d' s'.
    change (14 + d')%nat with (S (13 + d')).
    rewrite (expand_macro_use _ _ "and" and_macro); [| done | done | done | apply Hst].
    rewrite (and_macro_call st [] (VBool true) Hst); [reflexivity | | lia | lia].
    apply (and_body_none 0).
  - exists (14 + d)%nat, (9 + s)%nat. intros d' s'.
    change (14 + d + d')%nat with (S (13 + d + d')).
    rewrite (expand_macro_use _ _ "and" and_macro); [| done | done | done | apply Hst].
    rewrite (and_macro_call st [e] e Hst); [| apply (and_body_one 0) | lia | lia].
    cbn [bind]. apply (expand_lift d s); [exact He | auto with approx | lia | lia].
  - destruct IH as (D & S0 & IH).
    exists (16 + d + D)%nat, (9 + s + S0)%nat. intros d' s'.
    remember (12 + d + D + d')%nat as k eqn:Hk.
    replace (16 + d + D + d')%nat with (S (S (S (S k)))) by lia.
    remember (9 + s + S0 + s')%nat as k2 eqn:Hk2.
    rewrite (expand_macro_use _ _ "and" and_macro); [| done | done | done | apply Hst].
    rewrite (and_macro_call st (e1 :: e2 :: r) _ Hst (and_body_two 0 e1 e2 r)); [| lia | lia].
    cbn [bind]. fold (args_frame (e1 :: e2 :: r)).
    rewrite expand_if. cbn [mapM]. unfold _if, Sym. rewrite expand_sym. cbn [bind].
    rewrite (expand_lift d s _ _ _ _ _ _ He1); [| auto with approx | lia | lia].
    cbn [bind].
    assert (Hx : expand (S (S k)) k2 (VList (VSym "and" :: e2 :: r)) false st1
                 = Ret (and_form es') st2).
    { replace (S (S k)) with (D + (14 + d + d'))%nat by lia.
      replace k2 with (S0 + (9 + s + s'))%nat by lia. apply IH. }
    rewrite Hx. cbn [bind]. rewrite expand_bool. cbn [bind].
    pose proof (args_expand_length _ _ _ _ _ _ _ Hrest) as Hlen.
    destruct es' as [| e2' es'']; [discriminate Hlen |]. reflexivity.
Qed.

Lemma eval_or_decides d s env es st st' :
  or_decides d s env es st st' ->
  forall s', eval (2 + d) (length es + 1 + s + s') (or_form es) env st = Ret (VBool true) st'.
Proof.
  induction 1 as [e rest st v st1 Hrest Hnot He Hv
                  | e rest st v st1 st2 Hnot He Hv Hdec IH]; intros s'.
  - destruct rest as [| e2 rest]; [done |].
    change (or_form (e :: e2 :: rest))
      with (VList [_if; VList [VSym "not"; e]; or_form (e2 :: rest); VBool true]).
    remember (length rest + 1 + s + s')%nat as k eqn:Hk.
    replace (length (e :: e2 :: rest) + 1 + s + s')%nat with (S (S k))
      by (cbn [length]; lia).
    change (2 + d)%nat with (S (S d)).
    rewrite (eval_or_step d k e _ env st v st1), Hv; [done | |].
    + apply (eval_lift d s); [done | auto with approx | lia | lia].
    + apply (eval_lift d s); [done | auto with approx | lia | lia].
  - assert (Hne : rest <> []) by (by destruct Hdec).
    destruct rest as [| e2 rest]; [done |].
    change (or_form (e :: e2 :: rest))
      with (VList [_if; VList [VSym "not"; e]; or_form (e2 :: rest); VBool true]).
    remember (length rest + 1 + s + s')%nat as k eqn:Hk.
    replace (length (e :: e2 :: rest) + 1 + s + s')%nat with (S (S k))
      by (cbn [length]; lia).
    change (2 + d)%nat with (S (S d)).
    rewrite (eval_or_step d k e _ env st v st1), Hv.
    + replace (S k) with (length (e2 :: rest) + 1 + s + s')%nat by (cbn [length]; lia).
      apply IH.
    + apply (eval_lift d s); [done | auto with approx | lia | lia].
    + apply (eval_lift d s); [done | auto with approx | lia | lia].
Qed.

Lemma eval_and_decides d s env es st st' :
  and_decides d s env es st st' ->
  forall s', eval (1 + d) (length es + s + s') (and_form es) env st = Ret (VBool false) st'.
Proof.
  induction 1 as [e rest st v st1 Hrest He Hv
                  | e rest st v st1 st2 He Hv Hdec IH]; intros s'.
  - destruct rest as [| e2 rest]; [done |].
    change (and_form (e :: e2 :: rest))
      with (VList [_if; e; and_form (e2 :: rest); VBool false]).
    remember (length rest + 1 + s + s')%nat as k eqn:Hk.
    replace (length (e :: e2 :: rest) + s + s')%nat with (S k) by (cbn [length]; lia).
    change (1 + d)%nat with (S d).
    rewrite (eval_and_step d k e _ env st v st1), Hv; [done |].
    apply (eval_lift d s); [done | auto with approx | lia | lia].
  - assert (Hne : rest <> []) by (by destruct Hdec).
    destruct rest as [| e2 rest]; [done |].
    change (and_form (e :: e2 :: rest))
      with (VList [_if; e; and_form (e2 :: rest); VBool false]).
    remember (length rest + 1 + s + s')%nat as k eqn:Hk.
    replace (length (e :: e2 :: rest) + s + s')%nat with (S k) by (cbn [length]; lia).
    change (1 + d)%nat with (S d).
    rewrite (eval_and_step d k e _ env st v st1), Hv.
    + replace k with (length (e2 :: rest) + s + s')%nat by (cbn [length]; lia).
      apply IH.
    + apply (eval_lift d s); [done | auto with approx | lia | lia].
Qed.

Lemma expand_eval_decided (name : string) (form : list value -> value) r d s es st es' st1 st2 :
  (exists D S0, forall d' s',
     expand (D + d') (S0 + s') (VList (VSym name :: es)) true st = Ret (form es') st1) ->
  (forall s', eval (2 + d) (length es' + 1 + s + s') (form es') global_env st1 = Ret r st2) ->
  exists D S0, forall d' s',
    expand_eval (D + d') (S0 + s') (VList (VSym name :: es)) st = Ret r st2.
Proof.
  intros (D & S0 & Hx) He.
  exists (D + (2 + d))%nat, (S0 + (length es' + 1 + s))%nat. intros d' s'.
  unfold expand_eval.
  replace (D + (2 + d) + d')%nat with (D + (2 + d + d'))%nat by lia.
  replace (S0 + (length es' + 1 + s) + s')%nat
    with (S0 + (length es' + 1 + s + s'))%nat by lia.
  rewrite Hx. cbn [bind].
  apply (eval_lift (2 + d) (length es' + 1 + s + 0)); [apply He | auto with approx | lia | lia].
Qed.

(** C10: the builtin macros [or] and [and] give a boolean, not the value
    of the argument that decides. For any argument forms, a use of [or]
    expands to [(if (not e1) (or e2 ...) #t)], with the forms expanded,
    and a use of [and] to [(if e1 (and e2 ...) #f)]. When an argument of
    [or] before the last one evaluates to a true value, those before it
    giving false values, the whole form evaluates to [#t], PROVIDED that
    [not] is the procedure of [add_globals] where the expansion is
    evaluated: the expansion calls it by its name. When an argument of
    [and] before the last one evaluates to a false value (0, the empty
    list, ...), those before it giving true values, the whole form
    evaluates to [#f]. The arguments are any forms; for literal
    arguments the two hold in every store that has the builtin macros. *)
Theorem or_and_yield_booleans (d s : nat) :
  (forall t es st es' st1,
     args_expand d s t es st es' st1 ->
     exists D S0, forall d' s',
       expand (D + d') (S0 + s') (VList (VSym "or" :: es)) t st = Ret (or_form es') st1)
  /\ (forall env es' st1 st2,
        or_decides d s env es' st1 st2 ->
        forall s', eval (2 + d) (length es' + 1 + s + s') (or_form es') env st1
                   = Ret (VBool true) st2)
  /\ (forall es st es' st1 st2,
        args_expand d s true es st es' st1 -> or_decides d s global_env es' st1 st2 ->
        exists D S0, forall d' s',
          expand_eval (D + d') (S0 + s') (VList (VSym "or" :: es)) st = Ret (VBool true) st2)
  /\ (forall t es st es' st1,
        args_expand d s t es st es' st1 ->
        exists D S0, forall d' s',
          expand (D + d') (S0 + s') (VList (VSym "and" :: es)) t st = Ret (and_form es') st1)
  /\ (forall env es' st1 st2,
        and_decides d s env es' st1 st2 ->
        forall s', eval (1 + d) (length es' + s + s') (and_form es') env st1
                   = Ret (VBool false) st2)
  /\ (forall es st es' st1 st2,
        args_expand d s true es st es' st1 -> and_decides d s global_env es' st1 st2 ->
        exists D S0, forall d' s',
          expand_eval (D + d') (S0 + s') (VList (VSym "and" :: es)) st = Ret (VBool false) st2)
  /\ (forall st cs, macros_loaded st -> Forall (fun c => is_literal c = true) cs ->
        existsb truthy (removelast cs) = true ->
        exists D S0 st', forall d' s',
          expand_eval (D + d') (S0 + s') (VList (VSym "or" :: cs)) st = Ret (VBool true) st')
  /\ (forall st cs, macros_loaded st -> Forall (fun c => is_literal c = true) cs ->
        existsb (fun c => negb (truthy c)) (removelast cs) = true ->
        exists D S0 st', forall d' s',
          expand_eval (D + d') (S0 + s') (VList (VSym "and" :: cs)) st = Ret (VBool false) st').
Proof.
  split; [intros; by eapply expand_or_forms |].
  split; [intros; by apply eval_or_decides |].
  split.
  { intros es st es' st1 st2 Hx Hd.
    apply (expand_eval_decided "or" or_form (VBool true) d s es st es' st1 st2).
    - by eapply expand_or_forms.
    - intros s'. by apply eval_or_decides. }
  split; [intros; by eapply expand_and_forms |].
  split; [intros; by apply eval_and_decides |].
  split.
  { intros es st es' st1 st2 Hx Hd.
    apply (expand_eval_decided "and" and_form (VBool false) d s es st es' st1 st2).
    - by eapply expand_and_forms.
    - intros s'.
      apply (eval_lift (1 + d) (length es' + s + s'));
        [by apply eval_and_decides | auto with approx | lia | lia]. }
  split.
  - intros st cs Hst Hcs Hex. rewrite <- (or_value_true cs Hex). by apply expand_eval_or.
  - intros st cs Hst Hcs Hex. rewrite <- (and_value_false cs Hex). by apply expand_eval_and.
Qed.

Lemma macros_loaded_initial_state : macros_loaded initial_state.
Proof.
  split; [| by vm_compute].
  eexists. split; [reflexivity |].
  repeat constructor.
Defined.

Lemma or_and_yield_booleans_witness :
  exists D S0, forall d' s',
    expand_eval (D + d') (S0 + s')
      (VList [VSym "or"; VList [VSym "+"; VInt 0; VInt 0]; VInt 1; VInt 2]) initial_state
    = Ret (VBool true)
        (with_env (args_frame [VInt 2])
           (with_env (args_frame [VInt 1; VInt 2])
              (with_env (args_frame [VList [VSym "+"; VInt 0; VInt 0]; VInt 1; VInt 2])
                 initial_state))).
Proof.
  refine (proj1 (proj2 (proj2 (or_and_yield_booleans 3 2))) _ _
            [VList [VSym "+"; VInt 0; VInt 0]; VInt 1; VInt 2] _ _ _ _).
  - eapply args_expand_more; [apply macros_loaded_initial_state | reflexivity |].
    eapply args_expand_more;
      [apply macros_loaded_with_env, macros_loaded_initial_state | reflexivity |].
    eapply args_expand_one; [| reflexivity].
    apply macros_loaded_with_env, macros_loaded_with_env, macros_loaded_initial_state.
  - eapply or_decides_later; [vm_compute; reflexivity | vm_compute; reflexivity | reflexivity |].
    eapply or_decides_here; [done | vm_compute; reflexivity | vm_compute; reflexivity
                            | reflexivity].
Defined.

(** Without the proviso of C10 the value is another one: where [not] is
    not the procedure of [add_globals], the expansion of [(or 1 2)] calls
    the closure that the program has bound to the name, and the value is
    [2]; where a procedure that the macro bodies call is another one, the
    expansion of [(and 0 2)] raises. *)
Lemma or_with_not_rebound :
  truthy (VInt 1) = true
  /\ answer_of (run 20 20 "(or 1 2)" not_rebound) = Value (VInt 2)
  /\ truthy (VInt 0) = false
  /\ answer_of (run 20 20 "(and 0 2)" car_rebound)
     = Error (SyntaxError (Some (VList [])) "Empty list can't be expanded").
Proof. repeat split; vm_compute; reflexivity. Qed.

(** ** A [cond] without a true clause *)

Lemma tests_false_cond_clauses (ev : evaluator) env cs : forall st st1,
  tests_false ev env cs st st1 -> cond_clauses ev env cs st = Ret None st1.
Proof.
  induction cs as [| c cs IH]; intros st st1 H; [by rewrite H |].
  destruct c as [| | | | | | [| test body] | | |]; try done.
  destruct H as (v & st2 & He & Hv & H). cbn [cond_clauses].
  rewrite He. cbn [bind]. rewrite Hv. by apply IH.
Qed.

Lemma tests_false_lift d s d' s' env cs : forall st st1,
  tests_false (eval d s) env cs st st1 -> (d <= d')%nat -> (s <= s')%nat ->
  tests_false (eval d' s') env cs st st1.
Proof.
  induction cs as [| c cs IH]; intros st st1 H Hd Hs; [done |].
  destruct c as [| | | | | | [| test body] | | |]; try done.
  destruct H as (v & st2 & He & Hv & H). exists v, st2.
  split; [| split; [done | by apply IH]].
  apply (eval_lift d s); [done | auto with approx | done | done].
Qed.

Lemma cond_clauses_taken_at (ev : evaluator) env cs1 test body rest : forall st st1 v st2 st3,
  tests_false ev env cs1 st st1 ->
  ev test env st1 = Ret v st2 -> truthy v = true ->
  forM (fun e => ev e env) (middle body) st2 = Ret () st3 ->
  cond_clauses ev env (cs1 ++ VList (test :: body) :: rest) st
  = Ret (Some (last_of test body)) st3.
Proof.
  induction cs1 as [| c cs1 IH]; intros st st1 v st2 st3 H He Hv Hb.
  - cbn [tests_false] in H. subst st1. cbn [app cond_clauses].
    rewrite He. cbn [bind]. rewrite Hv, Hb. reflexivity.
  - destruct c as [| | | | | | [| t0 b0] | | |]; try done.
    destruct H as (v0 & st0 & He0 & Hv0 & H). cbn [app cond_clauses].
    rewrite He0. cbn [bind]. rewrite Hv0. by apply (IH _ st1 v st2).
Qed.

(** The [cond] case of [eval] leaves the form as it is when no clause has
    a true test, and the loop turns again on the same form. So a [cond]
    never returns when the tests of all its clauses evaluate to values
    that count as false in the store where it starts and in every store
    that these evaluations lead to ([Inv] holds of these stores; the
    tests are any forms, and there may be no clause at all): with no
    budget does the model give a result, which is the program looping for
    ever. A test whose evaluation raises ends the loop with the
    exception; such a form is not of this kind. When the tests of the
    first clauses give false values and the next test a true one, the
    expressions of its clause before the last one are evaluated and the
    loop turns again on the last expression of the clause. *)
Theorem cond_without_true_clause_never_returns cs env :
  (forall (Inv : state -> Prop) d0 s0,
     (forall st0, Inv st0 ->
        exists st1, tests_false (eval d0 s0) env cs st0 st1 /\ Inv st1) ->
     forall st, Inv st ->
     forall d s, out_of_budget (eval d s (VList (_cond :: cs)) env st))
  /\ (forall test body rest d s st st1 v st2 st3,
        tests_false (eval d s) env cs st st1 ->
        eval d s test env st1 = Ret v st2 -> truthy v = true ->
        forM (fun e => eval d s e env) (middle body) st2 = Ret () st3 ->
        eval (S d) (S s) (VList (_cond :: cs ++ VList (test :: body) :: rest)) env st
        = eval (S d) s (last_of test body) env st3).
Proof.
  split.
  - intros Inv d0 s0 HInv st Hst d s. destruct d as [| d]; [by right |].
    revert st Hst. induction s as [| s IH]; intros st Hst; [by left |].
    rewrite eval_unfold. unfold eval_turn.
    cbn [is_Symbol is_sym _cond Sym String.eqb Ascii.eqb Bool.eqb].
    destruct (HInv st Hst) as (st1 & Hf & Hst1).
    assert (Hbig : cond_clauses (eval (Nat.max d d0) (Nat.max s s0)) env cs st = Ret None st1).
    { apply tests_false_cond_clauses. apply (tests_false_lift d0 s0); [done | lia | lia]. }
    destruct (cond_clauses_approx (eval d s) (eval (Nat.max d d0) (Nat.max s s0))
                (fun x e st' => eval_approx d (Nat.max d d0) s (Nat.max s s0) x e st'
                                  (Nat.le_max_l _ _) (Nat.le_max_l _ _)) env cs st)
      as [[H | H] | H].
    + rewrite H. by left.
    + rewrite H. by right.
    + rewrite H, Hbig. cbn [bind]. by apply IH.
  - intros test body rest d s st st1 v st2 st3 Hf He Hv Hb.
    rewrite eval_unfold. unfold eval_turn.
    cbn [is_Symbol is_sym _cond Sym String.eqb Ascii.eqb Bool.eqb].
    by rewrite (cond_clauses_taken_at _ env cs test body rest st st1 v st2 st3 Hf He Hv Hb).
Qed.

Lemma cond_without_true_clause_never_returns_witness :
  out_of_budget
    (eval 9 9 (VList [_cond; VList [VList [VSym "="; VInt 1; VInt 2]; VInt 1];
                      VList [VInt 0; VInt 2]]) global_env initial_state).
Proof.
  apply (proj1 (cond_without_true_clause_never_returns
                  [VList [VList [VSym "="; VInt 1; VInt 2]; VInt 1]; VList [VInt 0; VInt 2]]
                  global_env)
           (fun st => st = initial_state) 3%nat 2%nat); [| reflexivity].
  intros st0 ->. exists initial_state. split; [| reflexivity].
  exists (VBool false), initial_state. split; [vm_compute; reflexivity |].
  split; [reflexivity |].
  exists (VInt 0), initial_state. split; [reflexivity |]. split; reflexivity.
Defined.

(** ** The short form of definitions *)

Lemma returns_bind {S A B} (m : outcome S A) (k : A -> S -> outcome S B) :
  returns m = false -> returns (bind m k) = false.
Proof. by destruct m. Qed.

Lemma define_macro_below_top d : forall s v body t st,
  t = false \/ is_pair v = true ->
  returns (expand d s (VList (_definemacro :: v :: body)) t st) = false.
Proof.
  induction d as [| d IH]; intros s v body t st Ht; [reflexivity |].
  rewrite expand_unfold. unfold expand_form.
  cbn [is_sym _definemacro Sym String.eqb Ascii.eqb Bool.eqb orb].
  destruct body as [| e body]; [reflexivity |].
  cbn [length Nat.leb require bind nth skipn].
  destruct v as [| | | | | | [| f args] | | |];
    try (destruct Ht as [-> | Ht]; [| discriminate];
         destruct body; cbn [length Nat.eqb require bind is_Symbol]; try reflexivity;
         destruct (expand d s e false st); reflexivity).
  apply IH. by left.
Qed.

(** [(define (f args) body)] is rewritten as [(define f (lambda (args)
    body))] and expanded again, and the call that does so leaves the
    flag [toplevel] at its default, which is false. So the short form of
    [define-macro] is never expanded with success, not even at top level,
    where the long form is accepted: it is the syntax error of the
    top-level check. The short form of [define] is accepted. *)
Theorem define_macro_short_form_rejected d s f args body t st :
  returns (expand d s (VList (_definemacro :: VList (f :: args) :: body)) t st) = false
  /\ (forall c, is_Symbol f = true -> forallb is_Symbol args = true -> is_literal c = true ->
        expand (4 + d) s (VList [_definemacro; VList (f :: args); c]) true st
        = Raise (SyntaxError (Some (VList [_definemacro; f; VList [_lambda; VList args; c]]))
                   not_top_level) st
        /\ expand (4 + d) s (VList [_define; VList (f :: args); c]) t st
           = Ret (VList [_define; f; VList [_lambda; VList args; c]]) st).
Proof.
  split; [apply define_macro_below_top; by right |].
  intros c Hf Hargs Hc.
  change (4 + d)%nat with (S (S (S (S d)))). split.
  - rewrite expand_unfold. unfold expand_form.
    cbn [is_sym _definemacro Sym String.eqb Ascii.eqb Bool.eqb orb length Nat.leb require
         bind nth skipn].
    rewrite expand_unfold. unfold expand_form.
    cbn [is_sym _definemacro Sym String.eqb Ascii.eqb Bool.eqb orb length Nat.leb Nat.eqb
         require bind nth skipn].
    destruct f; try discriminate; cbn [is_Symbol require bind].
    + rewrite expand_unfold. unfold expand_form.
      cbn [is_sym _lambda Sym String.eqb Ascii.eqb Bool.eqb orb length Nat.leb Nat.eqb
           require bind nth skipn].
      rewrite Hargs. cbn [require bind]. rewrite (expand_literal _ _ _ _ _ Hc). reflexivity.
    + rewrite expand_unfold. unfold expand_form.
      cbn [is_sym _lambda Sym String.eqb Ascii.eqb Bool.eqb orb length Nat.leb Nat.eqb
           require bind nth skipn].
      rewrite Hargs. cbn [require bind]. rewrite (expand_literal _ _ _ _ _ Hc). reflexivity.
  - rewrite expand_unfold. unfold expand_form.
    cbn [is_sym _define Sym String.eqb Ascii.eqb Bool.eqb orb length Nat.leb require
         bind nth skipn].
    rewrite expand_unfold. unfold expand_form.
    cbn [is_sym _define Sym String.eqb Ascii.eqb Bool.eqb orb length Nat.leb Nat.eqb
         require bind nth skipn].
    destruct f; try discriminate; cbn [is_Symbol require bind].
    + rewrite expand_unfold. unfold expand_form.
      cbn [is_sym _lambda Sym String.eqb Ascii.eqb Bool.eqb orb length Nat.leb Nat.eqb
           require bind nth skipn].
      rewrite Hargs. cbn [require bind]. rewrite (expand_literal _ _ _ _ _ Hc). reflexivity.
    + rewrite expand_unfold. unfold expand_form.
      cbn [is_sym _lambda Sym String.eqb Ascii.eqb Bool.eqb orb length Nat.leb Nat.eqb
           require bind nth skipn].
      rewrite Hargs. cbn [require bind]. rewrite (expand_literal _ _ _ _ _ Hc). reflexivity.
Qed.

Lemma define_macro_short_form_rejected_witness :
  expand 4 0 (VList [_definemacro; VList [VSym "m"; VSym "x"]; VInt 1]) true initial_state
  = Raise (SyntaxError (Some (VList [_definemacro; VSym "m";
                                     VList [_lambda; VList [VSym "x"]; VInt 1]]))
             not_top_level) initial_state
  /\ expand 4 0 (VList [_define; VList [VSym "m"; VSym "x"]; VInt 1]) true initial_state
     = Ret (VList [_define; VSym "m"; VList [_lambda; VList [VSym "x"]; VInt 1]])
         initial_state.
Proof.
  apply (proj2 (define_macro_short_form_rejected 0 0 (VSym "m") [VSym "x"] [] true
                  initial_state) (VInt 1)); reflexivity.
Defined.

(** ** Assignment and definition *)

Lemma set_frame a name v st e :
  envs st !! a = Some e ->
  exists st2, set a name v st = Ret VNone st2
    /\ get a name st2 = Ret v st2
    /\ (forall b, b <> a -> envs st2 !! b = envs st !! b)
    /\ (forall e2, envs st2 !! a = Some e2 ->
          outer e2 = outer e /\ forall n, n <> name -> storage e2 !! n = storage e !! n)
    /\ macro_table st2 = macro_table st.
Proof.
  intros He. unfold set. rewrite He. eexists. split; [reflexivity |].
  assert (Hlt : (a < length (envs st))%nat) by (by apply lookup_lt_Some in He).
  split; [| split; [| split]].
  - unfold get. cbn [envs]. rewrite list_lookup_insert_eq; [| exact Hlt].
    cbn [storage]. by rewrite lookup_insert_eq.
  - intros b Hb. cbn [envs]. by rewrite list_lookup_insert_ne.
  - intros e2. cbn [envs]. rewrite list_lookup_insert_eq; [| exact Hlt].
    intros [= <-]. split; [reflexivity |]. intros n Hn. cbn [storage].
    by rewrite lookup_insert_ne.
  - reflexivity.
Qed.

(** [set!] first evaluates its expression and then looks for the
    variable from the current environment outwards: it assigns in the
    nearest environment that binds the variable, and raises the lookup
    error, with the effects of the expression done, when none does.
    [define] writes in the current environment whatever the outer ones
    bind. An assignment changes one variable of one environment and
    nothing else of the store. *)
Theorem assignment_and_definition st env l d s name exp v st1 :
  Scopes st1 env l -> (length l <= d)%nat ->
  eval d s exp env st = Ret v st1 ->
  eval (S d) (S s) (VList [_set; VSym name; exp]) env st
  = match List.find (binds st1 name) l with
    | Some a => set a name v st1
    | None => Raise (LookupError name) st1
    end
  /\ eval (S d) (S s) (VList [_define; VSym name; exp]) env st = set env name v st1
  /\ (forall a, In a l ->
        exists e st2, envs st1 !! a = Some e
          /\ set a name v st1 = Ret VNone st2
          /\ get a name st2 = Ret v st2
          /\ (forall b, b <> a -> envs st2 !! b = envs st1 !! b)
          /\ (forall e2, envs st2 !! a = Some e2 ->
                outer e2 = outer e
                /\ forall n, n <> name -> storage e2 !! n = storage e !! n)
          /\ macro_table st2 = macro_table st1).
Proof.
  intros Hl Hd He. split; [| split].
  - rewrite eval_unfold. unfold eval_turn.
    cbn [is_Symbol is_sym _set Sym String.eqb Ascii.eqb Bool.eqb].
    rewrite He. cbn [bind py_str].
    rewrite (find_nearest st1 env l d name Hl Hd).
    by destruct (List.find (binds st1 name) l).
  - rewrite eval_unfold. unfold eval_turn.
    cbn [is_Symbol is_sym _define Sym String.eqb Ascii.eqb Bool.eqb].
    rewrite He. reflexivity.
  - intros a Ha.
    assert (exists e, envs st1 !! a = Some e) as [e Hea].
    { clear -Hl Ha. induction Hl as [env e Hen Ho | env e o l Hen Ho Hl IH].
      - destruct Ha as [<- | []]. by exists e.
      - destruct Ha as [<- | Ha]; [by exists e | by apply IH]. }
    destruct (set_frame a name v st1 e Hea) as (st2 & H1 & H2 & H3 & H4 & H5).
    by exists e, st2.
Qed.

Lemma assignment_and_definition_witness :
  eval 2 2 (VList [_set; VSym "nosuch"; VInt 5]) global_env initial_state
  = Raise (LookupError "nosuch") initial_state
  /\ eval 2 2 (VList [_define; VSym "nosuch"; VInt 5]) global_env initial_state
     = set global_env "nosuch" (VInt 5) initial_state.
Proof.
  assert (Hl : Scopes initial_state global_env [global_env])
    by (eapply Scopes_last; reflexivity).
  destruct (assignment_and_definition initial_state global_env [global_env] 1 1 "nosuch"
              (VInt 5) (VInt 5) initial_state Hl (le_n 1) eq_refl) as (H1 & H2 & _).
  split; [exact H1 | exact H2].
Defined.

(** ** A string that is not closed *)

Lemma all_chars_rstrip p s : all_chars p s = true -> all_chars p (rstrip s) = true.
Proof.
  induction s as [| c r IH]; [done |]. cbn [all_chars rstrip].
  intros [Hc Hr]%andb_prop. specialize (IH Hr).
  destruct (rstrip r) as [| c' r'].
  - destruct (is_space c); [done |]. cbn [all_chars]. by rewrite Hc.
  - cbn [all_chars] in *. by rewrite Hc, IH.
Qed.

Lemma all_chars_dot_star p s : all_chars p s = true -> all_chars p (dot_star s) = true.
Proof.
  induction s as [| c r IH]; [done |]. cbn [all_chars dot_star].
  intros [Hc Hr]%andb_prop. destruct (Ascii.eqb c newline); [done |].
  cbn [all_chars]. by rewrite Hc, IH.
Qed.

Lemma rstrip_cons c r : is_space c = false -> rstrip (String c r) = String c (rstrip r).
Proof. intros Hc. cbn [rstrip]. destruct (rstrip r); [by rewrite Hc | done]. Qed.

Lemma scan_string_open n : forall s,
  (String.length s <= n)%nat -> all_chars not_dquote s = true -> scan_string s = None.
Proof.
  induction n as [| n IH]; intros s Hn Hs.
  - destruct s; [done | simpl in Hn; lia].
  - destruct s as [| c r]; [done |]. cbn [all_chars] in Hs.
    apply andb_prop in Hs as [Hc Hr]. unfold not_dquote in Hc.
    apply negb_true_iff in Hc. cbn [scan_string]. rewrite Hc.
    simpl in Hn. destruct (Ascii.eqb c backslash).
    + destruct r as [| d r']; [done |]. destruct (Ascii.eqb d newline); [done |].
      cbn [all_chars] in Hr. apply andb_prop in Hr as [_ Hr'].
      rewrite (IH r'); [done | simpl in Hn; lia | exact Hr'].
    + rewrite (IH r); [done | lia | exact Hr].
Qed.

Lemma tokenizer_open_string b :
  all_chars not_dquote b = true ->
  tokenizer (String dquote b) = (EmptyString, String dquote (dot_star b)).
Proof.
  intros Hb. unfold tokenizer. cbn [skip_blanks].
  change (Ascii.eqb dquote " ") with false. cbv iota.
  change (Ascii.eqb dquote ",") with false. cbn [andb].
  change (is_punct dquote) with false. cbv iota.
  change (Ascii.eqb dquote dquote) with true. cbv iota.
  rewrite (scan_string_open _ b (le_n _) Hb).
  change (Ascii.eqb dquote ";") with false. cbv iota.
  reflexivity.
Qed.

Lemma readline_all_chars p s :
  all_chars p s = true -> all_chars p (readline s).1 = true.
Proof.
  induction s as [| c r IH]; [done |]. cbn [all_chars readline].
  intros [Hc Hr]%andb_prop. destruct (Ascii.eqb c newline).
  - cbn [fst all_chars]. by rewrite Hc.
  - specialize (IH Hr). destruct (readline r) as [l rest]. cbn [fst all_chars] in *.
    by rewrite Hc, IH.
Qed.

Lemma next_token_open_string n : forall b f,
  all_chars not_dquote b = true ->
  next_token_loop n {| file := f; line := String dquote b |} = None.
Proof.
  induction n as [| n IH]; intros b f Hb; [done |].
  cbn [next_token_loop line file String.eqb]. cbv iota.
  unfold strip. cbn [lstrip]. change (is_space dquote) with false. cbv iota.
  rewrite rstrip_cons by done.
  rewrite tokenizer_open_string by (by apply all_chars_rstrip).
  cbn [String.eqb negb andb]. apply IH. by apply all_chars_dot_star, all_chars_rstrip.
Qed.

(** A line that starts with a double quote and has no second one: the
    string alternative of the expression does not match, the last
    alternative matches the empty text, and the line is kept as it is.
    The loop of [next_token] turns again on the same line, with no end:
    in the model, no number of turns gives a token, and [read] gives
    nothing. *)
Theorem unclosed_string_never_read b :
  all_chars not_dquote b = true ->
  (forall n f, next_token_loop n {| file := f; line := String dquote b |} = None)
  /\ (forall f, next_token {| file := f; line := String dquote b |} = None)
  /\ (forall fuel f, returns (read fuel {| file := f; line := String dquote b |}) = false)
  /\ returns (read_text (String dquote b)) = false.
Proof.
  intros Hb.
  assert (H : forall b, all_chars not_dquote b = true ->
              forall n f, next_token_loop n {| file := f; line := String dquote b |} = None)
    by (intros; by apply next_token_open_string).
  split; [by apply H |]. split; [intros f; by apply H |].
  split.
  - intros [| fuel] f; [done |]. cbn [read]. unfold next_token. by rewrite H.
  - unfold read_text. generalize (read_fuel (open_text (String dquote b))).
    intros [| fuel]; [done |]. cbn [read]. unfold next_token.
    generalize (String.length (file (open_text (String dquote b)))
                + String.length (line (open_text (String dquote b))))%nat.
    intros n. cbn [next_token_loop open_text line file String.eqb].
    pose proof (readline_all_chars not_dquote b Hb) as Hl.
    cbn [readline]. change (Ascii.eqb dquote newline) with false. cbv iota.
    destruct (readline b) as [l rest]. cbn [fst] in Hl. cbn [line file String.eqb].
    unfold strip. cbn [lstrip]. change (is_space dquote) with false. cbv iota.
    rewrite rstrip_cons by done.
    rewrite tokenizer_open_string by (by apply all_chars_rstrip).
    cbn [String.eqb negb andb]. rewrite H; [done |].
    by apply all_chars_dot_star, all_chars_rstrip.
Qed.

Lemma unclosed_string_never_read_witness :
  next_token {| file := ""; line := String dquote "abc" |} = None.
Proof. apply (unclosed_string_never_read "abc"). reflexivity. Defined.

(** ** Printing and reading again *)

(** *** Decimal numerals *)

Ltac digit_step :=
  cbn [parse_digits];
  match goal with
  | |- context [is_digit ?c] =>
      let v := eval vm_compute in (is_digit c) in change (is_digit c) with v
  end; cbv iota;
  match goal with
  | |- context [digit_val ?c] =>
      let v := eval vm_compute in (digit_val c) in change (digit_val c) with v
  end.

Lemma parse_digits_acc l : forall acc,
  parse_digits true (Z.pos acc) (NilEmpty.string_of_uint l)
  = Some (Z.pos (Pos.of_uint_acc l acc)).
Proof.
  induction l; intros acc; cbn [NilEmpty.string_of_uint Pos.of_uint_acc];
    [reflexivity | ..];
    (digit_step;
     match goal with
     | |- parse_digits true ?z _ = Some (Z.pos (Pos.of_uint_acc _ ?a)) =>
         replace z with (Z.pos a) by lia
     end; apply IHl).
Qed.

Lemma parse_digits_uint l : forall b,
  b = true \/ l <> Decimal.Nil ->
  parse_digits b 0 (NilEmpty.string_of_uint l) = Some (Z.of_N (Pos.of_uint l)).
Proof.
  induction l; intros b Hb; cbn [NilEmpty.string_of_uint Pos.of_uint].
  - destruct Hb as [-> | Hb]; [reflexivity | done].
  - digit_step.
    change (10 * 0 + 0) with 0. apply IHl. by left.
  - digit_step.
    change (10 * 0 + 1) with (Z.pos 1). apply parse_digits_acc.
  - digit_step.
    change (10 * 0 + 2) with (Z.pos 2). apply parse_digits_acc.
  - digit_step.
    change (10 * 0 + 3) with (Z.pos 3). apply parse_digits_acc.
  - digit_step.
    change (10 * 0 + 4) with (Z.pos 4). apply parse_digits_acc.
  - digit_step.
    change (10 * 0 + 5) with (Z.pos 5). apply parse_digits_acc.
  - digit_step.
    change (10 * 0 + 6) with (Z.pos 6). apply parse_digits_acc.
  - digit_step.
    change (10 * 0 + 7) with (Z.pos 7). apply parse_digits_acc.
  - digit_step.
    change (10 * 0 + 8) with (Z.pos 8). apply parse_digits_acc.
  - digit_step.
    change (10 * 0 + 9) with (Z.pos 9). apply parse_digits_acc.
Qed.

Lemma digits_of_uint l : all_chars is_digit (NilEmpty.string_of_uint l) = true.
Proof. induction l; cbn [NilEmpty.string_of_uint all_chars]; [done | ..]; exact IHl. Qed.

Lemma parse_digits_nilzero d :
  parse_digits false 0 (NilZero.string_of_uint d) = Some (Z.of_uint d)
  /\ all_chars is_digit (NilZero.string_of_uint d) = true
  /\ NilZero.string_of_uint d <> "".
Proof.
  unfold Z.of_uint. destruct d;
    try (split; [apply parse_digits_uint; by right | split; [apply digits_of_uint | done]]).
  by repeat split.
Qed.

(** *** Lines and tokens *)

Lemma str_app_nil (b : string) : "" ++ b = b.
Proof. reflexivity. Qed.

Lemma str_app_cons c (a b : string) : String c a ++ b = String c (a ++ b).
Proof. reflexivity. Qed.

Ltac str_app := rewrite ?str_app_cons, ?str_app_nil.

Lemma dot_star_id s : all_chars not_newline s = true -> dot_star s = s.
Proof.
  induction s as [| c r IH]; [done |]. cbn [all_chars dot_star].
  intros [Hc Hr]%andb_prop. unfold not_newline in Hc. apply negb_true_iff in Hc.
  by rewrite Hc, IH.
Qed.

Lemma rstrip_app a b :
  rstrip (a ++ b) = match rstrip b with EmptyString => rstrip a | b' => a ++ b' end.
Proof.
  induction a as [| c a IH]; [str_app; cbn [rstrip]; by destruct (rstrip b) |].
  str_app; cbn [rstrip]. rewrite IH. destruct (rstrip b) as [| c' b'].
  - reflexivity.
  - by destruct a.
Qed.

Lemma rstrip_app_tail a b : rstrip a = a -> rstrip b = b -> rstrip (a ++ b) = a ++ b.
Proof.
  intros Ha Hb. rewrite rstrip_app, Hb. destruct b; [| done].
  rewrite Ha. clear. induction a as [| c a IH]; [done |]. str_app. by rewrite <- IH.
Qed.

Lemma all_chars_app p a b :
  all_chars p (a ++ b) = (all_chars p a && all_chars p b)%bool.
Proof.
  induction a as [| c a IH]; [done |]. str_app; cbn [all_chars]. rewrite IH.
  by rewrite andb_assoc.
Qed.

Lemma all_chars_impl (p q : ascii -> bool) s :
  (forall c, p c = true -> q c = true) -> all_chars p s = true -> all_chars q s = true.
Proof.
  intros H. induction s as [| c r IH]; [done |]. cbn [all_chars].
  intros [Hc Hr]%andb_prop. by rewrite (H _ Hc), IH.
Qed.

Lemma rstrip_no_space s : all_chars (fun c => negb (is_space c)) s = true -> rstrip s = s.
Proof.
  induction s as [| c r IH]; [done |]. cbn [all_chars].
  intros [Hc Hr]%andb_prop. apply negb_true_iff in Hc.
  rewrite rstrip_cons by done. by rewrite IH.
Qed.

Lemma scan_raw_app t r :
  all_chars not_delim t = true -> starts_delim r = true -> scan_raw (t ++ r) = (t, r).
Proof.
  intros Ht Hr. induction t as [| c t IH].
  - str_app. destruct r as [| c r]; [done |]. cbn [scan_raw starts_delim] in *.
    by rewrite Hr.
  - cbn [all_chars] in Ht. apply andb_prop in Ht as [Hc Ht].
    unfold not_delim in Hc. apply negb_true_iff in Hc.
    str_app; cbn [scan_raw]. rewrite Hc, (IH Ht). reflexivity.
Qed.

Lemma not_delim_chars c :
  is_delim c = false ->
  Ascii.eqb c " " = false /\ Ascii.eqb c "," = false /\ is_punct c = false
  /\ Ascii.eqb c dquote = false /\ Ascii.eqb c ";" = false.
Proof.
  unfold is_delim, is_punct. intros H.
  repeat (apply orb_false_elim in H; destruct H as [H ?]).
  repeat split; try done.
  repeat match goal with E : Ascii.eqb c _ = false |- _ => rewrite E; clear E end.
  reflexivity.
Qed.

Lemma tokenizer_raw c t r :
  all_chars not_delim (String c t) = true -> tail_ok r ->
  tokenizer (String c t ++ r) = (String c t, r).
Proof.
  intros Ht (Hn & _ & Hd).
  pose proof Ht as Hc. cbn [all_chars] in Hc. apply andb_prop in Hc as [Hc _].
  unfold not_delim in Hc. apply negb_true_iff in Hc.
  destruct (not_delim_chars c Hc) as (H1 & H2 & H3 & H4 & H5).
  unfold tokenizer. str_app; cbn [skip_blanks]. rewrite H1. cbv iota. rewrite H2, H3, H4. cbn [andb]. cbv iota. rewrite H5.
  change (String c (t ++ r)) with (String c t ++ r).
  rewrite (scan_raw_app _ _ Ht Hd). by rewrite dot_star_id.
Qed.

Lemma tokenizer_open r :
  all_chars not_newline r = true -> tokenizer (String "(" r) = ("(", r).
Proof. intros Hr. unfold tokenizer. cbn. by rewrite dot_star_id. Qed.

Lemma tokenizer_close r :
  all_chars not_newline r = true -> tokenizer (String ")" r) = (")", r).
Proof. intros Hr. unfold tokenizer. cbn. by rewrite dot_star_id. Qed.

Lemma scan_string_plain n : forall s r,
  (String.length s <= n)%nat -> plain_string s = true ->
  scan_string (s ++ String dquote r) = Some (s ++ String dquote EmptyString, r).
Proof.
  induction n as [| n IH]; intros s r Hn Hs.
  - destruct s; [| simpl in Hn; lia]. str_app; cbn [scan_string].
    by change (Ascii.eqb dquote dquote) with true.
  - destruct s as [| c s].
    { str_app; cbn [scan_string]. by change (Ascii.eqb dquote dquote) with true. }
    cbn [plain_string] in Hs. str_app; cbn [scan_string].
    destruct (Ascii.eqb c dquote); [done |].
    destruct (Ascii.eqb c backslash).
    + destruct s as [| d s']; [done |].
      apply andb_prop in Hs as [[Hd _]%andb_prop Hs']. apply negb_true_iff in Hd.
      str_app. rewrite Hd. rewrite (IH s' r); [done | simpl in Hn; lia | exact Hs'].
    + apply andb_prop in Hs as [_ Hs]. rewrite (IH s r); [done | simpl in Hn; lia | exact Hs].
Qed.

Lemma tokenizer_string s r :
  plain_string s = true -> all_chars not_newline r = true ->
  tokenizer (String dquote (s ++ String dquote r))
  = (String dquote (s ++ String dquote EmptyString), r).
Proof.
  intros Hs Hr. unfold tokenizer. cbn [skip_blanks].
  change (Ascii.eqb dquote " ") with false. cbv iota.
  change (Ascii.eqb dquote ",") with false. cbn [andb].
  change (is_punct dquote) with false. cbv iota.
  change (Ascii.eqb dquote dquote) with true. cbv iota.
  rewrite (scan_string_plain _ s r (le_n _) Hs). by rewrite dot_star_id.
Qed.

(** The first turn of [next_token] on a line that holds a token. *)
Lemma next_token_line f lead X tok rest :
  lead = EmptyString \/ lead = " " ->
  (exists c X', X = String c X' /\ is_space c = false) -> rstrip X = X ->
  tokenizer X = (tok, rest) -> tok <> EmptyString -> starts_with ";" tok = false ->
  next_token {| file := f; line := lead ++ X |} = Some (Tok tok, {| file := f; line := rest |}).
Proof.
  intros Hlead (c & X' & -> & Hc) HX Htok Hne Hsc.
  unfold next_token. cbn [next_token_loop file line].
  assert (Hl : String.eqb (lead ++ String c X') "" = false) by (by destruct Hlead as [-> | ->]).
  assert (Hs : strip (lead ++ String c X') = String c X').
  { unfold strip. destruct Hlead as [-> | ->]; str_app; cbn [lstrip].
    - by rewrite Hc.
    - change (is_space " ") with true. cbv iota. cbn [lstrip]. by rewrite Hc. }
  cbv zeta. rewrite Hl. cbv iota. cbn [file line]. rewrite Hl. cbv iota.
  rewrite Hs, Htok. destruct tok as [| c0 tok]; [done |]. cbn [String.eqb negb andb].
  by rewrite Hsc.
Qed.

(** *** Atoms *)

Lemma digit_char c :
  digit_or_minus c = true ->
  raw_char c = true /\ not_newline c = true /\ Ascii.eqb c "#" = false
  /\ Ascii.eqb c dquote = false /\ Ascii.eqb c "+" = false
  /\ (is_digit c = true -> Ascii.eqb c "-" = false).
Proof. destruct c as [[] [] [] [] [] [] [] []]; intros H; try discriminate H; by repeat split. Qed.

Lemma raw_char_not c :
  raw_char c = true -> is_delim c = false /\ is_space c = false /\ not_newline c = true.
Proof.
  unfold raw_char. intros [H1 H2]%andb_prop.
  apply negb_true_iff in H1, H2. repeat split; [done | done |].
  destruct c as [[] [] [] [] [] [] [] []]; try done.
Qed.

Lemma all_raw_text c t :
  all_chars raw_char (String c t) = true ->
  text_ok (String c t) /\ all_chars not_delim (String c t) = true.
Proof.
  intros H. split; [split; [| split] |].
  - revert H. apply all_chars_impl. intros a Ha. by apply raw_char_not.
  - apply rstrip_no_space. revert H. apply all_chars_impl. intros a Ha.
    apply raw_char_not in Ha as (_ & -> & _). done.
  - exists c, t. split; [done |]. cbn [all_chars] in H. apply andb_prop in H as [H _].
    by apply raw_char_not in H as (_ & -> & _).
  - revert H. apply all_chars_impl. intros a Ha. unfold not_delim.
    by apply raw_char_not in Ha as (-> & _ & _).
Qed.

Lemma strip_text_ok t : text_ok t -> strip t = t.
Proof.
  intros (_ & Hr & c & t' & -> & Hc). unfold strip. cbn [lstrip]. by rewrite Hc.
Qed.

Lemma parse_int_of_int i : parse_int (NilZero.string_of_int i) = Some (Z.of_int i).
Proof.
  destruct i as [d | d]; cbn [NilZero.string_of_int Z.of_int].
  - destruct (parse_digits_nilzero d) as (Hp & Hd & Hne).
    destruct (NilZero.string_of_uint d) as [| c r] eqn:E; [done |].
    assert (Hraw : all_chars raw_char (String c r) = true).
    { revert Hd. apply all_chars_impl. intros a Ha. apply digit_char.
      unfold digit_or_minus. by rewrite Ha. }
    unfold parse_int. rewrite (strip_text_ok _ (proj1 (all_raw_text _ _ Hraw))).
    cbn [all_chars] in Hd. apply andb_prop in Hd as [Hc _].
    assert (Hm : digit_or_minus c = true) by (unfold digit_or_minus; by rewrite Hc).
    destruct (digit_char c Hm) as (_ & _ & _ & _ & Hplus & Hminus).
    by rewrite (Hminus Hc), Hplus.
  - destruct (parse_digits_nilzero d) as (Hp & Hd & Hne).
    assert (Hraw : all_chars raw_char (String "-" (NilZero.string_of_uint d)) = true).
    { cbn [all_chars]. change (raw_char "-") with true. cbn [andb].
      revert Hd. apply all_chars_impl. intros a Ha. apply digit_char.
      unfold digit_or_minus. by rewrite Ha. }
    unfold parse_int. rewrite (strip_text_ok _ (proj1 (all_raw_text _ _ Hraw))).
    change (Ascii.eqb "-" "-") with true. cbv iota. by rewrite Hp.
Qed.

Lemma parse_int_str z : parse_int (str_of_Z z) = Some z.
Proof. unfold str_of_Z. by rewrite parse_int_of_int, DecimalZ.of_to. Qed.

Lemma str_of_Z_chars z :
  exists c t, str_of_Z z = String c t
    /\ all_chars digit_or_minus (String c t) = true.
Proof.
  unfold str_of_Z. destruct (Z.to_int z) as [d | d]; cbn [NilZero.string_of_int].
  - destruct (parse_digits_nilzero d) as (_ & Hd & Hne).
    destruct (NilZero.string_of_uint d) as [| c r]; [done |]. exists c, r.
    split; [done |]. revert Hd. apply all_chars_impl. intros a Ha.
    unfold digit_or_minus. by rewrite Ha.
  - destruct (parse_digits_nilzero d) as (_ & Hd & Hne). eexists _, _. split; [done |].
    cbn [all_chars]. change (digit_or_minus "-") with true. cbn [andb].
    revert Hd. apply all_chars_impl. intros a Ha. unfold digit_or_minus. by rewrite Ha.
Qed.

Lemma atom_int z : atom (str_of_Z z) = Ret (VInt z) ().
Proof.
  destruct (str_of_Z_chars z) as (c & t & E & H).
  pose proof (parse_int_str z) as Hp. rewrite E in Hp. unfold atom. rewrite E.
  cbn [all_chars] in H. apply andb_prop in H as [Hc _].
  destruct (digit_char c Hc) as (_ & _ & Hh & Hq & _).
  cbn [String.eqb]. rewrite Hh, Hq, Hp. reflexivity.
Qed.

Lemma str_app_assoc (a b c : string) : (a ++ b) ++ c = a ++ (b ++ c).
Proof. induction a as [| x a IH]; [done |]. str_app. by rewrite IH. Qed.

Lemma str_length_app (a b : string) :
  String.length (a ++ b) = (String.length a + String.length b)%nat.
Proof. induction a as [| x a IH]; [done |]. str_app. cbn [String.length]. by rewrite IH. Qed.

Lemma drop_last_snoc s c : drop_last (s ++ String c "") = s.
Proof.
  induction s as [| x s IH]; [done |]. str_app. cbn [drop_last].
  destruct s as [| y s']; [done |]. rewrite str_app_cons in *. by rewrite IH.
Qed.

Lemma plain_string_props n : forall s,
  (String.length s <= n)%nat -> plain_string s = true ->
  escape_quotes s = s /\ all_chars not_newline s = true.
Proof.
  induction n as [| n IH]; intros s Hn Hs.
  - destruct s; [done | simpl in Hn; lia].
  - destruct s as [| c s]; [done |]. cbn [plain_string] in Hs.
    cbn [escape_quotes all_chars]. unfold not_newline at 1.
    destruct (Ascii.eqb c dquote) eqn:Hq; [done |].
    destruct (Ascii.eqb c backslash) eqn:Hb.
    + destruct s as [| d s']; [done |].
      apply andb_prop in Hs as [[Hd Hdq]%andb_prop Hs'].
      destruct (IH s') as [He Ha]; [simpl in Hn; lia | done |].
      apply negb_true_iff in Hdq.
      cbn [escape_quotes all_chars]. rewrite Hdq, He, Ha. unfold not_newline. rewrite Hd.
      apply Ascii.eqb_eq in Hb. subst c. done.
    + apply andb_prop in Hs as [Hc Hs]. destruct (IH s) as [He Ha]; [simpl in Hn; lia | done |].
      by rewrite He, Ha, Hc.
Qed.

Lemma is_punct_chars c :
  is_punct c = false ->
  Ascii.eqb c "(" = false /\ Ascii.eqb c ")" = false /\ Ascii.eqb c "'" = false
  /\ Ascii.eqb c "`" = false /\ Ascii.eqb c "," = false.
Proof.
  unfold is_punct. intros H.
  repeat (apply orb_false_elim in H; destruct H as [H ?]). by repeat split.
Qed.

Lemma quotes_none c t : is_punct c = false -> quotes (String c t) = None.
Proof.
  intros H. destruct (is_punct_chars c H) as (_ & _ & H1 & H2 & H3).
  unfold quotes. cbn [String.eqb]. by rewrite H1, H2, H3.
Qed.

Lemma not_paren c t :
  is_punct c = false ->
  String.eqb (String c t) "(" = false /\ String.eqb (String c t) ")" = false.
Proof.
  intros H. destruct (is_punct_chars c H) as (H1 & H2 & _).
  cbn [String.eqb]. by rewrite H1, H2.
Qed.

Lemma to_string_list l :
  to_string (VList l) = (strs ← to_strings l; Some ("(" ++ join " " strs ++ ")")).
Proof.
  cbn [to_string].
  assert (E : (fix each (l0 : list value) : option (list string) :=
                 match l0 with
                 | [] => Some []
                 | v :: r => s ← to_string v; ss ← each r; Some (s :: ss)
                 end) l = to_strings l).
  { induction l as [| v l IH]; [done |]. cbn [to_strings]. by rewrite <- IH. }
  by rewrite E.
Qed.

Lemma readable_list l : readable (VList l) = forallb readable l.
Proof. induction l as [| v l IH]; [done |]. cbn [forallb]. rewrite <- IH. reflexivity. Qed.

Lemma size_list l : size (VList l) = S (S (sizes l)).
Proof. reflexivity. Qed.

Lemma size_pos v : (1 <= size v)%nat.
Proof. destruct v; cbn [size]; lia. Qed.

Lemma join_cons s ss :
  join " " (s :: ss) = s ++ (match ss with [] => "" | _ => " " end) ++ join " " ss.
Proof.
  destruct ss as [| s' ss]; [| reflexivity].
  cbn [join]. str_app. induction s as [| c s IH]; [done |]. str_app. by rewrite <- IH.
Qed.

(** *** Reading back what was printed *)

Lemma line_ok text r :
  text_ok text -> tail_ok r ->
  (exists c X', text ++ r = String c X' /\ is_space c = false)
  /\ rstrip (text ++ r) = text ++ r
  /\ all_chars not_newline (text ++ r) = true.
Proof.
  intros (Hn & Hr & c & t' & -> & Hc) (Hn' & Hr' & _). split; [| split].
  - exists c, (t' ++ r). by str_app.
  - by apply rstrip_app_tail.
  - by rewrite all_chars_app, Hn, Hn'.
Qed.

Lemma read_raw_atom c t v :
  all_chars raw_char (String c t) = true -> atom (String c t) = Ret v () ->
  reads_back v (String c t).
Proof.
  intros Hraw Hatom r f lead fuel Hr Hlead Hfuel.
  destruct (all_raw_text c t Hraw) as [Hok Hnd].
  destruct (line_ok _ r Hok Hr) as (H1 & H2 & H3).
  pose proof Hnd as Hc. cbn [all_chars] in Hc. apply andb_prop in Hc as [Hc _].
  unfold not_delim in Hc. apply negb_true_iff in Hc.
  destruct (not_delim_chars c Hc) as (_ & _ & Hp & _ & Hsc).
  destruct (not_paren c t Hp) as [Ho Hcl].
  exists (String c t), {| file := f; line := r |}. split; [| split; [exact Hcl |]].
  - apply (next_token_line f lead _ _ _ Hlead H1 H2); [by apply tokenizer_raw | done |].
    cbn [starts_with]. by rewrite Ascii.eqb_sym.
  - destruct fuel as [| fuel]; [pose proof (size_pos v); lia |].
    cbn [read_ahead]. rewrite Ho, Hcl, (quotes_none c t Hp). unfold lift_atom.
    by rewrite Hatom.
Qed.

Lemma read_string s :
  plain_string s = true ->
  reads_back (VStr s) (String dquote (s ++ String dquote EmptyString)).
Proof.
  intros Hs r f lead fuel Hr Hlead Hfuel.
  destruct (plain_string_props _ s (le_n _) Hs) as [_ Hn].
  assert (Hok : text_ok (String dquote (s ++ String dquote EmptyString))).
  { split; [| split].
    - cbn [all_chars]. rewrite all_chars_app, Hn. reflexivity.
    - change (String dquote (s ++ String dquote ""))
        with (String dquote s ++ String dquote "").
      by rewrite rstrip_app.
    - by eexists _, _. }
  destruct (line_ok _ r Hok Hr) as (H1 & H2 & H3).
  exists (String dquote (s ++ String dquote EmptyString)), {| file := f; line := r |}.
  split; [| split; [done |]].
  - apply (next_token_line f lead _ _ _ Hlead H1 H2); [| done | done].
    rewrite str_app_cons, str_app_assoc, str_app_cons, str_app_nil.
    apply tokenizer_string; [done | apply Hr].
  - destruct fuel as [| fuel]; [simpl in Hfuel; lia |].
    cbn [read_ahead]. change (String.eqb (String dquote _) "(") with false.
    change (String.eqb (String dquote (s ++ String dquote "")) ")") with false. cbv iota.
    rewrite (quotes_none dquote _ eq_refl). unfold lift_atom, atom.
    change (String.eqb (String dquote (s ++ String dquote "")) "#t") with false.
    change (String.eqb (String dquote (s ++ String dquote "")) "#f") with false. cbv iota.
    change (Ascii.eqb dquote dquote) with true. cbv iota.
    unfold slice_1_m1. by rewrite drop_last_snoc.
Qed.

Lemma join_no_newline strs :
  Forall text_ok strs -> all_chars not_newline (join " " strs) = true.
Proof.
  induction 1 as [| s ss (Hn & _) _ IH]; [done |].
  rewrite join_cons, !all_chars_app, Hn, IH. by destruct ss.
Qed.

Lemma tail_after_element ss r :
  Forall text_ok ss -> tail_ok r ->
  tail_ok ((match ss with [] => "" | _ => " " end) ++ join " " ss ++ ")" ++ r).
Proof.
  intros Hss (Hn & Hr & Hd). split; [| split].
  - rewrite !all_chars_app, (join_no_newline ss Hss). cbn [all_chars]. rewrite Hn.
    by destruct ss.
  - rewrite <- str_app_assoc, rstrip_app.
    assert (E : rstrip (")" ++ r) = ")" ++ r) by (by apply rstrip_app_tail).
    rewrite E. reflexivity.
  - destruct ss; reflexivity.
Qed.

Lemma read_list_back l : forall strs,
  Forall2 (fun v s => text_ok s /\ reads_back v s) l strs ->
  forall L r f lead fuel,
    tail_ok r -> lead = EmptyString \/ lead = " " -> (sizes l + 1 <= fuel)%nat ->
    read_list fuel L {| file := f; line := lead ++ join " " strs ++ ")" ++ r |}
    = Ret (VList (L ++ l)) {| file := f; line := r |}.
Proof.
  induction l as [| v l IH]; intros strs H L r f lead fuel Hr Hlead Hfuel.
  - inversion H; subst. destruct fuel as [| fuel]; [simpl in Hfuel; lia |].
    cbn [join]. rewrite str_app_nil. cbn [read_list].
    assert (Hok : text_ok ")") by (split; [done | split; [done | by eexists _, _]]).
    destruct (line_ok _ r Hok Hr) as (H1 & H2 & H3).
    rewrite (next_token_line f lead (")" ++ r) ")" r Hlead H1 H2);
      [| apply tokenizer_close, Hr | done | done].
    cbn [String.eqb Ascii.eqb Bool.eqb]. cbv iota. by rewrite app_nil_r.
  - inversion H as [| ? s ? ss [Hs Hv] Hrest]; subst.
    assert (Hss : Forall text_ok ss).
    { clear -Hrest. induction Hrest as [| ? ? ? ? [Ha _] _ IH']; by constructor. }
    destruct fuel as [| fuel]; [simpl in Hfuel; lia |].
    rewrite join_cons, !str_app_assoc.
    pose proof (tail_after_element ss r Hss Hr) as Ht.
    cbn [sizes] in Hfuel.
    destruct (Hv _ f lead fuel Ht Hlead) as (tok & p' & Hn & Hc & Hread); [lia |].
    cbn [read_list]. rewrite Hn, Hc, Hread. cbn [bind].
    rewrite (IH ss Hrest (L ++ [v])%list r f _ fuel Hr).
    + by rewrite <- app_assoc.
    + destruct ss; [by left | by right].
    + pose proof (size_pos v). lia.
Qed.

Lemma sizes_le_join l : forall strs,
  Forall2 (fun v s => (size v <= String.length s)%nat) l strs ->
  (sizes l <= String.length (join " " strs))%nat.
Proof.
  induction l as [| v l IH]; intros strs H; inversion H as [| ? s ? ss Hv Hrest]; subst.
  - cbn [sizes]. lia.
  - rewrite join_cons, !str_length_app. cbn [sizes]. specialize (IH ss Hrest). lia.
Qed.

Lemma read_back n : forall v,
  (size v <= n)%nat -> readable v = true ->
  exists text, to_string v = Some text
    /\ text_ok text /\ (size v <= String.length text)%nat /\ reads_back v text.
Proof.
  induction n as [| n IH]; intros v Hn Hv; [pose proof (size_pos v); lia |].
  destruct v as [| b | z | s | s | | l | | |]; try discriminate Hv.
  - (* booleans *)
    destruct b; eexists; (split; [reflexivity |]);
      (split; [by apply all_raw_text |]); (split; [cbn; lia |]);
      by apply read_raw_atom.
  - (* integers *)
    destruct (str_of_Z_chars z) as (c & t & E & H).
    assert (Hraw : all_chars raw_char (String c t) = true).
    { revert H. apply all_chars_impl. intros a Ha. by apply digit_char. }
    exists (String c t). cbn [to_string]. rewrite E. split; [reflexivity |].
    split; [by apply all_raw_text |]. split; [cbn; lia |].
    apply read_raw_atom; [exact Hraw |]. rewrite <- E. apply atom_int.
  - (* strings *)
    cbn [readable] in Hv.
    destruct (plain_string_props _ s (le_n _) Hv) as [He Hnl].
    exists (String dquote (s ++ String dquote EmptyString)).
    cbn [to_string]. rewrite He. split; [reflexivity |].
    split; [| split; [cbn; lia | by apply read_string]].
    split; [| split].
    + cbn [all_chars]. rewrite all_chars_app, Hnl. reflexivity.
    + change (String dquote (s ++ String dquote ""))
        with (String dquote s ++ String dquote "").
      by rewrite rstrip_app.
    + by eexists _, _.
  - (* symbols *)
    cbn [readable] in Hv. unfold is_name in Hv.
    repeat (apply andb_prop in Hv as [Hv ?]).
    destruct s as [| c t]; [done |].
    exists (String c t). split; [reflexivity |].
    split; [by apply all_raw_text |]. split; [cbn; lia |].
    apply read_raw_atom; [done |].
    unfold atom.
    apply negb_true_iff in H2, H1, H. rewrite H2, H1, H.
    destruct (all_raw_text c t H3) as [_ Hnd]. cbn [all_chars] in Hnd.
    apply andb_prop in Hnd as [Hc _]. unfold not_delim in Hc. apply negb_true_iff in Hc.
    destruct (not_delim_chars c Hc) as (_ & _ & _ & Hq & _). rewrite Hq.
    by destruct (parse_int (String c t)).
  - (* lists *)
    rewrite readable_list in Hv. rewrite size_list in Hn.
    assert (Hel : exists strs, to_strings l = Some strs
              /\ Forall2 (fun v s => text_ok s /\ reads_back v s) l strs
              /\ Forall2 (fun v s => (size v <= String.length s)%nat) l strs).
    { assert (Hs : (sizes l <= n)%nat) by lia. clear Hn.
      induction l as [| v l IHl]; [by exists [] |].
      cbn [forallb sizes] in *. apply andb_prop in Hv as [Hv Hl].
      destruct (IH v) as (text & Ht & Hok & Hsz & Hrb); [lia | done |].
      destruct IHl as (strs & Hstrs & HF & HS); [done | lia |].
      exists (text :: strs). cbn [to_strings]. rewrite Ht, Hstrs.
      split; [reflexivity |]. split; by constructor. }
    destruct Hel as (strs & Hstrs & HF & HS).
    assert (Hss : Forall text_ok strs).
    { clear -HF. induction HF as [| ? ? ? ? [Ha _] _ IH']; by constructor. }
    exists ("(" ++ join " " strs ++ ")"). rewrite to_string_list, Hstrs.
    split; [reflexivity |]. split; [| split].
    + split; [| split].
      * rewrite !all_chars_app, (join_no_newline _ Hss). reflexivity.
      * rewrite <- str_app_assoc. by rewrite rstrip_app.
      * by eexists _, _.
    + rewrite size_list, !str_length_app. pose proof (sizes_le_join l strs HS).
      cbn [String.length]. lia.
    + intros r f lead fuel Hr Hlead Hfuel. rewrite size_list in Hfuel.
      assert (Hok : text_ok ("(" ++ join " " strs ++ ")")).
      { split; [| split].
        - rewrite !all_chars_app, (join_no_newline _ Hss). reflexivity.
        - rewrite <- str_app_assoc. by rewrite rstrip_app.
        - by eexists _, _. }
      destruct (line_ok _ r Hok Hr) as (H1 & H2 & H3).
      exists "(", {| file := f; line := join " " strs ++ ")" ++ r |}.
      split; [| split; [reflexivity |]].
      * apply (next_token_line f lead _ _ _ Hlead H1 H2); [| done | done].
        rewrite !str_app_assoc. rewrite str_app_cons, str_app_nil.
        apply tokenizer_open. rewrite !str_app_assoc in H3.
        rewrite str_app_cons, str_app_nil in H3. cbn [all_chars] in H3.
        by apply andb_prop in H3 as [_ H3].
      * destruct fuel as [| fuel]; [lia |]. cbn [read_ahead String.eqb Ascii.eqb Bool.eqb].
        cbv iota.
        rewrite <- (str_app_nil (join " " strs ++ ")" ++ r)).
        rewrite (read_list_back l strs HF [] r f "" fuel Hr); [done | by left | lia].
Qed.

Lemma readline_no_newline s : all_chars not_newline s = true -> readline s = (s, EmptyString).
Proof.
  induction s as [| c s IH]; [done |]. cbn [all_chars readline].
  intros [Hc Hs]%andb_prop. unfold not_newline in Hc. apply negb_true_iff in Hc.
  by rewrite Hc, IH.
Qed.

Lemma str_app_nil_r (s : string) : s ++ "" = s.
Proof. induction s as [| c s IH]; [done |]. str_app. by rewrite IH. Qed.

Lemma next_token_open_text text :
  text_ok text ->
  next_token (open_text text) = next_token {| file := ""; line := text |}.
Proof.
  intros (Hn & _ & c & t & -> & _). unfold next_token, open_text. cbn [file line].
  cbn [String.length]. rewrite Nat.add_0_r.
  cbn [next_token_loop file line String.eqb]. by rewrite (readline_no_newline _ Hn).
Qed.



(** ** Every tail position *)

Lemma mapM_lift d s d' s' env l st r :
  mapM (fun x => eval d s x env) l st = r -> ~ out_of_budget r ->
  (d <= d')%nat -> (s <= s')%nat ->
  mapM (fun x => eval d' s' x env) l st = r.
Proof.
  intros H Hr Hd Hs. apply (approx_eq (mapM (fun x => eval d s x env) l st)); [| done | done].
  apply mapM_approx. intros; by apply eval_approx.
Qed.

Lemma forM_lift d s d' s' env l st r :
  forM (fun x => eval d s x env) l st = r -> ~ out_of_budget r ->
  (d <= d')%nat -> (s <= s')%nat ->
  forM (fun x => eval d' s' x env) l st = r.
Proof.
  intros H Hr Hd Hs. apply (approx_eq (forM (fun x => eval d s x env) l st)); [| done | done].
  apply forM_approx. intros; by apply eval_approx.
Qed.

Lemma cond_clauses_lift d s d' s' env cs st r :
  cond_clauses (eval d s) env cs st = r -> ~ out_of_budget r ->
  (d <= d')%nat -> (s <= s')%nat ->
  cond_clauses (eval d' s') env cs st = r.
Proof.
  intros H Hr Hd Hs. apply (approx_eq (cond_clauses (eval d s) env cs st)); [| done | done].
  apply cond_clauses_approx. intros; by apply eval_approx.
Qed.

Lemma turns_at_one_depth d s0 n x env st r st' :
  turns d s0 n x env st r st' ->
  forall s, eval (S d) (n + s0 + s) x env st = Ret r st'.
Proof.
  induction 1 as [x env st r st' He
                  | n test conseq alt env st v st1 r st2 He _ IH
                  | n cs env st x' st1 r st2 Hc _ IH
                  | n tl env st st1 r st2 Hb _ IH
                  | n hd tl env st parms body penv args st1 e st2 r st3 Hsp Hm Hi _ IH];
    intros s.
  - apply (eval_lift (S d) (S s0)); [done | auto with approx | lia | lia].
  - change (S n + s0 + s)%nat with (S (n + s0 + s)).
    rewrite eval_unfold. unfold eval_turn.
    cbn [is_Symbol is_sym _if Sym String.eqb Ascii.eqb Bool.eqb].
    rewrite (eval_lift d s0 d (n + s0 + s) _ _ _ _ He); [| auto with approx | lia | lia].
    cbn [bind]. apply IH.
  - change (S n + s0 + s)%nat with (S (n + s0 + s)).
    rewrite eval_unfold. unfold eval_turn.
    cbn [is_Symbol is_sym _cond Sym String.eqb Ascii.eqb Bool.eqb].
    rewrite (cond_clauses_lift d s0 d (n + s0 + s) _ _ _ _ Hc); [| auto with approx | lia | lia].
    cbn [bind]. apply IH.
  - change (S n + s0 + s)%nat with (S (n + s0 + s)).
    rewrite eval_unfold. unfold eval_turn.
    cbn [is_Symbol is_sym _begin Sym String.eqb Ascii.eqb Bool.eqb].
    rewrite (forM_lift d s0 d (n + s0 + s) _ _ _ _ Hb); [| auto with approx | lia | lia].
    cbn [bind]. apply IH.
  - change (S n + s0 + s)%nat with (S (n + s0 + s)).
    rewrite (eval_apply d (n + s0 + s) hd tl env st parms body penv args st1 Hsp).
    + rewrite Hi. cbn [bind]. apply IH.
    + apply (mapM_lift d s0); [done | auto with approx | lia | lia].
Qed.

(** *** Counting loops *)

Section CountingLoop.
Variable body : value.

Lemma has_loop_body_with_env e st : has_loop_body body st -> has_loop_body body (with_env e st).
Proof.
  intros (G & HG & H). exists G. split; [| exact H].
  unfold with_env; simpl. rewrite lookup_app_l; [exact HG |].
  apply lookup_lt_Some in HG. exact HG.
Qed.

Lemma loop_test st a m :
  has_loop_body body st -> envs st !! a = Some (count_frame m) ->
  eval 4 2 (VList [VSym "="; VSym "n"; VInt 0]) a st = Ret (VBool (Z.eqb m 0)) st.
Proof.
  intros (G & HG & _ & Heq & _) Ha.
  rewrite (eval_native _ _ _ _ _ _ PEq [VInt m; VInt 0] st); [reflexivity | reflexivity |].
  cbn [mapM].
  rewrite (eval_sym_outer 0 0 "=" a st _ _ G (VPrim PEq) Ha eq_refl eq_refl HG Heq).
  cbn [bind]. rewrite (eval_sym_local 1 0 "n" a st _ (VInt m) Ha eq_refl). reflexivity.
Qed.

Lemma loop_operands st a m :
  has_loop_body body st -> envs st !! a = Some (count_frame m) ->
  mapM (fun x => eval 4 2 x a) [VSym "loop"; VList [VSym "-"; VSym "n"; VInt 1]] st
  = Ret [VProcedure (VList [VSym "n"]) body global_env; VInt (m - 1)] st.
Proof.
  intros (G & HG & Hloop & _ & Hsub) Ha. cbn [mapM].
  rewrite (eval_sym_outer 1 1 "loop" a st _ _ G _ Ha eq_refl eq_refl HG Hloop).
  cbn [bind].
  rewrite (eval_native _ _ _ _ _ _ PSub [VInt m; VInt 1] st); [reflexivity | reflexivity |].
  cbn [mapM].
  rewrite (eval_sym_outer 0 0 "-" a st _ _ G (VPrim PSub) Ha eq_refl eq_refl HG Hsub).
  cbn [bind]. rewrite (eval_sym_local 1 0 "n" a st _ (VInt m) Ha eq_refl). reflexivity.
Qed.

(** The call of the loop from its own body: one turn, and the body again
    in the environment of the next count. *)
Lemma loop_call_turn st a m n r st' :
  has_loop_body body st -> envs st !! a = Some (count_frame m) ->
  turns 4 2 n body (length (envs st)) (with_env (count_frame (m - 1)) st) r st' ->
  turns 4 2 (S n) loop_call a st r st'.
Proof.
  intros Hst Ha Hn.
  eapply turns_apply; [reflexivity | by apply loop_operands | apply Env_init_one | exact Hn].
Qed.

End CountingLoop.

Lemma loop_cond_turns (n : nat) : forall st a,
  has_loop_body loop_cond_body st ->
  envs st !! a = Some (count_frame (Z.of_nat n)) ->
  exists st', turns 4 2 (2 * n + 2) loop_cond_body a st (VInt 0) st'
              /\ has_loop_body loop_cond_body st'.
Proof.
  induction n as [| n IH]; intros st a Hst Ha.
  - exists st. split; [| exact Hst].
    eapply (turns_cond 4 2 1);
      [cbn [cond_clauses]; rewrite (loop_test loop_cond_body st a _ Hst Ha); reflexivity |].
    apply turns_return. reflexivity.
  - destruct (IH (with_env (count_frame (Z.of_nat n)) st) (length (envs st)))
      as (st' & Hturns & Hst'); [by apply has_loop_body_with_env | apply lookup_with_env |].
    exists st'. split; [| exact Hst'].
    replace (2 * S n + 2)%nat with (S (S (2 * n + 2))) by lia.
    eapply turns_cond.
    + cbn [cond_clauses]. rewrite (loop_test loop_cond_body st a _ Hst Ha).
      replace (Z.eqb (Z.of_nat (S n)) 0) with false by (symmetry; apply Z.eqb_neq; lia).
      cbn [bind truthy]. reflexivity.
    + apply (loop_call_turn loop_cond_body st a (Z.of_nat (S n))); [done | done |].
      replace (Z.of_nat (S n) - 1)%Z with (Z.of_nat n) by lia. exact Hturns.
Qed.

Lemma loop_begin_turns (n : nat) : forall st a,
  has_loop_body loop_begin_body st ->
  envs st !! a = Some (count_frame (Z.of_nat n)) ->
  exists st', turns 4 2 (3 * n + 3) loop_begin_body a st (VInt 0) st'
              /\ has_loop_body loop_begin_body st'.
Proof.
  induction n as [| n IH]; intros st a Hst Ha.
  - exists st. split; [| exact Hst].
    eapply (turns_begin 4 2 2).
    + cbn [middle removelast forM].
      rewrite (eval_sym_local 2 1 "n" a st _ _ Ha eq_refl). reflexivity.
    + cbn [last_of List.last].
      eapply (turns_if 4 2 1); [by apply (loop_test loop_begin_body st a _ Hst Ha) |].
      apply turns_return. reflexivity.
  - destruct (IH (with_env (count_frame (Z.of_nat n)) st) (length (envs st)))
      as (st' & Hturns & Hst'); [by apply has_loop_body_with_env | apply lookup_with_env |].
    exists st'. split; [| exact Hst'].
    replace (3 * S n + 3)%nat with (S (S (S (3 * n + 3)))) by lia.
    eapply turns_begin.
    + cbn [middle removelast forM].
      rewrite (eval_sym_local 2 1 "n" a st _ _ Ha eq_refl). reflexivity.
    + cbn [last_of List.last].
      eapply turns_if; [by apply (loop_test loop_begin_body st a _ Hst Ha) |].
      replace (Z.eqb (Z.of_nat (S n)) 0) with false by (symmetry; apply Z.eqb_neq; lia).
      cbn [truthy].
      apply (loop_call_turn loop_begin_body st a (Z.of_nat (S n))); [done | done |].
      replace (Z.of_nat (S n) - 1)%Z with (Z.of_nat n) by lia. exact Hturns.
Qed.

Lemma loop_from_top body T (n : nat) st d s :
  has_loop_body body st ->
  (forall st a, has_loop_body body st -> envs st !! a = Some (count_frame (Z.of_nat n)) ->
     exists st', turns 4 2 T body a st (VInt 0) st' /\ has_loop_body body st') ->
  exists st',
    eval (5 + d) (T + 3 + s) (VList [VSym "loop"; VInt (Z.of_nat n)]) global_env st
    = Ret (VInt 0) st'
    /\ has_loop_body body st'.
Proof.
  intros Hst Hbody.
  destruct (Hbody (with_env (count_frame (Z.of_nat n)) st) (length (envs st)))
    as (st' & Hturns & Hst'); [by apply has_loop_body_with_env | apply lookup_with_env |].
  exists st'. split; [| exact Hst'].
  apply (eval_lift 5 (S T + 2 + s)); [| auto with approx | lia | lia].
  apply turns_at_one_depth.
  destruct Hst as (G & HG & Hloop & _).
  eapply turns_apply; [reflexivity | | apply Env_init_one | exact Hturns].
  cbn [mapM]. rewrite (eval_sym_local 2 1 "loop" global_env st G _ HG Hloop). reflexivity.
Qed.

Lemma has_loop_cond_state : has_loop_body loop_cond_body loop_cond_state.
Proof. eexists. split; [reflexivity |]. repeat split; vm_compute; reflexivity. Defined.

Lemma has_loop_begin_state : has_loop_body loop_begin_body loop_begin_state.
Proof. eexists. split; [reflexivity |]. repeat split; vm_compute; reflexivity. Defined.

(** C1: a call of a closure in [eval] is one more turn of its loop, at
    the same call depth: the form becomes the body of the closure and the
    environment the new one; and so is the choice of a branch of an
    [if], of the last expression of a clause of [cond] and of the last
    expression of a [begin]. So for EVERY closure and every form: an
    evaluation that goes through [n] such tail positions, where what each
    turn evaluates before its tail position returns with the call depth
    [d], returns with the call depth [S d], whatever [n] is: the depth of
    the Python stack does not grow with the number of turns. The
    counting loops whose body ends in a call of themselves, directly
    under an [if], in a clause of a [cond], or under a [begin] and an
    [if], return for EVERY count [n] with the call depth 5; only the
    number of turns of the loop grows with [n]. *)
Theorem tail_call_in_constant_depth :
  (forall d s0 n x env st r st',
     turns d s0 n x env st r st' ->
     forall s, eval (S d) (n + s0 + s) x env st = Ret r st')
  /\ (forall st n d s, has_loop st ->
        exists st',
          eval (5 + d) (2 * n + 4 + s) (VList [VSym "loop"; VInt (Z.of_nat n)]) global_env st
          = Ret (VInt 0) st'
          /\ has_loop st')
  /\ (forall st n d s, has_loop_body loop_cond_body st ->
        exists st',
          eval (5 + d) (2 * n + 5 + s) (VList [VSym "loop"; VInt (Z.of_nat n)]) global_env st
          = Ret (VInt 0) st'
          /\ has_loop_body loop_cond_body st')
  /\ (forall st n d s, has_loop_body loop_begin_body st ->
        exists st',
          eval (5 + d) (3 * n + 6 + s) (VList [VSym "loop"; VInt (Z.of_nat n)]) global_env st
          = Ret (VInt 0) st'
          /\ has_loop_body loop_begin_body st').
Proof.
  split; [apply turns_at_one_depth |].
  split; [intros st n d s Hst; by apply loop_under_if_runs |].
  split.
  - intros st n d s Hst.
    replace (2 * n + 5 + s)%nat with (2 * n + 2 + 3 + s)%nat by lia.
    apply (loop_from_top loop_cond_body); [done |]. intros; by apply loop_cond_turns.
  - intros st n d s Hst.
    replace (3 * n + 6 + s)%nat with (3 * n + 3 + 3 + s)%nat by lia.
    apply (loop_from_top loop_begin_body); [done |]. intros; by apply loop_begin_turns.
Qed.

Lemma tail_call_in_constant_depth_witness :
  (exists st',
     eval 5 156 (VList [VSym "loop"; VInt 50]) global_env loop_begin_state = Ret (VInt 0) st'
     /\ has_loop_body loop_begin_body st')
  /\ (exists st',
        eval 5 11 (VList [VSym "loop"; VInt 3]) global_env loop_cond_state = Ret (VInt 0) st'
        /\ has_loop_body loop_cond_body st')
  /\ (exists st',
        eval 5 10 (VList [VSym "loop"; VInt 3]) global_env loop_state = Ret (VInt 0) st'
        /\ has_loop st').
Proof.
  split; [| split].
  - exact (proj2 (proj2 (proj2 tail_call_in_constant_depth)) loop_begin_state 50%nat 0%nat 0%nat
             has_loop_begin_state).
  - exact (proj1 (proj2 (proj2 tail_call_in_constant_depth)) loop_cond_state 3%nat 0%nat 0%nat
             has_loop_cond_state).
  - exact (proj1 (proj2 tail_call_in_constant_depth) loop_state 3%nat 0%nat 0%nat
             has_loop_loop_state).
Defined.

(** ** Escapes through what is pending *)

Lemma mapM_raise {A B} (f : A -> state -> outcome state B) pre e post st vs st1 ex st' :
  mapM f pre st = Ret vs st1 -> f e st1 = Raise ex st' ->
  mapM f (pre ++ e :: post)%list st = Raise ex st'.
Proof.
  revert st vs. induction pre as [| a pre IH]; intros st vs Hpre He.
  - cbn [mapM] in Hpre. injection Hpre as <- <-. cbn [app mapM]. by rewrite He.
  - cbn [app mapM] in *. destruct (f a st) as [b0 st0 | |]; try discriminate.
    cbn [bind] in *. destruct (mapM f pre st0) as [bs st2 | |] eqn:E; try discriminate.
    cbn [bind] in Hpre. injection Hpre as <- <-.
    by rewrite (IH st0 bs E He).
Qed.

Lemma forM_raise {A B} (f : A -> state -> outcome state B) pre e post st st1 ex st' :
  forM f pre st = Ret () st1 -> f e st1 = Raise ex st' ->
  forM f (pre ++ e :: post)%list st = Raise ex st'.
Proof.
  revert st. induction pre as [| a pre IH]; intros st Hpre He.
  - cbn [forM] in Hpre. injection Hpre as <-. cbn [app forM]. by rewrite He.
  - cbn [app forM] in *. destruct (f a st) as [b0 st0 | |]; try discriminate.
    cbn [bind] in *. by apply IH.
Qed.

Lemma middle_app pre (e : value) post :
  post <> [] -> middle (pre ++ e :: post)%list = (pre ++ e :: middle post)%list.
Proof.
  intros Hpost. unfold middle. induction pre as [| a pre IH].
  - cbn [app]. destruct post; [done | reflexivity].
  - cbn [app]. rewrite <- IH. cbn [removelast]. by destruct pre.
Qed.

Lemma cond_clauses_test_raises (ev : evaluator) env pre test body post : forall st st1 ex st',
  tests_false ev env pre st st1 -> ev test env st1 = Raise ex st' ->
  cond_clauses ev env (pre ++ VList (test :: body) :: post)%list st = Raise ex st'.
Proof.
  induction pre as [| c pre IH]; intros st st1 ex st' H He.
  - cbn [tests_false] in H. subst st1. cbn [app cond_clauses]. by rewrite He.
  - destruct c as [| | | | | | [| t0 b0] | | |]; try done.
    destruct H as (v0 & st0 & He0 & Hv0 & H). cbn [app cond_clauses].
    rewrite He0. cbn [bind]. rewrite Hv0. by apply (IH _ st1).
Qed.

Lemma cond_clauses_body_raises (ev : evaluator) env pre test body post :
  forall st st1 t st2 ex st',
  tests_false ev env pre st st1 -> ev test env st1 = Ret t st2 -> truthy t = true ->
  forM (fun x => ev x env) (middle body) st2 = Raise ex st' ->
  cond_clauses ev env (pre ++ VList (test :: body) :: post)%list st = Raise ex st'.
Proof.
  induction pre as [| c pre IH]; intros st st1 t st2 ex st' H He Ht Hb.
  - cbn [tests_false] in H. subst st1. cbn [app cond_clauses].
    rewrite He. cbn [bind]. rewrite Ht, Hb. reflexivity.
  - destruct c as [| | | | | | [| t0 b0] | | |]; try done.
    destruct H as (v0 & st0 & He0 & Hv0 & H). cbn [app cond_clauses].
    rewrite He0. cbn [bind]. rewrite Hv0. by apply (IH _ st1 t st2).
Qed.

Lemma escapes_sound d s b v :
  (forall h x env st st',
     escapes d s b v h x env st st' ->
     eval (h + d) (h + s) x env st = Raise (RuntimeWarning b v) st')
  /\ (forall h p args st st',
        call_escapes d s b v h p args st st' ->
        call (h + d) (h + s) p args st = Raise (RuntimeWarning b v) st').
Proof.
  apply escapes_call_ind.
  - (* the test of an if *)
    intros h test conseq alt env st st' _ IH.
    change (S h + d)%nat with (S (h + d)). change (S h + s)%nat with (S (h + s)).
    rewrite eval_unfold. unfold eval_turn.
    cbn [is_Symbol is_sym _if Sym String.eqb Ascii.eqb Bool.eqb].
    by rewrite IH.
  - (* a branch of an if *)
    intros h test conseq alt env st t st1 st' He _ IH.
    change (S h + d)%nat with (S (h + d)). change (S h + s)%nat with (S (h + s)).
    rewrite eval_unfold. unfold eval_turn.
    cbn [is_Symbol is_sym _if Sym String.eqb Ascii.eqb Bool.eqb].
    rewrite (eval_lift d s (h + d) (h + s) _ _ _ _ He); [| auto with approx | lia | lia].
    cbn [bind]. apply (eval_lift (h + d) (h + s)); [done | auto with approx | lia | lia].
  - (* the test of a clause *)
    intros h pre test body post env st st1 st' Hpre _ IH.
    change (S h + d)%nat with (S (h + d)). change (S h + s)%nat with (S (h + s)).
    rewrite eval_unfold. unfold eval_turn.
    cbn [is_Symbol is_sym _cond Sym String.eqb Ascii.eqb Bool.eqb].
    rewrite (cond_clauses_test_raises _ env pre test body post st st1 (RuntimeWarning b v) st'); [done | | done].
    apply (tests_false_lift d s); [done | lia | lia].
  - (* an expression of a clause *)
    intros h pre test bpre e bpost post env st st1 t st2 st3 st' Hpre He Ht Hne Hb _ IH.
    change (S h + d)%nat with (S (h + d)). change (S h + s)%nat with (S (h + s)).
    rewrite eval_unfold. unfold eval_turn.
    cbn [is_Symbol is_sym _cond Sym String.eqb Ascii.eqb Bool.eqb].
    rewrite (cond_clauses_body_raises _ env pre test _ post st st1 t st2 (RuntimeWarning b v) st'); [done | | | done |].
    + apply (tests_false_lift d s); [done | lia | lia].
    + apply (eval_lift d s); [done | auto with approx | lia | lia].
    + rewrite middle_app by done.
      apply (forM_raise _ bpre e _ st2 st3); [| done].
      apply (forM_lift d s); [done | auto with approx | lia | lia].
  - (* the last expression of a clause *)
    intros h cs env st x' st1 st' Hc _ IH.
    change (S h + d)%nat with (S (h + d)). change (S h + s)%nat with (S (h + s)).
    rewrite eval_unfold. unfold eval_turn.
    cbn [is_Symbol is_sym _cond Sym String.eqb Ascii.eqb Bool.eqb].
    rewrite (cond_clauses_lift d s (h + d) (h + s) _ _ _ _ Hc); [| auto with approx | lia | lia].
    cbn [bind]. apply (eval_lift (h + d) (h + s)); [done | auto with approx | lia | lia].
  - (* the value of an assignment *)
    intros h var exp env st st' _ IH.
    change (S h + d)%nat with (S (h + d)). change (S h + s)%nat with (S (h + s)).
    rewrite eval_unfold. unfold eval_turn.
    cbn [is_Symbol is_sym _set Sym String.eqb Ascii.eqb Bool.eqb].
    by rewrite IH.
  - (* the value of a definition *)
    intros h var exp env st st' _ IH.
    change (S h + d)%nat with (S (h + d)). change (S h + s)%nat with (S (h + s)).
    rewrite eval_unfold. unfold eval_turn.
    cbn [is_Symbol is_sym _define Sym String.eqb Ascii.eqb Bool.eqb].
    by rewrite IH.
  - (* an expression of a begin before the last *)
    intros h pre e post env st st1 st' Hne Hpre _ IH.
    change (S h + d)%nat with (S (h + d)). change (S h + s)%nat with (S (h + s)).
    rewrite eval_unfold. unfold eval_turn.
    cbn [is_Symbol is_sym _begin Sym String.eqb Ascii.eqb Bool.eqb].
    rewrite middle_app by done.
    rewrite (forM_raise _ pre e _ st st1 (RuntimeWarning b v) st'); [done | | done].
    apply (forM_lift d s); [done | auto with approx | lia | lia].
  - (* the last expression of a begin *)
    intros h tl env st st1 st' Hb _ IH.
    change (S h + d)%nat with (S (h + d)). change (S h + s)%nat with (S (h + s)).
    rewrite eval_unfold. unfold eval_turn.
    cbn [is_Symbol is_sym _begin Sym String.eqb Ascii.eqb Bool.eqb].
    rewrite (forM_lift d s (h + d) (h + s) _ _ _ _ Hb); [| auto with approx | lia | lia].
    cbn [bind]. apply (eval_lift (h + d) (h + s)); [done | auto with approx | lia | lia].
  - (* an operand, or the operator *)
    intros h hd tl pre e post env st vs st1 st' Hsp Heq Hpre _ IH.
    change (S h + d)%nat with (S (h + d)). change (S h + s)%nat with (S (h + s)).
    unfold is_special in Hsp.
    repeat (apply orb_false_elim in Hsp; destruct Hsp as [Hsp ?]).
    rewrite eval_unfold. unfold eval_turn. simpl is_Symbol. cbv iota.
    rewrite Hsp, H, H0, H1, H2, H3, H4, Heq.
    rewrite (mapM_raise _ pre e post st vs st1 (RuntimeWarning b v) st'); [done | | done].
    apply (mapM_lift d s); [done | auto with approx | lia | lia].
  - (* the body of the closure that is applied *)
    intros h hd tl env st parms body penv args st1 e st2 st' Hsp Hm Hi _ IH.
    change (S h + d)%nat with (S (h + d)). change (S h + s)%nat with (S (h + s)).
    rewrite (eval_apply (h + d) (h + s) hd tl env st parms body penv args st1 Hsp).
    + rewrite Hi. cbn [bind].
      apply (eval_lift (h + d) (h + s)); [done | auto with approx | lia | lia].
    + apply (mapM_lift d s); [done | auto with approx | lia | lia].
  - (* a native procedure that is applied *)
    intros h hd tl env st proc args st1 st' Hsp Hm Hp _ IH.
    change (S h + d)%nat with (S (h + d)). change (S h + s)%nat with (S (h + s)).
    unfold is_special in Hsp.
    repeat (apply orb_false_elim in Hsp; destruct Hsp as [Hsp ?]).
    rewrite eval_unfold. unfold eval_turn. simpl is_Symbol. cbv iota.
    rewrite Hsp, H, H0, H1, H2, H3, H4.
    rewrite (mapM_lift d s (h + d) (h + s) _ _ _ _ Hm); [| auto with approx | lia | lia].
    cbn [bind]. destruct proc; try discriminate Hp; exact IH.
  - (* the escape procedure *)
    intros h st. change (S h + d)%nat with (S (h + d)).
    rewrite call_unfold. reflexivity.
  - (* a closure *)
    intros h parms body penv args st e st1 st' Hi _ IH.
    change (S h + d)%nat with (S (h + d)).
    rewrite call_unfold. unfold call_proc. rewrite Hi. cbn [bind].
    apply (eval_lift (h + d) (h + s)); [done | auto with approx | lia | lia].
  - (* apply *)
    intros h p l st st' _ IH.
    change (S h + d)%nat with (S (h + d)).
    rewrite call_unfold. unfold call_proc.
    apply (call_lift (h + d) (h + s)); [done | auto with approx | lia | lia].
  - (* eval *)
    intros h x st x' st1 st' Hx _ IH.
    change (S h + d)%nat with (S (h + d)).
    rewrite call_unfold. unfold call_proc.
    rewrite (expand_lift d s (h + d) (S h + s) _ _ _ _ Hx); [| auto with approx | lia | lia].
    cbn [bind]. apply (eval_lift (h + d) (h + s)); [done | auto with approx | lia | lia].
  - (* an inner call/cc *)
    intros h p st st' Hb _ IH.
    change (S h + d)%nat with (S (h + d)).
    rewrite call_unfold. unfold call_proc, callcc. fold (with_ball st).
    rewrite (call_lift (h + d) (h + s) (h + d) (S h + s) _ _ _ _ IH);
      [| auto with approx | lia | lia].
    destruct (Nat.eqb_spec b (balls st)); [done | reflexivity].
Qed.

(** The call of [callcc] whose callee comes to invoke the escape
    procedure: the value is returned where [callcc] was called. *)
Lemma callcc_returns d s h p st v st' :
  call_escapes d s (balls st) v h p [VPrim (PThrow (balls st))] (with_ball st) st' ->
  forall d' s', call (S (h + d + d')) (h + s + s') (VPrim PCallcc) [p] st = Ret v st'.
Proof.
  intros H d' s'. rewrite call_unfold. unfold call_proc, callcc. fold (with_ball st).
  rewrite (call_lift (h + d) (h + s) (h + d + d') (h + s + s') _ _ _ _
             (proj2 (escapes_sound d s (balls st) v) _ _ _ _ _ H));
    [| auto with approx | lia | lia].
  by rewrite Nat.eqb_refl.
Qed.

Lemma callcc_raises_again d s h p st b v st' :
  b <> balls st ->
  call_escapes d s b v h p [VPrim (PThrow (balls st))] (with_ball st) st' ->
  forall d' s', call (S (h + d + d')) (h + s + s') (VPrim PCallcc) [p] st
                = Raise (RuntimeWarning b v) st'.
Proof.
  intros Hb H d' s'. rewrite call_unfold. unfold call_proc, callcc. fold (with_ball st).
  rewrite (call_lift (h + d) (h + s) (h + d + d') (h + s + s') _ _ _ _
             (proj2 (escapes_sound d s b v) _ _ _ _ _ H));
    [| auto with approx | lia | lia].
  destruct (Nat.eqb_spec b (balls st)); [done | reflexivity].
Qed.

Lemma pending_escapes (n : nat) b e st G :
  envs st !! global_env = Some G -> storage G !! "+" = Some (VPrim PAdd) ->
  envs st !! e = Some (escape_frame b) ->
  escapes 3 1 b (VInt 42) (n + 2) (pending n (VList [VSym "k"; VInt 42])) e st st.
Proof.
  intros HG Hplus He. induction n as [| n IH].
  - eapply (esc_native 3 1 b (VInt 42) 1);
      [reflexivity
      | cbn [mapM]; rewrite (eval_sym_local 1 0 "k" e st _ _ He eq_refl); reflexivity
      | reflexivity | apply esc_throw].
  - cbn [pending]. change (S n + 2)%nat with (S (n + 2)).
    eapply (esc_operand 3 1 b (VInt 42) (n + 2) _ _ [VSym "+"; VInt 1] _ []);
      [reflexivity | reflexivity | | exact IH].
    cbn [mapM].
    rewrite (eval_sym_outer 0 0 "+" e st _ _ G (VPrim PAdd) He eq_refl eq_refl HG Hplus).
    reflexivity.
Qed.

Lemma escape_from_returns (n : nat) st :
  global_has [("+", VPrim PAdd); ("call/cc", VPrim PCallcc)] st ->
  forall d' s',
    eval (n + 8 + d') (n + 5 + s') (escape_from n) global_env st
    = Ret (VInt 42) (with_env (escape_frame (balls st)) (with_ball st)).
Proof.
  intros (G & HG & Hall) d' s'.
  assert (Hplus : storage G !! "+" = Some (VPrim PAdd)).
  { rewrite Forall_forall in Hall. apply (Hall ("+", VPrim PAdd)).
    apply list_elem_of_In. simpl. tauto. }
  assert (Hcc : storage G !! "call/cc" = Some (VPrim PCallcc)).
  { rewrite Forall_forall in Hall. apply (Hall ("call/cc", VPrim PCallcc)).
    apply list_elem_of_In. simpl. tauto. }
  remember (S (n + 2) + 3 + d')%nat as k eqn:Hk.
  replace (n + 8 + d')%nat with (S (S k)) by lia.
  remember (S (n + 2) + 1 + s')%nat as k2 eqn:Hk2.
  replace (n + 5 + s')%nat with (S k2) by lia.
  unfold escape_from.
  rewrite (eval_native (S k) k2 _ _ _ _ PCallcc
             [VProcedure (VList [VSym "k"]) (pending n (VList [VSym "k"; VInt 42])) global_env]
             st); [| reflexivity |].
  - subst k k2. apply (callcc_returns 3 1 (S (n + 2))).
    eapply esc_closure; [apply Env_init_one |].
    apply (pending_escapes n _ _ _ G).
    + unfold with_env, with_ball; cbn [envs]. rewrite lookup_app_l; [exact HG |].
      by apply lookup_lt_Some in HG.
    + exact Hplus.
    + apply (lookup_with_env _ (with_ball st)).
  - cbn [mapM]. destruct k as [| k']; [lia |]. destruct k2 as [| k2']; [lia |].
    rewrite (eval_sym_local _ _ "call/cc" global_env st G _ HG Hcc). cbn [bind].
    reflexivity.
Qed.



